(** * IndexDub: the resumable dubbing pipeline, embedded and verified

    A shallow embedding of the core of IndexDub (subtitle extraction,
    the segment model, the stage controller and the timeline composer)
    together with the properties its specification states about it.

    Conventions of the embedding.
    - Python [float]s are exact rationals ([Qc], canonical so that equality
      of values is Leibniz equality, as dictionary keys need it).
    - Python [str] holding subtitle text is a list of Unicode code points
      ([text]); file paths, status words and error messages are [string]s.
    - The file system is the finite set of paths that exist; the contents
      of audio files are a finite map from paths to sample sequences.
    - A call that can raise returns a [result]; external tools (ffprobe,
      ffmpeg, the synthesis engine) are oracles passed as arguments. *)

From Stdlib Require Import ZArith QArith Qcanon Qround Ascii String List Sorted Lia.
From stdpp Require Import gmap strings list fin_maps numbers pretty.

Set Warnings "-clear-no-such-hyp".

Local Open Scope string_scope.
Local Open Scope Z_scope.

(** ** Common vocabulary *)

Definition float := Qc.

Definition mkfloat (num : Z) (den : positive) : float := Q2Qc (num # den).

(** Python's [abs] on a float. *)
Definition fabs (x : float) : float :=
  if decide (x < 0)%Qc then (- x)%Qc else x.

Definition fmax (x y : float) : float := if decide (x < y)%Qc then y else x.
Definition fmin (x y : float) : float := if decide (y < x)%Qc then y else x.

(** A Unicode string: its code points. *)
Definition text := list N.

(** The outcome of a call that may raise: the value, or the message of the
    exception. *)
Inductive result (A : Type) : Type :=
| Ok (a : A)
| Raise (msg : string).
Arguments Ok {A} a.
Arguments Raise {A} msg.

Definition rbind {A B} (r : result A) (k : A -> result B) : result B :=
  match r with
  | Ok a => k a
  | Raise e => Raise e
  end.

(** Truthiness of an optional path: [None] and the empty string are falsy. *)
Definition truthy (p : option string) : bool :=
  match p with
  | Some s => negb (String.eqb s "")
  | None => false
  end.

(** ** src/config.py *)
Module config.

Record Config := {
  temp_dir : string;
  intermediate_dir : string;
  segments_dir : string;
  output_segments_dir : string;
  output_dir : string;
  sample_rate : Z;
  speed_no_adjust_threshold : float;
  speed_min_atempo : float;
  speed_max_atempo : float;
  target_loudness_lufs : float;
  gap_merge_threshold : float;
  gap_fade_duration : float;
  demo_max_segments : Z;
  demo_start_time : float;
  demo_end_time : float
}.

(** The global [config = Config()] for a project root. *)
Definition new_config (project_root : string) : Config := {|
  temp_dir := project_root ++ "/temp";
  intermediate_dir := project_root ++ "/temp/intermediate";
  segments_dir := project_root ++ "/temp/segments";
  output_segments_dir := project_root ++ "/temp/output";
  output_dir := project_root ++ "/output";
  sample_rate := 22050;
  speed_no_adjust_threshold := mkfloat 1 10;
  speed_min_atempo := mkfloat 8 10;
  speed_max_atempo := mkfloat 125 100;
  target_loudness_lufs := mkfloat (-16) 1;
  gap_merge_threshold := mkfloat 30 100;
  gap_fade_duration := mkfloat 15 100;
  demo_max_segments := 5;
  demo_start_time := mkfloat 60 1;
  demo_end_time := mkfloat 120 1
|}.

End config.

(** ** src/subtitle_parser.py: the segment model *)
Module segment.

Record Segment := {
  id : Z;
  start_time : float;
  end_time : float;
  duration : float;
  source_text : text;
  target_text : text;
  ref_audio_path : option string;
  output_audio_path : option string;
  actual_duration : option float;
  status : string;
  error_msg : option string
}.

(** The values a manifest dictionary holds for a segment. *)
Inductive pyval :=
| PyNone
| PyInt (z : Z)
| PyFloat (x : float)
| PyStr (s : string)
| PyText (t : text).

Definition of_opt_str (o : option string) : pyval :=
  match o with Some s => PyStr s | None => PyNone end.
Definition of_opt_float (o : option float) : pyval :=
  match o with Some x => PyFloat x | None => PyNone end.

Definition to_dict (self : Segment) : gmap string pyval :=
  <["id" := PyInt (id self)]>
  (<["start_time" := PyFloat (start_time self)]>
  (<["end_time" := PyFloat (end_time self)]>
  (<["duration" := PyFloat (duration self)]>
  (<["source_text" := PyText (source_text self)]>
  (<["target_text" := PyText (target_text self)]>
  (<["ref_audio_path" := of_opt_str (ref_audio_path self)]>
  (<["output_audio_path" := of_opt_str (output_audio_path self)]>
  (<["actual_duration" := of_opt_float (actual_duration self)]>
  (<["status" := PyStr (status self)]>
  (<["error_msg" := of_opt_str (error_msg self)]> ∅)))))))))).

Definition field_names : list string :=
  ["id"; "start_time"; "end_time"; "duration"; "source_text"; "target_text";
   "ref_audio_path"; "output_audio_path"; "actual_duration"; "status";
   "error_msg"].

Definition as_int (v : pyval) : option Z :=
  match v with PyInt z => Some z | _ => None end.
Definition as_float (v : pyval) : option float :=
  match v with PyFloat x => Some x | _ => None end.
Definition as_text (v : pyval) : option text :=
  match v with PyText t => Some t | _ => None end.
Definition as_str (v : pyval) : option string :=
  match v with PyStr s => Some s | _ => None end.
Definition as_opt_str (v : pyval) : option (option string) :=
  match v with PyStr s => Some (Some s) | PyNone => Some None | _ => None end.
Definition as_opt_float (v : pyval) : option (option float) :=
  match v with PyFloat x => Some (Some x) | PyNone => Some None | _ => None end.

(** The constructor call on the unpacked dictionary: a keyword that is not a
    field, or a missing field without a default, is a [TypeError] ([None] here); the five processing
    fields have defaults.  A value of another shape than the field's
    annotation has no counterpart in the typed record and is [None] too. *)
Definition from_dict (data : gmap string pyval) : option Segment :=
  if bool_decide (dom data ⊆ list_to_set field_names) then
    i ← data !! "id" ≫= as_int;
    st ← data !! "start_time" ≫= as_float;
    en ← data !! "end_time" ≫= as_float;
    du ← data !! "duration" ≫= as_float;
    src ← data !! "source_text" ≫= as_text;
    tgt ← data !! "target_text" ≫= as_text;
    ref ← as_opt_str (default PyNone (data !! "ref_audio_path"));
    out ← as_opt_str (default PyNone (data !! "output_audio_path"));
    act ← as_opt_float (default PyNone (data !! "actual_duration"));
    sta ← as_str (default (PyStr "pending") (data !! "status"));
    err ← as_opt_str (default PyNone (data !! "error_msg"));
    Some {| id := i; start_time := st; end_time := en; duration := du;
            source_text := src; target_text := tgt; ref_audio_path := ref;
            output_audio_path := out; actual_duration := act;
            status := sta; error_msg := err |}
  else None.

#[global] Instance Segment_eq_dec : EqDecision Segment.
Proof. solve_decision. Defined.

(** Assignments to the processing fields. *)
Definition set_ref (p : option string) (s : Segment) : Segment :=
  {| id := id s; start_time := start_time s; end_time := end_time s;
     duration := duration s; source_text := source_text s;
     target_text := target_text s; ref_audio_path := p;
     output_audio_path := output_audio_path s;
     actual_duration := actual_duration s; status := status s;
     error_msg := error_msg s |}.

Definition set_output (p : option string) (s : Segment) : Segment :=
  {| id := id s; start_time := start_time s; end_time := end_time s;
     duration := duration s; source_text := source_text s;
     target_text := target_text s; ref_audio_path := ref_audio_path s;
     output_audio_path := p;
     actual_duration := actual_duration s; status := status s;
     error_msg := error_msg s |}.

Definition set_actual (x : option float) (s : Segment) : Segment :=
  {| id := id s; start_time := start_time s; end_time := end_time s;
     duration := duration s; source_text := source_text s;
     target_text := target_text s; ref_audio_path := ref_audio_path s;
     output_audio_path := output_audio_path s;
     actual_duration := x; status := status s;
     error_msg := error_msg s |}.

Definition set_status (w : string) (s : Segment) : Segment :=
  {| id := id s; start_time := start_time s; end_time := end_time s;
     duration := duration s; source_text := source_text s;
     target_text := target_text s; ref_audio_path := ref_audio_path s;
     output_audio_path := output_audio_path s;
     actual_duration := actual_duration s; status := w;
     error_msg := error_msg s |}.

(** [seg.status = "error"; seg.error_msg = str(e)] *)
Definition set_error (e : string) (s : Segment) : Segment :=
  {| id := id s; start_time := start_time s; end_time := end_time s;
     duration := duration s; source_text := source_text s;
     target_text := target_text s; ref_audio_path := ref_audio_path s;
     output_audio_path := output_audio_path s;
     actual_duration := actual_duration s; status := "error";
     error_msg := Some e |}.

End segment.
Export segment.

(** ** src/subtitle_parser.py: the parser *)
Module subtitle_parser.
Local Open Scope N_scope.
Local Open Scope list_scope.

(** *** Code points the parser names *)
Definition LF : N := 0x0a.
Definition SPACE : N := 0x20.
Definition PERCENT : N := 0x25.
Definition DOT : N := 0x2e.
Definition NOTE : N := 0x266a.
Definition NIAN : N := 0x5e74.
Definition DIAN : N := 0x70b9.
Definition LING : N := 0x96f6.
Definition SHI : N := 0x5341.
Definition BAI : N := 0x767e.
Definition QIAN : N := 0x5343.
Definition WAN : N := 0x4e07.
Definition YI : N := 0x4ebf.
Definition BAIFENZHI : text := [0x767e; 0x5206; 0x4e4b].

(** [d = '零一二三四五六七八九'] *)
Definition d : list N :=
  [0x96f6; 0x4e00; 0x4e8c; 0x4e09; 0x56db; 0x4e94; 0x516d; 0x4e03; 0x516b; 0x4e5d].

(** [d[k]] for an index in range. *)
Definition d_at (k : Z) : N := nth (Z.to_nat k) d LING.

(** *** String primitives of the runtime *)

(** The code points [str.strip] removes. *)
Definition is_space (c : N) : bool :=
  ((0x09 <=? c) && (c <=? 0x0d)) || ((0x1c <=? c) && (c <=? 0x20)) ||
  (c =? 0x85) || (c =? 0xa0) || (c =? 0x1680) ||
  ((0x2000 <=? c) && (c <=? 0x200a)) || (c =? 0x2028) || (c =? 0x2029) ||
  (c =? 0x202f) || (c =? 0x205f) || (c =? 0x3000).

Fixpoint lstrip (t : text) : text :=
  match t with
  | c :: r => if is_space c then lstrip r else t
  | [] => []
  end.

Definition strip (t : text) : text := rev (lstrip (rev (lstrip t))).

Definition nonempty (t : text) : bool :=
  match t with [] => false | _ => true end.

(** [t.split(sep)] for a one-character separator. *)
Fixpoint split_on (sep : N) (t : text) : list text :=
  match t with
  | [] => [[]]
  | c :: r =>
    if c =? sep then [] :: split_on sep r
    else match split_on sep r with
         | p :: ps => (c :: p) :: ps
         | [] => [[c]]
         end
  end.

(** [' '.join(parts)] *)
Fixpoint join_space (parts : list text) : text :=
  match parts with
  | [] => []
  | [p] => p
  | p :: ps => p ++ SPACE :: join_space ps
  end.

(** The longest prefix of [t] whose code points satisfy [p], and the rest. *)
Fixpoint span (p : N → bool) (t : text) : text * text :=
  match t with
  | [] => ([], [])
  | c :: r =>
    if p c then let '(a, b) := span p r in (c :: a, b) else ([], t)
  end.

(** [re.sub]: scanning left to right, the match found at a position is
    replaced and scanning goes on behind it; where there is none the
    character is kept.  [m] gives, for a match starting at the head of its
    argument, the replacement and the text behind the match. *)
Fixpoint re_sub_fuel (fuel : nat) (m : text → option (text * text)) (t : text)
  : text :=
  match fuel with
  | O => t
  | S f =>
    match t with
    | [] => []
    | c :: r =>
      match m t with
      | Some (repl, rest) => repl ++ re_sub_fuel f m rest
      | None => c :: re_sub_fuel f m r
      end
    end
  end.

Definition re_sub (m : text → option (text * text)) (t : text) : text :=
  re_sub_fuel (length t) m t.

(** *** Cleaning *)

(** [chinese_pattern.search]: some code point in U+4E00..U+9FFF. *)
Definition is_chinese_char (c : N) : bool := (0x4e00 <=? c) && (c <=? 0x9fff).
Definition chinese_search (t : text) : bool := existsb is_chinese_char t.

Definition is_open (c : N) : bool :=
  (c =? 0x28) || (c =? 0x5b) || (c =? 0x7b) || (c =? 0xff08) || (c =? 0x3010).
Definition is_close (c : N) : bool :=
  (c =? 0x29) || (c =? 0x5d) || (c =? 0x7d) || (c =? 0xff09) || (c =? 0x3011).

(** The lazy [.*?] up to the first [stop] character; [.] does not match a
    line feed.  The result is the text behind the [stop] character. *)
Fixpoint find_close (stop : N → bool) (t : text) : option text :=
  match t with
  | [] => None
  | c :: r =>
    if stop c then Some r
    else if c =? LF then None
    else find_close stop r
  end.

Fixpoint drop_notes (t : text) : text :=
  match t with
  | c :: r => if c =? NOTE then drop_notes r else t
  | [] => []
  end.

(** [bracket_pattern]: an opening bracket up to the nearest closing one, a
    note up to the next note, or a run of notes. *)
Definition bracket_match (t : text) : option (text * text) :=
  match t with
  | [] => None
  | c :: r =>
    if is_open c then
      match find_close is_close r with
      | Some rest => Some ([], rest)
      | None => None
      end
    else if c =? NOTE then
      match find_close (N.eqb NOTE) r with
      | Some rest => Some ([], rest)
      | None => Some ([], drop_notes r)
      end
    else None
  end.

Definition _clean_text (t : text) : text :=
  match t with
  | [] => []
  | _ => strip (re_sub bracket_match t)
  end.

(** *** Numerals *)

(** The blocks of [_int_to_cn] below 万, each on the pair of the
    remaining [n] and the [result] built so far. *)
Definition block (unit : Z) (mark : N) (zero_below : Z) (st : Z * text)
  : Z * text :=
  let '(n, result) := st in
  if (unit <=? n)%Z then
    let result := result ++ [d_at (n / unit); mark] in
    let n := (n mod unit)%Z in
    (n, if (0 <? n)%Z && (n <? zero_below)%Z then result ++ [LING] else result)
  else (n, result).

Definition block_shi (st : Z * text) : Z * text :=
  let '(n, result) := st in
  if (10 <=? n)%Z then
    let result :=
      if (n / 10 =? 1)%Z && negb (nonempty result) then result ++ [SHI]
      else result ++ [d_at (n / 10); SHI] in
    ((n mod 10)%Z, result)
  else (n, result).

Definition block_ge (st : Z * text) : text :=
  let '(n, result) := st in
  if (0 <? n)%Z then result ++ [d_at n] else result.

(** The part of [_int_to_cn] from 千 down. *)
Definition below_wan (st : Z * text) : text :=
  block_ge (block_shi (block 100 BAI 10 (block 1000 QIAN 100 st))).

(** The 亿 and 万 blocks read their multiplier by a recursive call [rec]. *)
Definition block_rec (rec : Z → text) (unit : Z) (mark : N) (zero_below : Z)
    (st : Z * text) : Z * text :=
  let '(n, result) := st in
  if (unit <=? n)%Z then
    let result := result ++ rec (n / unit)%Z ++ [mark] in
    let n := (n mod unit)%Z in
    (n, if (0 <? n)%Z && (n <? zero_below)%Z then result ++ [LING] else result)
  else (n, result).

Definition int_to_cn_body (rec : Z → text) (n : Z) : text :=
  if (n =? 0)%Z then [LING]
  else
    below_wan
      (block_rec rec 10000 WAN 1000
         (block_rec rec 100000000 YI 10000000 (n, []))).

Fixpoint int_to_cn_fuel (fuel : nat) (n : Z) : text :=
  match fuel with
  | O => []
  | S f => int_to_cn_body (int_to_cn_fuel f) n
  end.

(** Every recursive call divides [n] by ten thousand at least, so the
    binary length of [n] is fuel enough. *)
Definition _int_to_cn (n : Z) : text :=
  int_to_cn_fuel (S (Z.to_nat (Z.log2 n))) n.

Section parser.

(** The decimal value of a code point of Unicode category Nd, as the
    runtime's table has it: what [\d] matches and what [int] reads. *)
Variable digit_val : N → option N.

Definition is_digit (c : N) : bool :=
  match digit_val c with Some _ => true | None => false end.

Definition int_of_char (c : N) : Z := Z.of_N (default 0 (digit_val c)).

(** [int(s)] on a string of digits. *)
Definition int_of (s : text) : Z :=
  foldl (λ acc c, (10 * acc + int_of_char c)%Z) 0%Z s.

Definition _digits_to_cn (s : text) : text :=
  (λ c, d_at (int_of_char c)) <$> s.

(** [s.split('.', 1)] when ['.' in s]. *)
Fixpoint split_dot (s : text) : option (text * text) :=
  match s with
  | [] => None
  | c :: r =>
    if c =? DOT then Some ([], r)
    else match split_dot r with
         | Some (a, b) => Some (c :: a, b)
         | None => None
         end
  end.

Definition _num_to_cn (s : text) : text :=
  match split_dot s with
  | Some (integer_part, decimal_part) =>
    _int_to_cn (int_of integer_part) ++ DIAN :: _digits_to_cn decimal_part
  | None => _int_to_cn (int_of s)
  end.

(** [\d+\.?\d*] at the head of [t]: the matched text and the rest. *)
Definition number_token (t : text) : option (text * text) :=
  let '(d1, r1) := span is_digit t in
  match d1 with
  | [] => None
  | _ =>
    match r1 with
    | c :: r2 =>
      if c =? DOT then
        let '(d2, r3) := span is_digit r2 in Some (d1 ++ DOT :: d2, r3)
      else Some (d1, r1)
    | [] => Some (d1, r1)
    end
  end.

(** A number token followed by a percent sign: the only way to reach the
    percent sign is with both digit runs taken whole, so giving digits back
    never finds a match. *)
Definition percent_match (t : text) : option (text * text) :=
  match number_token t with
  | Some (group, c :: rest) =>
    if c =? PERCENT then Some (BAIFENZHI ++ _num_to_cn group, rest)
    else None
  | _ => None
  end.

(** [(\d{4})年] *)
Definition year_match (t : text) : option (text * text) :=
  match t with
  | a :: b :: c :: e :: y :: rest =>
    if is_digit a && is_digit b && is_digit c && is_digit e && (y =? NIAN)
    then Some (_digits_to_cn [a; b; c; e] ++ [NIAN], rest)
    else None
  | _ => None
  end.

(** [\d{5,}] *)
Definition long_match (t : text) : option (text * text) :=
  let '(run, rest) := span is_digit t in
  if (5 <=? length run)%nat then Some (_digits_to_cn run, rest) else None.

(** [\d+\.?\d*] *)
Definition number_match (t : text) : option (text * text) :=
  match number_token t with
  | Some (group, rest) => Some (_num_to_cn group, rest)
  | None => None
  end.

Definition _convert_numbers (t : text) : text :=
  re_sub number_match (re_sub long_match (re_sub year_match (re_sub percent_match t))).

(** *** Loading a subtitle file *)

(** An event of the parsed file: times in milliseconds and the text with
    the markup removed, as the subtitle library gives them. *)
Record SSAEvent := {
  start : Z;
  end_ : Z;
  plaintext : text
}.

(** [subs.sort()]: the library orders events by start, then end; the sort
    is stable. *)
Definition event_lt (a b : SSAEvent) : bool :=
  (start a <? start b)%Z || ((start a =? start b)%Z && (end_ a <? end_ b)%Z).

Fixpoint insert_event (e : SSAEvent) (l : list SSAEvent) : list SSAEvent :=
  match l with
  | [] => [e]
  | x :: r => if event_lt x e then x :: insert_event e r else e :: l
  end.

Definition sort_events (l : list SSAEvent) : list SSAEvent :=
  foldr insert_event [] l.

(** [ms / 1000.0] *)
Definition seconds (ms : Z) : float := mkfloat ms 1000.

(** What one turn of the [while] loop does: leave the loop, or advance [i]
    by one or by two ([two]) and append a segment with the given source and
    target text, if any. *)
Inductive action :=
| Stop
| Go (two : bool) (emit : option (text * text)).

(** The cue with an internal line break: its lines are sorted into target
    and source text. *)
Definition inline_bilingual (txt : text) : action :=
  let parts := filter (λ p, nonempty p = true) (strip <$> split_on LF txt) in
  let cleaned := filter (λ p, nonempty p = true) (_clean_text <$> parts) in
  let cn_parts := filter (λ p, chinese_search p = true) cleaned in
  let other_parts := filter (λ p, chinese_search p = false) cleaned in
  let target_text := join_space cn_parts in
  let source_text := join_space other_parts in
  if nonempty (strip target_text)
  then Go false (Some (source_text, _convert_numbers target_text))
  else Go false None.

(** The cue without one: it is paired with the next cue when that starts
    within ten milliseconds. *)
Definition pair_with_next (start_s : float) (txt : text)
    (next : option SSAEvent) : action :=
  let cleaned_text := _clean_text txt in
  let is_chinese := chinese_search cleaned_text in
  let paired : option (text * text) :=
    match next with
    | Some next_line =>
      let next_start := seconds (start next_line) in
      let next_text := strip (plaintext next_line) in
      if bool_decide (fabs (next_start - start_s) < mkfloat 1 100)%Qc
         && nonempty next_text
      then
        let next_cleaned := _clean_text next_text in
        let next_is_chinese := chinese_search next_cleaned in
        if negb is_chinese && next_is_chinese
        then Some (cleaned_text, next_cleaned)
        else if is_chinese && negb next_is_chinese
        then Some (next_cleaned, cleaned_text)
        else if is_chinese && next_is_chinese
        then Some ([], cleaned_text)
        else None
      else None
    | None => None
    end in
  match paired with
  | Some (source_text, target_text) =>
    if nonempty (strip target_text)
    then Go true (Some (source_text, _convert_numbers target_text))
    else Go true None
  | None =>
    if is_chinese then
      if nonempty (strip cleaned_text)
      then Go false (Some ([], _convert_numbers cleaned_text))
      else Go false None
    else Go false None
  end.

Definition turn (start_time : float) (end_time : option float)
    (line : SSAEvent) (next : option SSAEvent) : action :=
  let start_s := seconds (start line) in
  if bool_decide (start_s < start_time)%Qc then Go false None
  else if match end_time with
          | Some e => bool_decide (e ≤ start_s)%Qc
          | None => false
          end
  then Stop
  else
    let txt := strip (plaintext line) in
    if negb (nonempty txt) then Go false None
    else if existsb (N.eqb LF) txt then inline_bilingual txt
    else pair_with_next start_s txt next.

Definition new_segment (segment_id : Z) (line : SSAEvent)
    (source target : text) : Segment := {|
  id := segment_id;
  start_time := seconds (start line);
  end_time := seconds (end_ line);
  duration := (seconds (end_ line) - seconds (start line))%Qc;
  source_text := source;
  target_text := target;
  ref_audio_path := None;
  output_audio_path := None;
  actual_duration := None;
  status := "pending";
  error_msg := None
|}.

(** [max_segments and len(segments) >= max_segments] *)
Definition cap_reached (max_segments : option Z) (segments : list Segment)
  : bool :=
  match max_segments with
  | Some n => negb (n =? 0)%Z && (n <=? Z.of_nat (length segments))%Z
  | None => false
  end.

Fixpoint load_loop (start_time : float) (end_time : option float)
    (max_segments : option Z) (subs : list SSAEvent)
    (segments : list Segment) (segment_id : Z) : list Segment :=
  match subs with
  | [] => segments
  | line :: rest =>
    match turn start_time end_time line (head rest) with
    | Stop => segments
    | Go two None =>
      match two, rest with
      | true, _ :: rest2 =>
        load_loop start_time end_time max_segments rest2 segments segment_id
      | _, _ =>
        load_loop start_time end_time max_segments rest segments segment_id
      end
    | Go two (Some (source, target)) =>
      let segments := segments ++ [new_segment segment_id line source target] in
      let segment_id := (segment_id + 1)%Z in
      if cap_reached max_segments segments then segments
      else
        match two, rest with
        | true, _ :: rest2 =>
          load_loop start_time end_time max_segments rest2 segments segment_id
        | _, _ =>
          load_loop start_time end_time max_segments rest segments segment_id
        end
    end
  end.

(** [load]: [end_time] is [None] for the default [float('inf')], and
    [max_segments] is [None] for the default. *)
Definition load (subs : list SSAEvent) (start_time : float)
    (end_time : option float) (max_segments : option Z) : list Segment :=
  load_loop start_time end_time max_segments (sort_events subs) [] 1%Z.

Definition get_video_clip_times (segments : list Segment) (padding : float)
  : float * float :=
  match segments, list.last segments with
  | first :: _, Some final =>
    (fmax 0%Qc (start_time first - padding)%Qc, (end_time final + padding)%Qc)
  | _, _ => (0%Qc, mkfloat 60 1)
  end.

End parser.

(** What the loop keeps true of the segments collected so far: each has a
    target text and the times of one of the cues. *)
Definition from_cue (universe : list SSAEvent) (s : Segment) : Prop :=
  target_text s ≠ [] ∧
  ∃ line, line ∈ universe ∧
    start_time s = seconds (start line) ∧ end_time s = seconds (end_ line).

(** A segment as extraction makes it: nothing processed yet. *)
Definition fresh (s : Segment) : Prop :=
  status s = "pending" ∧ ref_audio_path s = None ∧
  output_audio_path s = None ∧ actual_duration s = None ∧ error_msg s = None.

End subtitle_parser.

(** ** What a numeral says *)
Module numeral.
Import subtitle_parser.
Local Open Scope list_scope.

(** The value of a digit word. *)
Definition digit_of_cn (c : N) : option Z :=
  Z.of_nat <$> (fst <$> list_find (λ x, x = c) d).

(** Reading a place-value numeral from left to right: [total] collects the
    groups closed by 万 or 亿, [section] the current group, and [number]
    the digit not yet given its unit.  A bare 十 counts as ten. *)
Definition cn_step (st : Z * Z * Z) (c : N) : Z * Z * Z :=
  let '(total, section, number) := st in
  if (c =? YI)%N then ((total + section + number) * 100000000, 0, 0)
  else if (c =? WAN)%N then (total + (section + number) * 10000, 0, 0)
  else if (c =? QIAN)%N then (total, section + number * 1000, 0)
  else if (c =? BAI)%N then (total, section + number * 100, 0)
  else if (c =? SHI)%N then
    (total, section + (if number =? 0 then 1 else number) * 10, 0)
  else match digit_of_cn c with
       | Some k => (total, section, k)
       | None => st
       end.

Definition cn_run (st : Z * Z * Z) (t : text) : Z * Z * Z := foldl cn_step st t.



(** A numeral elides zeros properly when 零 is never its first or last
    character and never follows another 零. [prev] tells that the
    previous character was 零, or that there is none. *)
Fixpoint zeros_from (prev : bool) (t : text) : bool :=
  match t with
  | [] => negb prev
  | c :: r =>
    if (c =? LING)%N then negb prev && zeros_from true r
    else zeros_from false r
  end.

Definition zeros_elided (t : text) : bool := zeros_from true t.

(** The characters of a group below 万. *)
Definition in_group (t : text) : bool :=
  forallb (λ c, negb (c =? YI)%N && negb (c =? WAN)%N) t.

(** What [below_wan] appends to a [result] that is empty or not. *)
Definition from_qian (filled : bool) (n : Z) : text :=
  let '(n1, t1) := block 1000 QIAN 100 (n, []) in
  let '(n2, t2) := block 100 BAI 10 (n1, []) in
  let t12 := t1 ++ t2 in
  let '(n3, t3) :=
    if 10 <=? n2 then
      (n2 mod 10,
       if (n2 / 10 =? 1) && negb (filled || nonempty t12) then [SHI]
       else [d_at (n2 / 10); SHI])
    else (n2, []) in
  t12 ++ t3 ++ (if 0 <? n3 then [d_at n3] else []).

(** What the 万 block and the blocks below it append. *)
Definition from_wan (filled : bool) (n : Z) : text :=
  if 10000 <=? n then
    _int_to_cn (n / 10000) ++ WAN ::
    (if (0 <? n mod 10000) && (n mod 10000 <? 1000) then [LING] else []) ++
    from_qian true (n mod 10000)
  else from_qian filled n.

(** A check on every integer below a bound. *)
Fixpoint all_from (count : nat) (k : Z) (P : Z → bool) : bool :=
  match count with
  | O => true
  | S c => P k && all_from c (k + 1) P
  end.

Definition all_below (bound : Z) (P : Z → bool) : bool :=
  all_from (Z.to_nat bound) 0 P.

Definition group_checked (filled : bool) (n : Z) : bool :=
  let t := from_qian filled n in
  (let '(a, s, m) := cn_run (0, 0, 0) t in (a =? 0) && (s + m =? n)) &&
  in_group t && forallb is_chinese_char t &&
  zeros_from false t && ((n =? 0) || zeros_from true t).







End numeral.

(** ** The file system seen by the pipeline *)
Module fs.

Definition exists_ (files : gset string) (p : string) : bool :=
  bool_decide (p ∈ files).

(** [path_str and Path(path_str).exists()] *)
Definition present (files : gset string) (p : option string) : bool :=
  match p with
  | Some s => truthy p && exists_ files s
  | None => false
  end.

Definition unlink (p : string) (files : gset string) : gset string :=
  files ∖ {[p]}.

Definition ends_with (suf s : string) : bool :=
  (String.length suf <=? String.length s)%nat &&
  String.eqb
    (substring (String.length s - String.length suf) (String.length suf) s) suf.

(** The name of [path] inside the directory [dir], if it lies under it. *)
Definition file_name (dir path : string) : option string :=
  if String.prefix (dir +:+ "/") path
  then Some (substring (S (String.length dir))
                       (String.length path - S (String.length dir)) path)
  else None.

Definition has_sep (s : string) : bool :=
  existsb (Ascii.eqb "/"%char) (list_ascii_of_string s).

(** [dir.glob(pre + "*" + suf)]: the files directly in [dir] whose name
    starts with [pre] and ends with [suf]. *)
Definition glob (dir pre suf path : string) : bool :=
  match file_name dir path with
  | Some n =>
      negb (has_sep n) && String.prefix pre n && ends_with suf n &&
      (String.length pre + String.length suf <=? String.length n)%nat
  | None => false
  end.

Definition unlink_glob (dir pre suf : string) (files : gset string)
  : gset string :=
  filter (λ f, glob dir pre suf f = false) files.

(** A name without the characters a glob pattern reads as wildcards. *)
Definition literal (s : string) : bool :=
  forallb (λ c, negb (Ascii.eqb c "*" || Ascii.eqb c "?" || Ascii.eqb c "["))%char
    (list_ascii_of_string s).

End fs.

(** ** src/audio_processor.py *)
Module audio_processor.
Local Open Scope string_scope.

(** The format [{n:04d}]. *)
Definition fmt04 (n : Z) : string :=
  let pad (width : nat) (s : string) :=
    String.concat "" (replicate (width - String.length s) "0") +:+ s in
  if (n <? 0)%Z then "-" +:+ pad 3%nat (pretty (- n)%Z) else pad 4%nat (pretty n).

Definition segment_file (output_dir : string) (seg : Segment) : string :=
  output_dir +:+ "/seg_" +:+ fmt04 (id seg) +:+ ".wav".

(** [process_segment]: the cut is made by the media tool, [ffmpeg_cut],
    which answers with its error output when it fails; without a vocal
    track there is no command to run. *)
Definition process_segment (ffmpeg_cut : string → option string)
    (vocal_path : option string) (seg : Segment) (output_dir : string)
  : result string :=
  let output := segment_file output_dir seg in
  match vocal_path with
  | None => Raise "expected str, bytes or os.PathLike object, not NoneType"
  | Some _ =>
    match ffmpeg_cut output with
    | None => Ok output
    | Some stderr => Raise ("处理音频段落失败: " +:+ stderr)
    end
  end.

(** [post_process_audio] keeps the speed it is given within what the
    tempo filter accepts. *)
Definition atempo (speed : float) : float :=
  fmax (mkfloat 1 2) (fmin (mkfloat 2 1) speed).

(** The duration of a clip of [actual] seconds played at [speed]. *)
Definition stretched (actual speed : float) : float :=
  (actual / atempo speed)%Qc.

End audio_processor.

(** ** src/audio_merger.py: the timeline composer *)
Module audio_merger.
Import config.
Local Open Scope list_scope.

(** A mono track: its samples.  The audio files on disk are a finite map
    from paths to tracks. *)
Abbreviation track := (list Z).

(** Python's [int] on a float: truncation toward zero. *)
Definition py_int (x : float) : Z :=
  if decide (x < 0)%Qc then - Qfloor (- x)%Qc else Qfloor x.

(** The number of samples of [seconds] of audio. *)
Definition frames (rate : Z) (seconds : float) : nat :=
  Z.to_nat (Qfloor (seconds * Q2Qc (inject_Z rate))%Qc).

(** [anullsrc] cut to [n] samples. *)
Definition silence (n : nat) : track := replicate n 0.

(** [adelay] by [delay_ms] and [apad] to the whole duration: the clip
    behind [delay_ms] of silence; what lies beyond [n] samples is cut by the
    mixer, which ends with its first input. *)
Definition delayed (rate : Z) (n : nat) (delay_ms : Z) (clip : track) : track :=
  resize n 0 (replicate (Z.to_nat (delay_ms * rate / 1000)) 0 ++ clip).

(** The sample at [k] of the sum of the inputs, an input that has ended
    counting as silence. *)
Definition sample_sum (inputs : list track) (k : nat) : Z :=
  foldr (λ t acc, default 0 (t !! k) + acc) 0 inputs.

(** [amix=duration=first:dropout_transition=0:normalize=0]: the plain sum of
    the inputs over the length of the first. *)
Definition amix (inputs : list track) : option track :=
  match inputs with
  | [] => None
  | first :: _ => Some (sample_sum inputs <$> seq 0 (length first))
  end.

(** [seg.status == "success" and seg.output_audio_path] *)
Definition is_valid (seg : Segment) : bool :=
  String.eqb (status seg) "success" && truthy (output_audio_path seg).

Definition delay_of (time_offset : float) (seg : Segment) : Z :=
  Z.max 0 (py_int ((start_time seg - time_offset) * mkfloat 1000 1)%Qc).

(** The input a segment gives the mixer: its clip read from disk, delayed
    and padded; [None] when the file is missing. *)
Definition placed (rate : Z) (n : nat) (time_offset : float)
    (disk : gmap string track) (seg : Segment) : option track :=
  clip ← output_audio_path seg ≫= (disk !!.);
  Some (delayed rate n (delay_of time_offset seg) clip).

(** The inputs of a merge behind the silent base. *)
Definition delayed_inputs (rate : Z) (n : nat) (time_offset : float)
    (disk : gmap string track) (segments : list Segment)
  : option (list track) :=
  mapM (placed rate n time_offset disk) segments.

(** One run of the mixer over the silent base and the clips of [segments],
    written to [output_path]; it fails when an input cannot be read. *)
Definition _execute_merge (cfg : Config) (disk : gmap string track)
    (segments : list Segment) (total_duration : float) (output_path : string)
    (time_offset : float) : result (gmap string track) :=
  let n := frames (sample_rate cfg) total_duration in
  match delayed_inputs (sample_rate cfg) n time_offset disk segments with
  | None => Raise "FFmpeg 执行合并失败"
  | Some inputs =>
    match amix (silence n :: inputs) with
    | Some mixed => Ok (<[output_path := mixed]> disk)
    | None => Raise "FFmpeg 执行合并失败"
    end
  end.



Definition batch_size : nat := 50.

(** [valid_segments[i:i + batch_size] for i in range(0, len, batch_size)] *)
Definition batches {A} (size : nat) (l : list A) : list (list A) :=
  (λ j, take size (drop (j * size) l)) <$> seq 0 ((length l + size - 1) / size).

Definition batch_path (cfg : Config) (j : nat) : string :=
  intermediate_dir cfg +:+ "/batch_" +:+ pretty j +:+ ".wav".

Definition is_batch_file (cfg : Config) (path : string) : bool :=
  fs.glob (intermediate_dir cfg) "batch_" ".wav" path.


(** The loop that renders each batch to its file. *)
Fixpoint render_batches (cfg : Config) (disk : gmap string track)
    (todo : list (list Segment)) (j : nat) (total_duration : float)
    (time_offset : float) : result (gmap string track * list string) :=
  match todo with
  | [] => Ok (disk, [])
  | batch :: rest =>
    match _execute_merge cfg disk batch total_duration (batch_path cfg j)
            time_offset with
    | Raise e => Raise e
    | Ok disk' =>
      match render_batches cfg disk' rest (S j) total_duration time_offset with
      | Raise e => Raise e
      | Ok (disk'', files) => Ok (disk'', batch_path cfg j :: files)
      end
    end
  end.

Definition create_dubbed_track (cfg : Config) (disk : gmap string track)
    (segments : list Segment) (total_duration : float) (output_path : string)
    (time_offset : float) : result (gmap string track) :=
  let valid_segments := filter (λ seg, is_valid seg = true) segments in
  match valid_segments with
  | [] => Raise "没有可用的配音段落"
  | _ =>
    if (length valid_segments <=? batch_size)%nat then
      _execute_merge cfg disk valid_segments total_duration output_path
        time_offset
    else
      let disk := filter (λ kv, is_batch_file cfg kv.1 = false) disk in
      match render_batches cfg disk (batches batch_size valid_segments) 0
              total_duration time_offset with
      | Raise e => Raise e
      | Ok (disk, batch_files) =>
        match mapM (disk !!.) batch_files ≫= amix with
        | None => Raise "最后合并分段音轨失败"
        | Some mixed =>
          let disk := <[output_path := mixed]> disk in
          Ok (foldr delete disk batch_files)
        end
      end
  end.

(** *** The gap vocal track *)

(** A mute region: its start and its end, in seconds. *)
Abbreviation region := (float * float)%type.

(** [sorted(regions, key=lambda r: r[0])]; the sort is stable. *)
Fixpoint insert_region (r : region) (l : list region) : list region :=
  match l with
  | [] => [r]
  | x :: rest =>
    if decide (x.1 < r.1)%Qc then x :: insert_region r rest else r :: l
  end.

Definition sort_regions (l : list region) : list region :=
  foldr insert_region [] l.

(** The body of the loop of [_merge_mute_regions]: the region is merged
    into the last one of [merged] or appended behind it.  [merged] is never
    empty there. *)
Definition merge_step (merge_threshold : float) (merged : list region)
    (r : region) : list region :=
  match list.last merged with
  | Some (prev_start, prev_end) =>
    if decide (r.1 ≤ prev_end + merge_threshold)%Qc
    then take (length merged - 1) merged ++ [(prev_start, fmax prev_end r.2)]
    else merged ++ [r]
  | None => merged ++ [r]
  end.

Definition _merge_mute_regions (regions : list region)
    (merge_threshold : float) : list region :=
  match sort_regions regions with
  | [] => []
  | first :: rest => foldl (merge_step merge_threshold) [first] rest
  end.

(** [seg.actual_duration if seg.actual_duration else seg.duration] *)
Definition spoken (seg : Segment) : float :=
  match actual_duration seg with
  | Some a => if bool_decide (a = 0%Qc) then duration seg else a
  | None => duration seg
  end.

(** The body of the loop that collects [raw_regions] in
    [create_gap_vocal_track]: the region to mute for a segment, if it is
    not empty. *)
Definition seg_region (total_duration time_offset : float) (seg : Segment)
  : option region :=
  let safety_margin := mkfloat 3 100 in
  let start := (start_time seg - time_offset - safety_margin)%Qc in
  let end_ := (start_time seg - time_offset + spoken seg + safety_margin)%Qc in
  let start := fmax 0%Qc start in
  let end_ := fmin total_duration end_ in
  if bool_decide (start < end_)%Qc then Some (start, end_) else None.

Definition raw_regions (segments : list Segment)
    (total_duration time_offset : float) : list region :=
  omap (seg_region total_duration time_offset)
    (filter (λ seg, is_valid seg = true) segments).

(** [create_gap_vocal_track].  The media tool applies the volume envelope
    built from the merged regions, the fade duration and the total duration
    to the vocal track it reads; it is [envelope], which answers with its
    error output when it fails (as it does when the input is missing). *)
Definition create_gap_vocal_track
    (envelope : list region → float → float → option track → result track)
    (cfg : Config) (disk : gmap string track) (vocal_path : string)
    (segments : list Segment) (total_duration : float) (output_path : string)
    (time_offset : float) : result (gmap string track) :=
  let copy :=
    match disk !! vocal_path with
    | Some t => Ok (<[output_path := t]> disk)
    | None => Raise ("[Errno 2] No such file or directory: '" +:+ vocal_path +:+ "'")
    end in
  match filter (λ seg, is_valid seg = true) segments with
  | [] => copy
  | _ =>
    match raw_regions segments total_duration time_offset with
    | [] => copy
    | raw =>
      let merged_regions := _merge_mute_regions raw (gap_merge_threshold cfg) in
      match envelope merged_regions (gap_fade_duration cfg) total_duration
              (disk !! vocal_path) with
      | Ok t => Ok (<[output_path := t]> disk)
      | Raise stderr =>
        Raise ("生成间隙人声轨失败: " +:+ substring 0 300 stderr)
      end
    end
  end.

(** *** What a clip adds to the timeline *)


End audio_merger.

(** ** src/pipeline.py: the project manifest *)
Module manifest.

(** A stage's entry in [stages_status]: the status word, or the nested
    object of the older schema with its ["status"] entry, if it has one. *)
Inductive stage_val :=
| StageStr (s : string)
| StageDict (inner : option string).

#[global] Instance stage_val_eq_dec : EqDecision stage_val.
Proof. solve_decision. Defined.

Record ProjectManifest := {
  project_name : string;
  video_source : string;
  subtitle_source : string;
  status : string;
  clipped_video : option string;
  vocal_track : option string;
  bgm_track : option string;
  dubbed_track : option string;
  final_video : option string;
  stages_status : gmap string stage_val;
  clip_start : float;
  clip_end : float;
  segments : list Segment;
  error_msg : option string
}.

Definition initial_stages : gmap string stage_val :=
  list_to_map
    [("parse", StageStr "pending"); ("clip", StageStr "pending");
     ("extract", StageStr "pending"); ("process", StageStr "pending");
     ("generate", StageStr "pending"); ("merge", StageStr "pending")].

Definition create (name video subtitle : string) : ProjectManifest := {|
  project_name := name; video_source := video; subtitle_source := subtitle;
  status := "pending";
  clipped_video := None; vocal_track := None; bgm_track := None;
  dubbed_track := None; final_video := None;
  stages_status := initial_stages;
  clip_start := 0%Qc; clip_end := 0%Qc;
  segments := []; error_msg := None
|}.

Definition set_stage (k v : string) (m : ProjectManifest) : ProjectManifest := {|
  project_name := project_name m; video_source := video_source m;
  subtitle_source := subtitle_source m; status := status m;
  clipped_video := clipped_video m; vocal_track := vocal_track m;
  bgm_track := bgm_track m; dubbed_track := dubbed_track m;
  final_video := final_video m;
  stages_status := <[k := StageStr v]> (stages_status m);
  clip_start := clip_start m; clip_end := clip_end m;
  segments := segments m; error_msg := error_msg m
|}.

Definition set_segments (l : list Segment) (m : ProjectManifest)
  : ProjectManifest := {|
  project_name := project_name m; video_source := video_source m;
  subtitle_source := subtitle_source m; status := status m;
  clipped_video := clipped_video m; vocal_track := vocal_track m;
  bgm_track := bgm_track m; dubbed_track := dubbed_track m;
  final_video := final_video m;
  stages_status := stages_status m;
  clip_start := clip_start m; clip_end := clip_end m;
  segments := l; error_msg := error_msg m
|}.

Definition set_window (a b : float) (m : ProjectManifest) : ProjectManifest := {|
  project_name := project_name m; video_source := video_source m;
  subtitle_source := subtitle_source m; status := status m;
  clipped_video := clipped_video m; vocal_track := vocal_track m;
  bgm_track := bgm_track m; dubbed_track := dubbed_track m;
  final_video := final_video m;
  stages_status := stages_status m;
  clip_start := a; clip_end := b;
  segments := segments m; error_msg := error_msg m
|}.

(** [clipped_video], [vocal_track] and [bgm_track] assigned together. *)
Definition set_tracks (c v b : option string) (m : ProjectManifest)
  : ProjectManifest := {|
  project_name := project_name m; video_source := video_source m;
  subtitle_source := subtitle_source m; status := status m;
  clipped_video := c; vocal_track := v; bgm_track := b;
  dubbed_track := dubbed_track m; final_video := final_video m;
  stages_status := stages_status m;
  clip_start := clip_start m; clip_end := clip_end m;
  segments := segments m; error_msg := error_msg m
|}.

(** [status] assigned; and [status = "error"] with [error_msg]. *)
Definition set_status (w : string) (m : ProjectManifest) : ProjectManifest := {|
  project_name := project_name m; video_source := video_source m;
  subtitle_source := subtitle_source m; status := w;
  clipped_video := clipped_video m; vocal_track := vocal_track m;
  bgm_track := bgm_track m; dubbed_track := dubbed_track m;
  final_video := final_video m;
  stages_status := stages_status m;
  clip_start := clip_start m; clip_end := clip_end m;
  segments := segments m; error_msg := error_msg m
|}.

Definition set_failure (e : string) (m : ProjectManifest) : ProjectManifest := {|
  project_name := project_name m; video_source := video_source m;
  subtitle_source := subtitle_source m; status := "error";
  clipped_video := clipped_video m; vocal_track := vocal_track m;
  bgm_track := bgm_track m; dubbed_track := dubbed_track m;
  final_video := final_video m;
  stages_status := stages_status m;
  clip_start := clip_start m; clip_end := clip_end m;
  segments := segments m; error_msg := Some e
|}.

(** *** The manifest file *)

(** The values a manifest dictionary holds. *)
Inductive mval :=
| MNone
| MStr (s : string)
| MFloat (x : float)
| MStages (d : gmap string stage_val)
| MSegments (l : list (gmap string segment.pyval)).

Definition of_opt (o : option string) : mval :=
  match o with Some s => MStr s | None => MNone end.

Definition to_dict (self : ProjectManifest) : gmap string mval :=
  <["project_name" := MStr (project_name self)]>
  (<["video_source" := MStr (video_source self)]>
  (<["subtitle_source" := MStr (subtitle_source self)]>
  (<["status" := MStr (status self)]>
  (<["clipped_video" := of_opt (clipped_video self)]>
  (<["vocal_track" := of_opt (vocal_track self)]>
  (<["bgm_track" := of_opt (bgm_track self)]>
  (<["dubbed_track" := of_opt (dubbed_track self)]>
  (<["final_video" := of_opt (final_video self)]>
  (<["clip_start" := MFloat (clip_start self)]>
  (<["clip_end" := MFloat (clip_end self)]>
  (<["stages_status" := MStages (stages_status self)]>
  (<["segments" := MSegments (segment.to_dict <$> segments self)]>
  (<["error_msg" := of_opt (error_msg self)]> ∅))))))))))))).

(** The keywords the constructor accepts. *)
Definition init_names : list string :=
  ["project_name"; "video_source"; "subtitle_source"; "status";
   "clipped_video"; "vocal_track"; "bgm_track"; "dubbed_track";
   "final_video"; "stages_status"; "clip_start"; "clip_end"; "segments";
   "error_msg"].

Definition as_str (v : mval) : option string :=
  match v with MStr s => Some s | _ => None end.
Definition as_opt (v : mval) : option (option string) :=
  match v with MStr s => Some (Some s) | MNone => Some None | _ => None end.
Definition as_float (v : mval) : option float :=
  match v with MFloat x => Some x | _ => None end.

(** The compatibility loop of [load]: an entry of the older schema is
    replaced by its status word, "pending" when it has none. *)
Definition migrate (v : stage_val) : stage_val :=
  match v with
  | StageDict inner => StageStr (default "pending" inner)
  | StageStr s => StageStr s
  end.

(** [load] on the parsed file.  [None] is an exception: a segment that
    cannot be constructed, a keyword that is not a field, or one of the
    three fields without a default missing.  A value of another shape than
    the field's annotation has no counterpart in the typed record and is
    [None] too. *)
Definition load (data : gmap string mval) : option ProjectManifest :=
  segs ← match data !! "segments" with
         | Some (MSegments l) => mapM segment.from_dict l
         | Some _ => None
         | None => Some []
         end;
  stages ← match data !! "stages_status" with
           | Some (MStages d) => Some (migrate <$> d)
           | Some _ => None
           | None => Some initial_stages
           end;
  if bool_decide (dom data ⊆ list_to_set init_names) then
    name ← data !! "project_name" ≫= as_str;
    video ← data !! "video_source" ≫= as_str;
    subtitle ← data !! "subtitle_source" ≫= as_str;
    sta ← as_str (default (MStr "pending") (data !! "status"));
    clipped ← as_opt (default MNone (data !! "clipped_video"));
    vocal ← as_opt (default MNone (data !! "vocal_track"));
    bgm ← as_opt (default MNone (data !! "bgm_track"));
    dubbed ← as_opt (default MNone (data !! "dubbed_track"));
    final ← as_opt (default MNone (data !! "final_video"));
    cs ← as_float (default (MFloat 0%Qc) (data !! "clip_start"));
    ce ← as_float (default (MFloat 0%Qc) (data !! "clip_end"));
    err ← as_opt (default MNone (data !! "error_msg"));
    Some {| project_name := name; video_source := video;
            subtitle_source := subtitle; status := sta;
            clipped_video := clipped; vocal_track := vocal; bgm_track := bgm;
            dubbed_track := dubbed; final_video := final;
            stages_status := stages; clip_start := cs; clip_end := ce;
            segments := segs; error_msg := err |}
  else None.

(** The manifest with every stage entry in the current schema. *)
Definition migrated (m : ProjectManifest) : ProjectManifest := {|
  project_name := project_name m; video_source := video_source m;
  subtitle_source := subtitle_source m; status := status m;
  clipped_video := clipped_video m; vocal_track := vocal_track m;
  bgm_track := bgm_track m; dubbed_track := dubbed_track m;
  final_video := final_video m;
  stages_status := migrate <$> stages_status m;
  clip_start := clip_start m; clip_end := clip_end m;
  segments := segments m; error_msg := error_msg m
|}.

End manifest.

(** ** src/pipeline.py: the controller *)
Module pipeline.
Import config.
Abbreviation ProjectManifest := manifest.ProjectManifest.

(** The attributes of a [Pipeline] object that never change. *)
Record Env := {
  cfg : Config;
  project_name : string;
  video_path : string;
  subtitle_path : string;
  manifest_path : string;
  demo_mode : bool
}.

(** What a run mutates: the manifest in memory, the media files on disk,
    and the content of the manifest file at [manifest_path] ([None] while it
    has not been written). *)
Record State := {
  man : ProjectManifest;
  files : gset string;
  saved : option ProjectManifest
}.

Definition save_manifest (env : Env) (st : State) : State := {|
  man := man st;
  files := files st;
  saved := Some (man st)
|}.

Definition with_man (m : ProjectManifest) (st : State) : State :=
  {| man := m; files := files st; saved := saved st |}.

Definition with_files (f : gset string) (st : State) : State :=
  {| man := man st; files := f; saved := saved st |}.

(** The status word of a stage entry, whichever schema it is stored in. *)
Definition stage_word (v : option manifest.stage_val) : option string :=
  match v with
  | Some (manifest.StageStr s) => Some s
  | Some (manifest.StageDict inner) => Some (default "pending" inner)
  | None => None
  end.

Definition _is_stage_completed (st : State) (stage_name : string) : bool :=
  let status := stage_word (manifest.stages_status (man st) !! stage_name) in
  if negb (bool_decide (status = Some "completed")) then false
  else if String.eqb stage_name "clip" then
    fs.present (files st) (manifest.clipped_video (man st))
  else if String.eqb stage_name "extract" then
    fs.present (files st) (manifest.vocal_track (man st))
  else if String.eqb stage_name "merge" then
    fs.present (files st) (manifest.final_video (man st))
  else true.

(** The body of the loop over [manifest.segments] in
    [_invalidate_on_range_change]. *)
Definition reset_segment (seg : Segment) : Segment :=
  let pend := String.eqb (status seg) "pending" in
  {| id := id seg; start_time := start_time seg; end_time := end_time seg;
     duration := duration seg; source_text := source_text seg;
     target_text := target_text seg;
     ref_audio_path := None; output_audio_path := None;
     actual_duration := None;
     status := if pend then status seg else "pending";
     error_msg := if pend then error_msg seg else None |}.

Definition unlink_present (p : option string) (f : gset string) : gset string :=
  match p with
  | Some s => if fs.present f p then fs.unlink s f else f
  | None => f
  end.

Definition two : float := mkfloat 2 1.

Definition _invalidate_on_range_change
    (get_duration : string -> result float) (env : Env) (st : State) : State :=
  let m := man st in
  match manifest.clipped_video m with
  | None => st
  | Some clip =>
    if negb (fs.present (files st) (Some clip)) then st
    else
      let expected_duration := (manifest.clip_end m - manifest.clip_start m)%Qc in
      match get_duration clip with
      | Raise _ => st
      | Ok actual_duration =>
        if bool_decide (fabs (actual_duration - expected_duration) ≤ two)%Qc
        then st
        else
          let f1 := unlink_present (manifest.bgm_track m)
                      (unlink_present (manifest.vocal_track m)
                         (unlink_present (manifest.clipped_video m) (files st))) in
          let full_audio :=
            intermediate_dir (cfg env) +:+ "/" +:+ project_name env +:+ "_full.wav" in
          let f2 := if fs.exists_ f1 full_audio then fs.unlink full_audio f1 else f1 in
          let m1 := manifest.set_tracks None None None m in
          let m2 := manifest.set_stage "generate" "pending"
                      (manifest.set_stage "process" "pending"
                         (manifest.set_stage "extract" "pending"
                            (manifest.set_stage "clip" "pending" m1))) in
          let m3 := manifest.set_segments
                      (reset_segment <$> manifest.segments m2) m2 in
          let f3 := fs.unlink_glob (segments_dir (cfg env)) "ref_" ".wav"
                      (fs.unlink_glob (segments_dir (cfg env)) "seg_" ".wav" f2) in
          let f4 := fs.unlink_glob (output_segments_dir (cfg env)) "dub_" ".wav" f3 in
          save_manifest env {| man := m3; files := f4; saved := saved st |}
      end
  end.

Definition seg_key (s : Segment) : float * text := (start_time s, target_text s).

(** An entry of the dictionary comprehension: only a segment whose status is
    "success" is recorded. *)
Definition keep_success (d : gmap (float * text) Segment) (s : Segment)
  : gmap (float * text) Segment :=
  if String.eqb (status s) "success" then <[seg_key s := s]> d else d.

(** The dictionary of the previous run's successful segments, keyed by
    [(start_time, target_text)]; a later segment with the same key replaces
    an earlier one. *)
Definition old_segments_of (segs : list Segment)
  : gmap (float * text) Segment :=
  foldl keep_success ∅ segs.

(** The body of the recovery loop of [_stage_parse_subtitles]. *)
Definition recover (old_segments : gmap (float * text) Segment) (ns : Segment)
  : Segment :=
  match old_segments !! seg_key ns with
  | Some os =>
    {| id := id ns; start_time := start_time ns; end_time := end_time ns;
       duration := duration ns; source_text := source_text ns;
       target_text := target_text ns;
       ref_audio_path := ref_audio_path os;
       output_audio_path := output_audio_path os;
       actual_duration := actual_duration os;
       status := status os;
       error_msg := error_msg ns |}
  | None => ns
  end.

(** The artifacts a stage claims to have produced, as the data model lists
    them: the manifest's path of the stage, or the per-segment clips. *)
Definition stage_artifacts (m : ProjectManifest) (stage_name : string)
  : list (option string) :=
  if String.eqb stage_name "clip" then [manifest.clipped_video m]
  else if String.eqb stage_name "extract" then [manifest.vocal_track m]
  else if String.eqb stage_name "merge" then [manifest.final_video m]
  else if String.eqb stage_name "process" then
    filter is_Some (ref_audio_path <$> manifest.segments m)
  else if String.eqb stage_name "generate" then
    filter is_Some (output_audio_path <$> manifest.segments m)
  else [].

(** The external collaborators of a run. *)
Record Tools := {
  (** ffprobe: the duration of a media file, or its failure. *)
  get_duration : string → result float;
  (** the subtitle library's parser *)
  pysubs2_load : string → result (list subtitle_parser.SSAEvent);
  (** the cut of a reference clip to the given file; [Some] is a failure
      with the tool's error output *)
  ffmpeg_cut : string → option string;
  (** the synthesis engine on a segment and an output path; [Some] is the
      message of the exception it raises *)
  tts_generate : Segment → string → option string;
  (** tempo and loudness post-processing from a file to a file at a speed;
      [Some] is the message of the exception it raises *)
  post_process_audio : string → string → option float → option string;
  (** the table of decimal digits of the runtime *)
  digit_val : N → option N
}.

(** [manifest.segments[i] = seg] *)
Definition with_seg (i : nat) (seg : Segment) (st : State) : State :=
  with_man (manifest.set_segments (<[i := seg]> (manifest.segments (man st)))
              (man st)) st.

(** *** Stage 1 *)

Definition _stage_parse_subtitles (tools : Tools) (env : Env) (st : State)
  : result State :=
  let m := man st in
  let old_segments := old_segments_of (manifest.segments m) in
  match pysubs2_load tools (subtitle_path env) with
  | Raise e => Raise e
  | Ok subs =>
    let parsed : result (list Segment * float * float) :=
      if demo_mode env then
        let new_segments :=
          subtitle_parser.load (digit_val tools) subs
            (demo_start_time (cfg env)) (Some (demo_end_time (cfg env)))
            (Some (demo_max_segments (cfg env))) in
        let '(clip_start, clip_end) :=
          subtitle_parser.get_video_clip_times new_segments (mkfloat 2 1) in
        Ok (new_segments, clip_start, clip_end)
      else
        let new_segments :=
          subtitle_parser.load (digit_val tools) subs 0%Qc None None in
        match get_duration tools (video_path env) with
        | Raise e => Raise e
        | Ok full_duration => Ok (new_segments, 0%Qc, full_duration)
        end in
    match parsed with
    | Raise e => Raise e
    | Ok (new_segments, clip_start, clip_end) =>
      match new_segments with
      | [] => Raise "未找到有效的字幕段落"
      | _ =>
        let merged := recover old_segments <$> new_segments in
        let m1 := manifest.set_window clip_start clip_end
                    (manifest.set_segments merged m) in
        Ok (save_manifest env
              (with_man (manifest.set_stage "parse" "completed" m1) st))
      end
    end
  end.

(** *** Stage 4 *)

(** One turn of the loop of [_stage_process_segments], on the segment at
    index [i]. *)
Definition process_turn (tools : Tools) (env : Env) (st : State) (i : nat)
  : State :=
  match manifest.segments (man st) !! i with
  | None => st
  | Some seg =>
    let expected_ref :=
      segments_dir (cfg env) +:+ "/ref_" +:+ audio_processor.fmt04 (id seg)
        +:+ ".wav" in
    if fs.exists_ (files st) expected_ref then
      with_seg i (set_ref (Some expected_ref) seg) st
    else
      match audio_processor.process_segment (ffmpeg_cut tools)
              (manifest.vocal_track (man st)) seg (segments_dir (cfg env)) with
      | Ok ref_audio =>
        save_manifest env
          (with_files ({[ref_audio]} ∪ files st)
             (with_seg i (set_ref (Some ref_audio) seg) st))
      | Raise e => save_manifest env (with_seg i (set_error e seg) st)
      end
  end.

Definition _stage_process_segments (tools : Tools) (env : Env) (st : State)
  : State :=
  let st1 := foldl (process_turn tools env) st
               (seq 0 (length (manifest.segments (man st)))) in
  save_manifest env
    (with_man (manifest.set_stage "process" "completed" (man st1)) st1).

(** *** Stage 5 *)

(** [seg.status == "success" and seg.output_audio_path and
    Path(seg.output_audio_path).exists()] *)
Definition already_dubbed (f : gset string) (seg : Segment) : bool :=
  String.eqb (status seg) "success" && fs.present f (output_audio_path seg).

(** The first segment behind index [i] whose status is not "error". *)
Definition next_live (segments : list Segment) (i : nat) : option Segment :=
  snd <$> list_find (λ s, status s ≠ "error") (drop (S i) segments).

(** The speed chosen in the post-processing of the segment at index [i],
    whose synthesized clip lasts [actual] seconds: [None] where the clip is
    left at its speed.  Dividing by zero raises. *)
Definition matching_speed (c : Config) (segments : list Segment) (i : nat)
    (seg : Segment) (actual : float) : result (option float) :=
  let target_duration := duration seg in
  if bool_decide (target_duration = 0%Qc) then Raise "float division by zero"
  else
    let ratio := (actual / target_duration)%Qc in
    let threshold := speed_no_adjust_threshold c in
    if bool_decide (ratio < 1 - threshold)%Qc ||
       bool_decide (1 + threshold < ratio)%Qc
    then
      let speed := fmax (speed_min_atempo c) (fmin (speed_max_atempo c) ratio) in
      if bool_decide (speed = 0%Qc) then Raise "float division by zero"
      else
        let adjusted_duration := (actual / speed)%Qc in
        match next_live segments i with
        | Some next =>
          let max_duration :=
            (start_time next - start_time seg - mkfloat 5 100)%Qc in
          if bool_decide (max_duration < adjusted_duration)%Qc &&
             bool_decide (0 < max_duration)%Qc
          then Ok (Some (fmin (actual / max_duration)%Qc (mkfloat 2 1)))
          else Ok (Some speed)
        | None => Ok (Some speed)
        end
    else Ok None.

(** The inner [try] of the loop: whatever raises in it is dropped, and the
    assignments made before it stay. *)
Definition post_process (tools : Tools) (env : Env) (segments : list Segment)
    (i : nat) (output_path : string) (seg : Segment) (f : gset string)
  : Segment * gset string :=
  match get_duration tools output_path with
  | Raise _ => (seg, f)
  | Ok actual =>
    let seg := set_actual (Some actual) seg in
    match matching_speed (cfg env) segments i seg actual with
    | Raise _ => (seg, f)
    | Ok speed =>
      let final_path :=
        output_segments_dir (cfg env) +:+ "/dub_"
          +:+ audio_processor.fmt04 (id seg) +:+ "_final.wav" in
      match post_process_audio tools output_path final_path speed with
      | Some _ => (seg, f)
      | None =>
        let seg := set_output (Some final_path) seg in
        let f := {[final_path]} ∪ f in
        match get_duration tools final_path with
        | Raise _ => (seg, f)
        | Ok final_duration => (set_actual (Some final_duration) seg, f)
        end
      end
    end
  end.

(** One turn of the loop of [_stage_generate_dubbing]. *)
Definition generate_turn (tools : Tools) (env : Env) (st : State) (i : nat)
  : State :=
  match manifest.segments (man st) !! i with
  | None => st
  | Some seg =>
    if already_dubbed (files st) seg then st
    else if String.eqb (status seg) "error" || negb (truthy (ref_audio_path seg))
    then st
    else
      let seg := set_status "processing" seg in
      let st := save_manifest env (with_seg i seg st) in
      let output_path :=
        output_segments_dir (cfg env) +:+ "/dub_"
          +:+ audio_processor.fmt04 (id seg) +:+ ".wav" in
      match tts_generate tools seg output_path with
      | Some e => save_manifest env (with_seg i (set_error e seg) st)
      | None =>
        let f := {[output_path]} ∪ files st in
        let seg := set_status "success" (set_output (Some output_path) seg) in
        let '(seg, f) :=
          post_process tools env
            (<[i := seg]> (manifest.segments (man st))) i output_path seg f in
        save_manifest env (with_files f (with_seg i seg st))
      end
  end.

Definition _stage_generate_dubbing (tools : Tools) (env : Env) (st : State)
  : State :=
  let finish st :=
    save_manifest env
      (with_man (manifest.set_stage "generate" "completed" (man st)) st) in
  if forallb (already_dubbed (files st)) (manifest.segments (man st))
  then finish st
  else finish (foldl (generate_turn tools env) st
                 (seq 0 (length (manifest.segments (man st))))).

(** *** Stage 6 *)

Definition set_dubbed_track (p : option string) (m : ProjectManifest)
  : ProjectManifest := {|
  manifest.project_name := manifest.project_name m;
  manifest.video_source := manifest.video_source m;
  manifest.subtitle_source := manifest.subtitle_source m;
  manifest.status := manifest.status m;
  manifest.clipped_video := manifest.clipped_video m;
  manifest.vocal_track := manifest.vocal_track m;
  manifest.bgm_track := manifest.bgm_track m;
  manifest.dubbed_track := p;
  manifest.final_video := manifest.final_video m;
  manifest.stages_status := manifest.stages_status m;
  manifest.clip_start := manifest.clip_start m;
  manifest.clip_end := manifest.clip_end m;
  manifest.segments := manifest.segments m;
  manifest.error_msg := manifest.error_msg m
|}.

(** Stage 6.  The dub track is composed first; what follows it (the gap
    vocal, the background mix and the encoder, all of them external) is
    the continuation [export], which receives the state with
    [dubbed_track] recorded and the audio files. *)
Definition _stage_merge_output
    (export : State → gmap string audio_merger.track → result State)
    (env : Env) (st : State) (disk : gmap string audio_merger.track)
  : result State :=
  let m := man st in
  let clip_duration := (manifest.clip_end m - manifest.clip_start m)%Qc in
  let time_offset := manifest.clip_start m in
  let dub_track := temp_dir (cfg env) +:+ "/" +:+ project_name env +:+ "_dub.wav" in
  match audio_merger.create_dubbed_track (cfg env) disk (manifest.segments m)
          clip_duration dub_track time_offset with
  | Raise e => Raise e
  | Ok disk' => export (with_man (set_dubbed_track (Some dub_track) m) st) disk'
  end.

(** *** Stages 2 and 3 *)

(** The media tools of stages 2 and 3.  [Some] is the error output of a
    tool that fails; a tool that succeeds has written its output file. *)
Record Media := {
  (** the cut of the video from a start for a duration into a file *)
  clip_video : string → string → float → float → option string;
  (** the audio of a video written to a file *)
  extract_audio : string → string → option string;
  (** the separation of an audio file into a directory: the paths of the
      vocal and the background file it leaves there, or the message of the
      exception *)
  separate_audio : string → string → result (string * string)
}.

Definition _stage_clip_video (media : Media) (env : Env) (st : State)
  : result State :=
  let m := man st in
  let clipped_path :=
    intermediate_dir (cfg env) +:+ "/" +:+ project_name env +:+ "_clip.mp4" in
  let recorded :=
    manifest.set_tracks (Some clipped_path) (manifest.vocal_track m)
      (manifest.bgm_track m) m in
  if fs.exists_ (files st) clipped_path then
    Ok (save_manifest env (with_man recorded st))
  else
    let clip_start := manifest.clip_start m in
    let clip_duration := (manifest.clip_end m - clip_start)%Qc in
    match clip_video media (video_path env) clipped_path clip_start
            clip_duration with
    | Some stderr => Raise ("裁剪视频失败: " +:+ stderr)
    | None =>
      Ok (save_manifest env
            (with_files ({[clipped_path]} ∪ files st)
               (with_man (manifest.set_stage "clip" "completed" recorded) st)))
    end.

Definition _stage_extract_audio (media : Media) (env : Env) (st : State)
  : result State :=
  let m := man st in
  let dir := intermediate_dir (cfg env) in
  let full_audio_path := dir +:+ "/" +:+ project_name env +:+ "_full.wav" in
  let vocals_path := dir +:+ "/" +:+ project_name env +:+ "_full_vocals.wav" in
  let bgm_path := dir +:+ "/" +:+ project_name env +:+ "_full_bgm.wav" in
  if fs.exists_ (files st) vocals_path && fs.exists_ (files st) bgm_path then
    Ok (save_manifest env
          (with_man (manifest.set_tracks (manifest.clipped_video m)
                       (Some vocals_path) (Some bgm_path) m) st))
  else
    let extracted : result (gset string) :=
      if fs.exists_ (files st) full_audio_path then Ok (files st)
      else
        match manifest.clipped_video m with
        | None => Raise "expected str, bytes or os.PathLike object, not NoneType"
        | Some video =>
          match extract_audio media video full_audio_path with
          | Some stderr => Raise ("提取音频失败: " +:+ stderr)
          | None => Ok ({[full_audio_path]} ∪ files st)
          end
        end in
    match extracted with
    | Raise e => Raise e
    | Ok f =>
      match separate_audio media full_audio_path dir with
      | Ok (v_path, b_path) =>
        Ok (save_manifest env
              (with_files ({[v_path; b_path]} ∪ f)
                 (with_man
                    (manifest.set_stage "extract" "completed"
                       (manifest.set_tracks (manifest.clipped_video m)
                          (Some v_path) (Some b_path) m)) st)))
      | Raise _ =>
        Ok (save_manifest env
              (with_files f
                 (with_man (manifest.set_tracks (manifest.clipped_video m)
                              (Some full_audio_path) None m) st)))
      end
    end.

(** *** The run *)

(** How a part of [run] ends: with the state it leaves, or with an
    exception and the state at the moment it is raised. *)
Inductive outcome :=
| Done (st : State)
| Failed (e : string) (st : State).

Definition result_of (o : outcome) : result State :=
  match o with Done st => Ok st | Failed e _ => Raise e end.

(** A stage that raises before it has assigned anything. *)
Definition staged (st : State) (r : result State) : outcome :=
  match r with Ok st' => Done st' | Raise e => Failed e st end.

(** Stage 6 with the state it leaves when it raises: composing the dub
    track raises with the state untouched; what follows it, [export],
    raises with [dubbed_track] recorded and whatever it has written. *)
Definition merge_outcome
    (export : State → gmap string audio_merger.track → outcome)
    (env : Env) (st : State) (disk : gmap string audio_merger.track)
  : outcome :=
  let m := man st in
  let clip_duration := (manifest.clip_end m - manifest.clip_start m)%Qc in
  let time_offset := manifest.clip_start m in
  let dub_track := temp_dir (cfg env) +:+ "/" +:+ project_name env +:+ "_dub.wav" in
  match audio_merger.create_dubbed_track (cfg env) disk (manifest.segments m)
          clip_duration dub_track time_offset with
  | Raise e => Failed e st
  | Ok disk' => export (with_man (set_dubbed_track (Some dub_track) m) st) disk'
  end.

(** [run].  [audio] gives the samples of the audio files on disk when the
    dub track is composed.  The result is the path returned or the
    exception raised again, with the state left behind. *)
Definition run (tools : Tools) (media : Media)
    (export : State → gmap string audio_merger.track → outcome)
    (audio : State → gmap string audio_merger.track)
    (env : Env) (st : State) : result (option string) * State :=
  let st := save_manifest env
              (with_man (manifest.set_status "processing" (man st)) st) in
  let stages : outcome :=
    match staged st (_stage_parse_subtitles tools env st) with
    | Failed e st => Failed e st
    | Done st =>
      let st := _invalidate_on_range_change (get_duration tools) env st in
      match
        if _is_stage_completed st "clip" then Done st
        else staged st (_stage_clip_video media env st)
      with
      | Failed e st => Failed e st
      | Done st =>
        match
          if _is_stage_completed st "extract" then Done st
          else staged st (_stage_extract_audio media env st)
        with
        | Failed e st => Failed e st
        | Done st =>
          let st := _stage_process_segments tools env st in
          let st := _stage_generate_dubbing tools env st in
          merge_outcome export env st (audio st)
        end
      end
    end in
  match stages with
  | Done st =>
    let st := save_manifest env
                (with_man (manifest.set_status "completed" (man st)) st) in
    (Ok (manifest.final_video (man st)), st)
  | Failed e st =>
    (Raise e,
     save_manifest env (with_man (manifest.set_failure e (man st)) st))
  end.

(** *** The forced rerun *)

(** [_clean_intermediate_files], for a project name without pattern
    characters and files that can all be removed: the media files left on
    disk and the manifest file, which is gone. *)
Definition _clean_intermediate_files (env : Env) (f : gset string)
  : gset string * option ProjectManifest :=
  let name := project_name env +:+ "_" in
  let f := fs.unlink_glob (temp_dir (cfg env)) name ".mp4"
             (fs.unlink_glob (temp_dir (cfg env)) name ".wav" f) in
  let f := fs.unlink_glob (intermediate_dir (cfg env)) name "" f in
  let f := fs.unlink_glob (segments_dir (cfg env)) "ref_" ".wav"
             (fs.unlink_glob (segments_dir (cfg env)) "seg_" ".wav" f) in
  let f := fs.unlink_glob (output_segments_dir (cfg env)) "dub_" "_adj.wav"
             (fs.unlink_glob (output_segments_dir (cfg env)) "dub_" ".wav" f) in
  (f, None).

End pipeline.

(** A project half-way through: a demo clip of about ten seconds on disk,
    one synthesized segment, and a manifest asking for a sixty second
    window. *)
Module sample.
Import pipeline.

Definition env : Env := {|
  cfg := config.new_config "/dub";
  project_name := "ep01";
  video_path := "/dub/input/ep01.mkv";
  subtitle_path := "/dub/input/ep01.srt";
  manifest_path := "/dub/temp/ep01_manifest.json";
  demo_mode := true
|}.

Definition seg1 : Segment := {|
  id := 1; start_time := mkfloat 61 1; end_time := mkfloat 63 1;
  duration := mkfloat 2 1; source_text := []; target_text := [0x4f60; 0x597d]%N;
  ref_audio_path := Some "/dub/temp/segments/seg_0001.wav";
  output_audio_path := Some "/dub/temp/output/dub_0001_final.wav";
  actual_duration := Some (mkfloat 21 10);
  status := "success"; error_msg := None
|}.

Definition man0 : ProjectManifest := {|
  manifest.project_name := "ep01";
  manifest.video_source := "/dub/input/ep01.mkv";
  manifest.subtitle_source := "/dub/input/ep01.srt";
  manifest.status := "processing";
  manifest.clipped_video := Some "/dub/temp/intermediate/ep01_clip.mp4";
  manifest.vocal_track := Some "/dub/temp/intermediate/ep01_full_vocals.wav";
  manifest.bgm_track := Some "/dub/temp/intermediate/ep01_full_bgm.wav";
  manifest.dubbed_track := None;
  manifest.final_video := None;
  manifest.stages_status :=
    list_to_map
      [("parse", manifest.StageStr "completed");
       ("clip", manifest.StageStr "completed");
       ("extract", manifest.StageStr "completed");
       ("process", manifest.StageStr "completed");
       ("generate", manifest.StageStr "completed");
       ("merge", manifest.StageStr "pending")];
  manifest.clip_start := 0%Qc;
  manifest.clip_end := mkfloat 60 1;
  manifest.segments := [seg1];
  manifest.error_msg := None
|}.

Definition st0 : State := {|
  man := man0;
  files := {[ "/dub/temp/intermediate/ep01_clip.mp4";
              "/dub/temp/intermediate/ep01_full_vocals.wav";
              "/dub/temp/intermediate/ep01_full_bgm.wav";
              "/dub/temp/segments/seg_0001.wav" ]};
  saved := None
|}.



(** A file of three cues: a pair of lines shown together, and a line that
    ends the moment it starts. *)
Definition cues : list subtitle_parser.SSAEvent := [
  {| subtitle_parser.start := 61000; subtitle_parser.end_ := 63000;
     subtitle_parser.plaintext := [0x4f60; 0x597d]%N |};
  {| subtitle_parser.start := 61000; subtitle_parser.end_ := 63000;
     subtitle_parser.plaintext := [0x68; 0x69]%N |};
  {| subtitle_parser.start := 65000; subtitle_parser.end_ := 65000;
     subtitle_parser.plaintext := [0x518d; 0x89c1]%N |}
].

Definition cfg0 : config.Config := config.new_config "/dub".




(** The segment of a previous run that was cut but not yet synthesized,
    and the same line extracted again. *)
Definition seg_cut : Segment :=
  set_status "pending" (set_output None (set_actual None seg1)).

Definition seg_again : Segment :=
  subtitle_parser.new_segment 1
    {| subtitle_parser.start := 61000; subtitle_parser.end_ := 63000;
       subtitle_parser.plaintext := [0x4f60; 0x597d]%N |}
    [] [0x4f60; 0x597d]%N.

(** A run in which the only line failed. *)
Definition st_failed : State := {|
  man := manifest.set_segments
           [{| id := 1; start_time := mkfloat 61 1; end_time := mkfloat 63 1;
               duration := mkfloat 2 1; source_text := [];
               target_text := [0x4f60; 0x597d]%N;
               ref_audio_path := Some "/dub/temp/segments/seg_0001.wav";
               output_audio_path := None; actual_duration := None;
               status := "error"; error_msg := Some "synthesis failed" |}]
           man0;
  files := ∅;
  saved := None
|}.

(** The digits of a runtime that knew the ASCII ones only. *)
Definition ascii_digit (c : N) : option N :=
  if ((0x30 <=? c) && (c <=? 0x39))%N then Some (c - 0x30)%N else None.

(** Two lines cut and waiting for synthesis: a slot of two seconds from
    second 10, and the line that starts at 12.3. *)
Definition line_a : Segment := {|
  id := 1; start_time := mkfloat 10 1; end_time := mkfloat 12 1;
  duration := mkfloat 2 1; source_text := []; target_text := [0x4f60; 0x597d]%N;
  ref_audio_path := Some "/dub/temp/segments/seg_0001.wav";
  output_audio_path := None; actual_duration := None;
  status := "pending"; error_msg := None
|}.

Definition line_b : Segment := {|
  id := 2; start_time := mkfloat 123 10; end_time := mkfloat 14 1;
  duration := mkfloat 17 10; source_text := []; target_text := [0x518d; 0x89c1]%N;
  ref_audio_path := Some "/dub/temp/segments/seg_0002.wav";
  output_audio_path := None; actual_duration := None;
  status := "pending"; error_msg := None
|}.

Definition two_lines : list Segment := [line_a; line_b].

Definition st_two : State := {|
  man := manifest.set_segments two_lines man0;
  files := {[ "/dub/temp/intermediate/ep01_full_vocals.wav";
              "/dub/temp/segments/seg_0001.wav";
              "/dub/temp/segments/seg_0002.wav" ]};
  saved := None
|}.

(** Tools of a run in which the cut and the synthesis of the first line
    fail and every other call succeeds; every clip lasts 1.7 seconds. *)
Definition failing_tools : Tools := {|
  get_duration := λ _, Ok (mkfloat 17 10);
  pysubs2_load := λ _, Ok cues;
  ffmpeg_cut := λ output,
    if String.eqb output "/dub/temp/segments/seg_0001.wav"
    then Some "Invalid data found when processing input" else None;
  tts_generate := λ seg _,
    if (id seg =? 1)%Z then Some "CUDA out of memory" else None;
  post_process_audio := λ _ _ _, None;
  digit_val := ascii_digit
|}.

End sample.

(** * Properties *)

Local Open Scope list_scope.

Section segment_facts.

Lemma as_opt_str_of (o : option string) : as_opt_str (of_opt_str o) = Some o.
Proof. by destruct o. Qed.

Lemma as_opt_float_of (o : option float) :
  as_opt_float (of_opt_float o) = Some o.
Proof. by destruct o. Qed.

Lemma to_dict_dom (s : Segment) :
  dom (to_dict s) ⊆ (list_to_set field_names : gset string).
Proof. unfold to_dict. rewrite !dom_insert_L, dom_empty_L. set_solver. Qed.

End segment_facts.

(** C10: serialising a segment to its manifest dictionary and reading it
  back is the identity, on all eleven fields, [None] values included. *)
Theorem from_dict_to_dict (s : Segment) : from_dict (to_dict s) = Some s.
Proof.
unfold from_dict.
rewrite bool_decide_eq_true_2 by apply to_dict_dom.
unfold to_dict. simplify_map_eq. simpl.
rewrite !as_opt_str_of, as_opt_float_of. simpl.
by destruct s.
Qed.

(** ** The controller: stage completion and invalidation *)
Section controller_facts.
Import pipeline.

Lemma present_spec (f : gset string) (p : option string) :
  fs.present f p = true ↔ ∃ s, p = Some s ∧ s ≠ "" ∧ s ∈ f.
Proof.
  unfold fs.present, fs.exists_, truthy. destruct p as [s|]; simpl.
  - rewrite andb_true_iff, negb_true_iff, bool_decide_eq_true.
    rewrite <- not_true_iff_false, String.eqb_eq. naive_solver.
  - naive_solver.
Qed.





End controller_facts.




(** C2, as the controller implements it: for clip, extract and merge the
    check is true exactly when the stage's flag is "completed" and the
    manifest's path for the stage is set and exists on disk; for parse,
    process and generate it is true exactly when the flag is "completed"
    (their per-segment clips are re-verified inside the stage loops). *)
Theorem is_stage_completed_spec (st : pipeline.State) :
  let m := pipeline.man st in
  let flag k := pipeline.stage_word (manifest.stages_status m !! k) = Some "completed" in
  let on_disk p := ∃ s, p = Some s ∧ s ≠ "" ∧ s ∈ pipeline.files st in
  (pipeline._is_stage_completed st "clip" = true ↔
     flag "clip" ∧ on_disk (manifest.clipped_video m)) ∧
  (pipeline._is_stage_completed st "extract" = true ↔
     flag "extract" ∧ on_disk (manifest.vocal_track m)) ∧
  (pipeline._is_stage_completed st "merge" = true ↔
     flag "merge" ∧ on_disk (manifest.final_video m)) ∧
  (∀ k, k ∈ ["parse"; "process"; "generate"] →
     pipeline._is_stage_completed st k = true ↔ flag k).
Proof.
  intros m flag on_disk. unfold pipeline._is_stage_completed. fold m.
  assert (Hb : ∀ k (b : bool),
    (if negb (bool_decide (pipeline.stage_word (manifest.stages_status m !! k) = Some "completed"))
     then false else b) = true ↔ flag k ∧ b = true).
  { intros k b. unfold flag. destruct (bool_decide _) eqn:E; simpl.
    - apply bool_decide_eq_true in E. naive_solver.
    - apply bool_decide_eq_false in E. naive_solver. }
  split; [|split; [|split]].
  - cbn [String.eqb Ascii.eqb]. simpl. rewrite Hb, present_spec. done.
  - simpl. rewrite Hb, present_spec. done.
  - simpl. rewrite Hb, present_spec. done.
  - intros k Hk.
    repeat (apply elem_of_cons in Hk as [->|Hk]); [..|by apply elem_of_nil in Hk];
    simpl; rewrite Hb; naive_solver.
Qed.

(** C2 as stated fails for generate: the flag is "completed", the only
    segment names an output clip, no such file exists, and the check is
    true all the same. *)
Lemma is_stage_completed_generate_unverified :
  pipeline._is_stage_completed sample.st0 "generate" = true ∧
  pipeline.stage_artifacts (pipeline.man sample.st0) "generate"
    = [Some "/dub/temp/output/dub_0001_final.wav"] ∧
  fs.exists_ (pipeline.files sample.st0) "/dub/temp/output/dub_0001_final.wav"
    = false.
Proof. repeat split; vm_compute; reflexivity. Qed.

(** ** Numerals: the place-value reading *)
Section numeral_facts.
Import subtitle_parser numeral.

Lemma all_from_spec (count : nat) (k : Z) (P : Z → bool) (n : Z) :
  all_from count k P = true → k ≤ n < k + Z.of_nat count → P n = true.
Proof.
  revert k. induction count as [|c IH]; intros k H Hn; [lia|].
  simpl in H. apply andb_true_iff in H as [Hk H].
  destruct (Z.eq_dec n k) as [->|Hne]; [done|].
  apply (IH (k + 1)); [done|lia].
Qed.

Lemma all_below_spec (bound : Z) (P : Z → bool) (n : Z) :
  all_below bound P = true → 0 ≤ n < bound → P n = true.
Proof.
  unfold all_below. intros H Hn. apply (all_from_spec _ _ _ _ H). lia.
Qed.

Lemma group_facts (filled : bool) (n : Z) :
  0 ≤ n < 10000 → group_checked filled n = true.
Proof.
  apply all_below_spec. destruct filled; vm_compute; reflexivity.
Qed.

Lemma block_app (unit : Z) (mark : N) (z : Z) (n : Z) (r : text) :
  block unit mark z (n, r) =
  (fst (block unit mark z (n, [])), r ++ snd (block unit mark z (n, []))).
Proof.
  unfold block. repeat case_match; simpl; by rewrite ?app_nil_r, <- ?app_assoc.
Qed.

Lemma below_wan_from (n : Z) (r : text) :
  below_wan (n, r) = r ++ from_qian (nonempty r) n.
Proof.
  unfold below_wan, from_qian.
  rewrite (block_app 1000). destruct (block 1000 QIAN 100 (n, [])) as [n1 t1].
  cbn [fst snd]. rewrite (block_app 100).
  destruct (block 100 BAI 10 (n1, [])) as [n2 t2]. cbn [fst snd].
  unfold block_shi, block_ge.
  assert (Hne : nonempty ((r ++ t1) ++ t2) = nonempty r || nonempty (t1 ++ t2)).
  { destruct r, t1, t2; reflexivity. }
  rewrite Hne.
  repeat case_match; simplify_eq; rewrite <- ?app_assoc, ?app_nil_r;
    try done; congruence.
Qed.

Lemma log2_quotient (n q : Z) : 0 < q → 2 * q ≤ n → Z.log2 q < Z.log2 n.
Proof.
  intros Hq Hn. pose proof (Z.log2_double q Hq) as Hd.
  pose proof (Z.log2_le_mono (2 * q) n Hn). lia.
Qed.

Lemma block_rec_ext (rec1 rec2 : Z → text) unit mark z (st : Z * text) :
  (unit ≤ st.1 → rec1 (st.1 / unit) = rec2 (st.1 / unit)) →
  block_rec rec1 unit mark z st = block_rec rec2 unit mark z st.
Proof.
  destruct st as [n r]. unfold block_rec. simpl. intros H.
  destruct (Z.leb_spec unit n); [|done]. by rewrite H.
Qed.

Lemma block_rec_fst rec unit mark z n r :
  (block_rec rec unit mark z (n, r)).1 = if unit <=? n then n mod unit else n.
Proof. unfold block_rec. by destruct (unit <=? n). Qed.

Lemma block_rec_rest rec n r n1 r1 :
  0 ≤ n → block_rec rec 100000000 YI 10000000 (n, r) = (n1, r1) →
  10000 ≤ n1 → 0 < n1 / 10000 ∧ 10000 * (n1 / 10000) ≤ n.
Proof.
  intros Hn E. apply (f_equal fst) in E. rewrite block_rec_fst in E.
  simpl in E. subst n1. intros Hge.
  split; [apply Z.div_str_pos; lia|].
  destruct (Z.leb_spec 100000000 n).
  - pose proof (Z.mod_le n 100000000 Hn ltac:(lia)).
    pose proof (Z.mul_div_le (n mod 100000000) 10000 ltac:(lia)). lia.
  - pose proof (Z.mul_div_le n 10000 ltac:(lia)). lia.
Qed.

Lemma int_to_cn_body_ext (rec1 rec2 : Z → text) (n : Z) :
  0 ≤ n → (∀ q, 0 < q → 10000 * q ≤ n → rec1 q = rec2 q) →
  int_to_cn_body rec1 n = int_to_cn_body rec2 n.
Proof.
  intros Hn Hrec. unfold int_to_cn_body. destruct (n =? 0); [done|]. f_equal.
  rewrite (block_rec_ext rec1 rec2 100000000).
  2:{ simpl. intros Hge. apply Hrec.
      - apply Z.div_str_pos. lia.
      - pose proof (Z.mul_div_le n 100000000 ltac:(lia)). lia. }
  destruct (block_rec rec2 100000000 YI 10000000 (n, [])) as [n1 r1] eqn:E.
  apply block_rec_ext. cbn [fst]. intros Hge.
  apply Hrec; by eapply block_rec_rest.
Qed.

Lemma int_to_cn_fuel_enough (f f' : nat) (n : Z) :
  0 ≤ n → (Z.to_nat (Z.log2 n) < f)%nat → (Z.to_nat (Z.log2 n) < f')%nat →
  int_to_cn_fuel f n = int_to_cn_fuel f' n.
Proof.
  revert f' n. induction f as [|f IH]; intros f' n Hn Hf Hf'; [lia|].
  destruct f' as [|f']; [lia|]. simpl.
  apply int_to_cn_body_ext; [done|]. intros q Hq Hle.
  pose proof (log2_quotient n q Hq ltac:(lia)).
  pose proof (Z.log2_nonneg q). apply IH; lia.
Qed.

(** The recursion equation of [_int_to_cn], free of fuel. *)
Lemma int_to_cn_unfold (n : Z) :
  0 ≤ n → _int_to_cn n = int_to_cn_body _int_to_cn n.
Proof.
  intros Hn. unfold _int_to_cn at 1. simpl.
  apply int_to_cn_body_ext; [done|]. intros q Hq Hle.
  pose proof (log2_quotient n q Hq ltac:(lia)).
  pose proof (Z.log2_nonneg q). apply int_to_cn_fuel_enough; lia.
Qed.

(** The three shapes of a reading. *)
Lemma int_to_cn_from_wan (n : Z) :
  0 < n < 100000000 → _int_to_cn n = from_wan false n.
Proof.
  intros Hn. rewrite int_to_cn_unfold by lia. unfold int_to_cn_body, from_wan.
  destruct (Z.eqb_spec n 0); [lia|].
  unfold block_rec at 2. destruct (Z.leb_spec 100000000 n); [lia|].
  unfold block_rec. destruct (Z.leb_spec 10000 n).
  - destruct (_ && _); rewrite below_wan_from; simpl.
    + rewrite <- !app_assoc. simpl. f_equal.
      destruct (_int_to_cn _); simpl; by rewrite ?app_nil_r.
    + rewrite <- !app_assoc. simpl. f_equal.
      destruct (_int_to_cn _); simpl; by rewrite ?app_nil_r.
  - by rewrite below_wan_from.
Qed.

Lemma int_to_cn_from_yi (n : Z) :
  100000000 ≤ n →
  _int_to_cn n =
  _int_to_cn (n / 100000000) ++ YI ::
  (if (0 <? n mod 100000000) && (n mod 100000000 <? 10000000)
   then [LING] else []) ++
  from_wan true (n mod 100000000).
Proof.
  intros Hn. rewrite int_to_cn_unfold by lia. unfold int_to_cn_body, from_wan.
  destruct (Z.eqb_spec n 0); [lia|].
  unfold block_rec at 2. destruct (Z.leb_spec 100000000 n); [|lia].
  set (r := n mod 100000000). set (hi := _int_to_cn (n / 100000000)).
  assert (Hfill : ∀ z : text, nonempty ((hi ++ [YI]) ++ z) = true).
  { intros z. by destruct hi. }
  unfold block_rec. destruct (Z.leb_spec 10000 r).
  - rewrite below_wan_from.
    assert (Hfill' : ∀ (a z : text) x, nonempty ((a ++ x :: z)) = true).
    { intros a z x. by destruct a. }
    destruct (_ && _), (_ && _); simpl app;
      rewrite <- ?app_assoc; simpl app; rewrite <- ?app_assoc; simpl app;
      rewrite ?Hfill'; reflexivity.
  - rewrite below_wan_from.
    destruct (_ && _); rewrite <- ?app_assoc; simpl app.
    + specialize (Hfill [LING]). rewrite <- app_assoc in Hfill. simpl in Hfill.
      by rewrite Hfill.
    + specialize (Hfill []). rewrite app_nil_r in Hfill. by rewrite Hfill.
Qed.

(** *** The value read back *)





Lemma from_qian_chars (filled : bool) (n : Z) :
  0 ≤ n < 10000 →
  forallb is_chinese_char (from_qian filled n) = true ∧
  zeros_from false (from_qian filled n) = true ∧
  (n ≠ 0 → zeros_from true (from_qian filled n) = true).
Proof.
  intros Hn. pose proof (group_facts filled n Hn) as H.
  unfold group_checked in H.
  repeat (apply andb_true_iff in H as [H ?]).
  repeat split; try done. intros Hne.
  match goal with H : _ || _ = true |- _ => apply orb_true_iff in H as [H'|H'] end;
    [apply Z.eqb_eq in H'; lia | done].
Qed.

Lemma int_to_cn_group (n : Z) :
  0 < n < 10000 → _int_to_cn n = from_qian false n.
Proof.
  intros Hn. rewrite int_to_cn_from_wan by lia. unfold from_wan.
  destruct (Z.leb_spec 10000 n); [lia|done].
Qed.

Lemma wan_quotient (r : Z) :
  10000 ≤ r < 100000000 →
  0 < r / 10000 < 10000 ∧ 0 ≤ r mod 10000 < 10000 ∧
  r = r / 10000 * 10000 + r mod 10000.
Proof.
  intros Hr. pose proof (Z.div_mod r 10000 ltac:(lia)).
  pose proof (Z.mod_pos_bound r 10000 ltac:(lia)).
  assert (0 < r / 10000) by (apply Z.div_str_pos; lia).
  assert (r / 10000 < 10000) by (apply Z.div_lt_upper_bound; lia).
  lia.
Qed.

Lemma cn_step_ling (T : Z) : cn_step (T, 0, 0) LING = (T, 0, 0).
Proof. reflexivity. Qed.



Lemma yi_quotient (n : Z) :
  100000000 ≤ n →
  0 < n / 100000000 < n ∧ 0 ≤ n mod 100000000 < 100000000 ∧
  n = n / 100000000 * 100000000 + n mod 100000000.
Proof.
  intros Hn. pose proof (Z.div_mod n 100000000 ltac:(lia)).
  pose proof (Z.mod_pos_bound n 100000000 ltac:(lia)).
  assert (0 < n / 100000000) by (apply Z.div_str_pos; lia).
  assert (n / 100000000 < n) by (apply Z.div_lt; lia).
  lia.
Qed.


(** *** Where 零 stands *)

Lemma zeros_from_app (p : bool) (a b : text) :
  zeros_from p a = true → zeros_from p (a ++ b) = zeros_from false b.
Proof.
  revert p. induction a as [|c a IH]; intros p; simpl.
  - by destruct p.
  - destruct (c =? LING)%N; [|apply IH].
    intros [Hp Ha]%andb_true_iff. rewrite Hp. simpl. by apply IH.
Qed.

Lemma zeros_from_weaken (a : text) :
  zeros_from true a = true → zeros_from false a = true.
Proof. destruct a as [|c a]; simpl; [done|]. by destruct (c =? LING)%N. Qed.

Lemma zeros_after_mark (low : Z) (w : text) :
  zeros_from false w = true → (low ≠ 0 → zeros_from true w = true) →
  zeros_from false
    ((if (0 <? low) && (low <? 1000) then [LING] else []) ++ w) = true.
Proof.
  intros H0 H1. destruct (_ && _) eqn:E; simpl; [|done].
  apply H1. apply andb_true_iff in E as [E _]. apply Z.ltb_lt in E. lia.
Qed.

Lemma from_wan_zeros (filled : bool) (r : Z) :
  0 ≤ r < 100000000 →
  zeros_from false (from_wan filled r) = true ∧
  (r ≠ 0 → zeros_from true (from_wan filled r) = true).
Proof.
  intros Hr. unfold from_wan. destruct (Z.leb_spec 10000 r) as [Hge|Hlt].
  - destruct (wan_quotient r ltac:(lia)) as (Hq & Hl & Heq).
    rewrite int_to_cn_group by lia.
    destruct (from_qian_chars false (r / 10000) ltac:(lia)) as (_ & Hh0 & Hh1).
    destruct (from_qian_chars true (r mod 10000) ltac:(lia)) as (_ & Hl0 & Hl1).
    rewrite !zeros_from_app by (auto; apply Hh1; lia).
    change (zeros_from false (WAN :: ?x)) with (zeros_from false x).
    split; [|intros _]; by apply zeros_after_mark.
  - destruct (from_qian_chars filled r ltac:(lia)) as (_ & H0 & H1). done.
Qed.

Lemma int_to_cn_zeros (n : Z) : 0 < n → zeros_elided (_int_to_cn n) = true.
Proof.
  intros Hn. assert (H0 : 0 ≤ n) by lia. revert n H0 Hn.
  apply (Zlt_0_ind (λ n, 0 < n → zeros_elided (_int_to_cn n) = true)).
  intros n IH _ Hn. unfold zeros_elided in *.
  destruct (Z.lt_ge_cases n 100000000) as [Hlt|Hge].
  - rewrite int_to_cn_from_wan by lia. apply from_wan_zeros; lia.
  - destruct (yi_quotient n Hge) as (Hq & Hr & Heq).
    rewrite int_to_cn_from_yi by done.
    rewrite zeros_from_app by (apply IH; lia).
    change (zeros_from false (YI :: ?x)) with (zeros_from false x).
    destruct (from_wan_zeros true (n mod 100000000) Hr) as [W0 W1].
    destruct (_ && _) eqn:E; simpl; [|done].
    apply W1. apply andb_true_iff in E as [E _]. apply Z.ltb_lt in E. lia.
Qed.

Lemma int_to_cn_nonempty (n : Z) : 0 ≤ n → _int_to_cn n ≠ [].
Proof.
  intros Hn. destruct (Z.eq_dec n 0) as [->|Hne]; [done|].
  pose proof (int_to_cn_zeros n ltac:(lia)) as H.
  intros E. by rewrite E in H.
Qed.

(** *** The characters of a reading *)

Lemma from_wan_chars (filled : bool) (r : Z) :
  0 ≤ r < 100000000 → forallb is_chinese_char (from_wan filled r) = true.
Proof.
  intros Hr. unfold from_wan. destruct (Z.leb_spec 10000 r) as [Hge|Hlt].
  - destruct (wan_quotient r ltac:(lia)) as (Hq & Hl & Heq).
    rewrite int_to_cn_group by lia.
    destruct (from_qian_chars false (r / 10000) ltac:(lia)) as (Hh & _).
    destruct (from_qian_chars true (r mod 10000) ltac:(lia)) as (Hlo & _).
    rewrite forallb_app, Hh. cbn [forallb]. rewrite forallb_app, Hlo.
    by destruct ((0 <? _) && _).
  - by destruct (from_qian_chars filled r ltac:(lia)) as (H0 & _).
Qed.

Lemma int_to_cn_chars (n : Z) :
  0 ≤ n → forallb is_chinese_char (_int_to_cn n) = true.
Proof.
  revert n. apply (Zlt_0_ind (λ n, forallb is_chinese_char (_int_to_cn n) = true)).
  intros n IH Hn.
  destruct (Z.eq_dec n 0) as [->|Hne]; [reflexivity|].
  destruct (Z.lt_ge_cases n 100000000) as [Hlt|Hge].
  - rewrite int_to_cn_from_wan by lia. apply from_wan_chars; lia.
  - destruct (yi_quotient n Hge) as (Hq & Hr & Heq).
    rewrite int_to_cn_from_yi by done.
    rewrite forallb_app, IH by lia. cbn [forallb].
    rewrite forallb_app, from_wan_chars by lia.
    by destruct ((0 <? _) && _).
Qed.
(** *** Where a place is skipped *)











End numeral_facts.

(** ** Numerals: rewriting the text *)
Section rewriting_facts.
Import subtitle_parser numeral.

Variable digit_val : N → option N.

Abbreviation is_digit := (is_digit digit_val).
Abbreviation digits := (Forall (λ c, is_digit c = true)).
Abbreviation plain := (Forall (λ c, is_digit c = false)).


Lemma re_sub_fuel_none (fuel : nat) (m : text → option (text * text)) (t : text) :
  (∀ s, s ≠ [] → s `suffix_of` t → m s = None) → re_sub_fuel fuel m t = t.
Proof.
  revert t. induction fuel as [|f IH]; intros t H; [done|].
  destruct t as [|c r]; [done|]. simpl.
  rewrite H by done. f_equal. apply IH. intros s Hs Hsuf.
  apply H; [done|]. by apply suffix_cons_r.
Qed.

Lemma re_sub_none (m : text → option (text * text)) (t : text) :
  (∀ s, s ≠ [] → s `suffix_of` t → m s = None) → re_sub m t = t.
Proof. apply re_sub_fuel_none. Qed.


Lemma re_sub_nonempty (m : text → option (text * text)) (t : text) :
  (∀ s repl rest, m s = Some (repl, rest) → repl ≠ []) →
  t ≠ [] → re_sub m t ≠ [].
Proof.
  intros Hm Ht. unfold re_sub. destruct t as [|c r]; [done|]. simpl.
  destruct (m (c :: r)) as [[repl rest]|] eqn:E; [|done].
  apply Hm in E. by destruct repl.
Qed.


Lemma span_plain (c : N) (r : text) :
  is_digit c = false → span is_digit (c :: r) = ([], c :: r).
Proof. intros H. simpl. by rewrite H. Qed.


(** A text without digits is left alone by the four rewritings. *)
Lemma number_token_plain (c : N) (r : text) :
  is_digit c = false → number_token digit_val (c :: r) = None.
Proof. intros H. unfold number_token. by rewrite span_plain. Qed.

Lemma plain_rewritten (m : text → option (text * text)) (t : text) :
  (∀ c r, is_digit c = false → m (c :: r) = None) → plain t → re_sub m t = t.
Proof.
  intros Hm Ht. apply re_sub_none. intros s Hs [k ->].
  apply Forall_app in Ht as [_ Ht]. destruct Ht as [|c r Hc _]; [done|].
  by apply Hm.
Qed.

Lemma percent_plain c r : is_digit c = false → percent_match digit_val (c :: r) = None.
Proof. intros H. unfold percent_match. by rewrite number_token_plain. Qed.

Lemma year_plain c r : is_digit c = false → year_match digit_val (c :: r) = None.
Proof.
  intros H. unfold year_match. destruct r as [|? [|? [|? [|? ?]]]]; try done.
  by rewrite H.
Qed.

Lemma long_plain c r : is_digit c = false → long_match digit_val (c :: r) = None.
Proof. intros H. unfold long_match. by rewrite span_plain. Qed.

Lemma number_plain c r : is_digit c = false → number_match digit_val (c :: r) = None.
Proof. intros H. unfold number_match. by rewrite number_token_plain. Qed.

Lemma convert_plain (t : text) : plain t → _convert_numbers digit_val t = t.
Proof.
  intros Ht. unfold _convert_numbers.
  rewrite (plain_rewritten (percent_match digit_val)) by (done || apply percent_plain).
  rewrite (plain_rewritten (year_match digit_val)) by (done || apply year_plain).
  rewrite (plain_rewritten (long_match digit_val)) by (done || apply long_plain).
  by rewrite (plain_rewritten (number_match digit_val)) by (done || apply number_plain).
Qed.


(** Digits are not ideographs, dots or percent signs. *)
Hypothesis digits_apart : ∀ c,
  is_digit c = true →
  is_chinese_char c = false ∧ c ≠ DOT ∧ c ≠ PERCENT.

Lemma chinese_plain (t : text) : forallb is_chinese_char t = true → plain t.
Proof.
  intros H. apply List.Forall_forall. intros c Hc.
  rewrite List.forallb_forall in H. specialize (H c).
  destruct (is_digit c) eqn:E; [|done].
  apply digits_apart in E as [E _].
  by rewrite (H Hc) in E.
Qed.

Lemma d_at_chinese (k : Z) : is_chinese_char (d_at k) = true.
Proof.
  assert (H : forallb is_chinese_char (LING :: d) = true) by (vm_compute; reflexivity).
  rewrite forallb_forall in H. apply H. unfold d_at.
  destruct (nth_in_or_default (Z.to_nat k) d LING) as [Hin| ->];
    [by right | by left].
Qed.

Lemma digits_to_cn_chinese (s : text) :
  forallb is_chinese_char (_digits_to_cn digit_val s) = true.
Proof.
  induction s as [|c s IH]; [done|].
  change (forallb is_chinese_char
            (d_at (int_of_char digit_val c) :: _digits_to_cn digit_val s) = true).
  cbn [forallb]. by rewrite d_at_chinese.
Qed.



Lemma int_of_nonneg (s : text) : 0 ≤ int_of digit_val s.
Proof.
  unfold int_of.
  assert (H : ∀ acc, 0 ≤ acc →
    0 ≤ foldl (λ acc c, 10 * acc + int_of_char digit_val c) acc s).
  { induction s as [|c s IH]; intros acc Hacc; [done|]. simpl. apply IH.
    unfold int_of_char. lia. }
  by apply H.
Qed.

Lemma int_to_cn_plain (n : Z) : 0 ≤ n → plain (_int_to_cn n).
Proof. intros Hn. by apply chinese_plain, int_to_cn_chars. Qed.

Lemma digits_to_cn_plain (s : text) : plain (_digits_to_cn digit_val s).
Proof. apply chinese_plain, digits_to_cn_chinese. Qed.












End rewriting_facts.

Lemma ascii_digits_apart (c : N) :
  subtitle_parser.is_digit sample.ascii_digit c = true →
  subtitle_parser.is_chinese_char c = false ∧
  c ≠ subtitle_parser.DOT ∧ c ≠ subtitle_parser.PERCENT.
Proof.
  unfold subtitle_parser.is_digit, sample.ascii_digit,
    subtitle_parser.is_chinese_char, subtitle_parser.DOT,
    subtitle_parser.PERCENT.
  destruct (_ && _)%N eqn:E; [|done]. intros _.
  apply andb_true_iff in E as [E1 E2]. apply N.leb_le in E1, E2.
  repeat split; try lia.
  apply andb_false_iff. left. apply N.leb_gt. lia.
Qed.



(** ** Loading a subtitle file *)
Section load_facts.
Import subtitle_parser.

Variable digit_val : N → option N.

Lemma num_to_cn_nonempty (s : text) : _num_to_cn digit_val s ≠ [].
Proof.
  unfold _num_to_cn. destruct (split_dot s) as [[a b]|].
  - by destruct (_int_to_cn _).
  - apply int_to_cn_nonempty, int_of_nonneg.
Qed.

Lemma convert_numbers_nonempty (t : text) :
  t ≠ [] → _convert_numbers digit_val t ≠ [].
Proof.
  intros Ht. unfold _convert_numbers.
  apply re_sub_nonempty; [|apply re_sub_nonempty; [|apply re_sub_nonempty;
    [|apply re_sub_nonempty; [|done]]]].
  - intros s repl rest. unfold number_match.
    destruct (number_token _ _) as [[g r]|]; [|done].
    intros [= <- _]. apply num_to_cn_nonempty.
  - intros s repl rest. unfold long_match.
    destruct (span _ _) as [run r].
    destruct (Nat.leb_spec 5 (length run)); [|done].
    intros [= <- _]. destruct run; [simpl in *; lia|done].
  - intros s repl rest. unfold year_match.
    destruct s as [|a [|b [|c [|e [|y r]]]]]; try done.
    destruct (_ && _); [|done]. intros [= <- _]. done.
  - intros s repl rest. unfold percent_match.
    destruct (number_token _ _) as [[g [|c r]]|]; try done.
    destruct (c =? PERCENT)%N; [|done]. intros [= <- _]. done.
Qed.

Lemma strip_nonempty (t : text) : nonempty (strip t) = true → t ≠ [].
Proof. by intros H ->. Qed.

(** A turn of the loop appends only text that is not empty. *)
Lemma turn_emits (start_time : float) (end_time : option float)
    (line : SSAEvent) (next : option SSAEvent) two source target :
  turn digit_val start_time end_time line next = Go two (Some (source, target)) →
  target ≠ [].
Proof.
  unfold turn, inline_bilingual, pair_with_next.
  repeat case_match; try done; intros [= _ _ <-];
    apply convert_numbers_nonempty; by eapply strip_nonempty.
Qed.

Lemma insert_event_elem (e x : SSAEvent) (l : list SSAEvent) :
  x ∈ insert_event e l → x = e ∨ x ∈ l.
Proof.
  induction l as [|y l IH]; simpl.
  - intros ?%list_elem_of_singleton. by left.
  - destruct (event_lt y e).
    + intros [->|H]%elem_of_cons; [right; by left|].
      destruct (IH H) as [->|?]; [by left|right; by right].
    + intros [->|H]%elem_of_cons; [by left|by right].
Qed.

Lemma sort_events_elem (x : SSAEvent) (l : list SSAEvent) :
  x ∈ sort_events l → x ∈ l.
Proof.
  unfold sort_events. induction l as [|y l IH]; simpl; [done|].
  intros [->|H]%insert_event_elem; [by left|right; by apply IH].
Qed.


Lemma load_loop_capped (universe : list SSAEvent) (start_time : float)
    (end_time : option float) (cap : Z) (n : nat) :
  ∀ (subs : list SSAEvent) (segments : list Segment) (segment_id : Z),
    (length subs ≤ n)%nat → (∀ l, l ∈ subs → l ∈ universe) →
    Z.of_nat (length segments) < cap → Forall (from_cue universe) segments →
    let r := load_loop digit_val start_time end_time (Some cap) subs
               segments segment_id in
    Z.of_nat (length r) ≤ cap ∧ Forall (from_cue universe) r.
Proof.
  induction n as [|n IH]; intros subs segments segment_id Hlen Hin Hcap Hall.
  { destruct subs; [simpl; split; [lia|done]|simpl in Hlen; lia]. }
  destruct subs as [|line rest]; [simpl; split; [lia|done]|].
  simpl in Hlen. cbn [load_loop].
  assert (Hrest : ∀ l, l ∈ rest → l ∈ universe) by (intros; apply Hin; by right).
  assert (Hrest2 : ∀ x rest2, rest = x :: rest2 →
            (length rest2 ≤ n)%nat ∧ ∀ l, l ∈ rest2 → l ∈ universe).
  { intros x rest2 ->. simpl in Hlen. split; [lia|].
    intros; apply Hrest; by right. }
  destruct (turn _ _ _ _ _) as [|two [[source target]|]] eqn:Hturn.
  - split; [lia|done].
  - set (segments' := segments ++ [new_segment segment_id line source target]).
    assert (Hall' : Forall (from_cue universe) segments').
    { apply Forall_app. split; [done|]. repeat constructor.
      - simpl. by eapply turn_emits.
      - exists line. split; [apply Hin; by left|done]. }
    assert (Hlen' : Z.of_nat (length segments') = Z.of_nat (length segments) + 1).
    { unfold segments'. rewrite length_app. simpl. lia. }
    unfold cap_reached.
    destruct (Z.leb_spec cap (Z.of_nat (length segments'))) as [Hge|Hlt].
    + destruct (Z.eqb_spec cap 0); [lia|]. simpl. split; [lia|done].
    + rewrite andb_false_r.
      destruct two, rest as [|x rest2]; try (apply IH; (done || lia)).
      destruct (Hrest2 x rest2 eq_refl). by apply IH.
  - destruct two, rest as [|x rest2]; try (apply IH; (done || lia)).
    destruct (Hrest2 x rest2 eq_refl). by apply IH.
Qed.


Lemma seconds_lt (a b : Z) : (seconds a < seconds b)%Qc ↔ a < b.
Proof.
  unfold seconds, mkfloat, Qclt, Q2Qc. cbn [this].
  rewrite !Qred_correct. unfold Qlt. simpl. lia.
Qed.

End load_facts.

(** C4, as the parser implements it: for a positive cap, extraction returns
    at most that many segments; each has a target text that is not empty and
    the start and end of one of the file's cues, so that its start is before
    its end exactly when the cue's is. *)
Theorem load_spec (digit_val : N → option N)
    (subs : list subtitle_parser.SSAEvent) (start_time : float)
    (end_time : option float) (cap : Z) :
  0 < cap →
  let r := subtitle_parser.load digit_val subs start_time end_time (Some cap) in
  Z.of_nat (length r) ≤ cap ∧
  Forall (λ s,
    target_text s ≠ [] ∧
    ∃ line, line ∈ subs ∧
      segment.start_time s = subtitle_parser.seconds (subtitle_parser.start line) ∧
      segment.end_time s = subtitle_parser.seconds (subtitle_parser.end_ line) ∧
      ((segment.start_time s < segment.end_time s)%Qc ↔
       subtitle_parser.start line < subtitle_parser.end_ line)) r.
Proof.
  intros Hcap r.
  destruct (load_loop_capped digit_val (subtitle_parser.sort_events subs)
              start_time end_time cap
              (length (subtitle_parser.sort_events subs))
              (subtitle_parser.sort_events subs) [] 1)
    as [Hlen Hall]; try done.
  split; [exact Hlen|].
  eapply List.Forall_impl; [|exact Hall].
  intros s (Ht & line & Hin & Hs & He). split; [done|].
  exists line. split; [by apply sort_events_elem|].
  split; [done|]. split; [done|]. rewrite Hs, He. apply seconds_lt.
Qed.

Lemma load_witness :
  Z.of_nat (length (subtitle_parser.load sample.ascii_digit sample.cues
                      (mkfloat 60 1) (Some (mkfloat 120 1)) (Some 5))) ≤ 5.
Proof.
  apply (load_spec sample.ascii_digit sample.cues (mkfloat 60 1)
           (Some (mkfloat 120 1)) 5).
  lia.
Defined.

(** C4 as stated fails on a cue that ends when it starts: its segment is
    returned with [start_time] equal to [end_time]. *)
Lemma load_keeps_empty_cue :
  Exists (λ s, ¬ (segment.start_time s < segment.end_time s)%Qc)
    (subtitle_parser.load sample.ascii_digit sample.cues
       (mkfloat 60 1) (Some (mkfloat 120 1)) (Some 5)).
Proof.
  set (r := subtitle_parser.load _ _ _ _ _).
  vm_compute in r. subst r.
  apply Exists_cons_tl, Exists_cons_hd.
  cbn [segment.start_time segment.end_time]. intros H.
  vm_compute in H. discriminate H.
Qed.

(** ** The timeline composer *)
Section strings_facts.

Lemma string_app_cons (x : ascii) (a b : string) :
  String x a +:+ b = String x (a +:+ b).
Proof. reflexivity. Qed.


Lemma string_app_length (a b : string) :
  String.length (a +:+ b) = (String.length a + String.length b)%nat.
Proof.
  induction a as [|x a IH]; [done|]. rewrite string_app_cons. simpl. by f_equal.
Qed.



End strings_facts.

Section composer_facts.
Import audio_merger config.

Variable cfg : Config.





(** *** Batches *)



(** *** Mixing *)

Variable total_duration time_offset : float.

Let n := frames (sample_rate cfg) total_duration.
Let tr (disk : gmap string track) (seg : Segment) : track :=
  default [] (placed (sample_rate cfg) n time_offset disk seg).

(** The track a merge of [segments] writes. *)
Let mixed (disk : gmap string track) (segments : list Segment) : track :=
  sample_sum (silence n :: (tr disk <$> segments)) <$> seq 0 n.














End composer_facts.

Section composer_results.
Import audio_merger config.



Lemma not_valid (seg : Segment) :
  status seg ≠ "success" ∨ output_audio_path seg = None ∨
  output_audio_path seg = Some "" →
  is_valid seg = false.
Proof.
  unfold is_valid. intros [H|[H|H]].
  - apply andb_false_iff. left. by apply String.eqb_neq.
  - rewrite H. apply andb_false_r.
  - rewrite H. apply andb_false_r.
Qed.

End composer_results.



(** C9: when no segment has status "success" with an output path set,
    composing the dub track raises instead of writing a track, and so does
    the compose stage, before anything is exported. *)
Theorem create_dubbed_track_no_valid
    (export : pipeline.State → gmap string audio_merger.track →
              result pipeline.State)
    (env : pipeline.Env) (st : pipeline.State)
    (disk : gmap string audio_merger.track) :
  Forall (λ seg, status seg ≠ "success" ∨ output_audio_path seg = None ∨
                 output_audio_path seg = Some "")
    (manifest.segments (pipeline.man st)) →
  (∀ cfg total_duration output_path time_offset,
     audio_merger.create_dubbed_track cfg disk
       (manifest.segments (pipeline.man st)) total_duration output_path
       time_offset
     = Raise "没有可用的配音段落") ∧
  pipeline._stage_merge_output export env st disk = Raise "没有可用的配音段落".
Proof.
  intros H.
  assert (Hf : filter (λ seg, audio_merger.is_valid seg = true)
                 (manifest.segments (pipeline.man st)) = []).
  { induction H as [|seg l Hs _ IH]; [done|].
    rewrite list.filter_cons, (not_valid seg Hs). by rewrite decide_False. }
  assert (Hc : ∀ cfg total_duration output_path time_offset,
     audio_merger.create_dubbed_track cfg disk
       (manifest.segments (pipeline.man st)) total_duration output_path
       time_offset = Raise "没有可用的配音段落").
  { intros. unfold audio_merger.create_dubbed_track. by rewrite Hf. }
  split; [exact Hc|]. unfold pipeline._stage_merge_output. by rewrite Hc.
Qed.

Lemma create_dubbed_track_no_valid_witness :
  pipeline._stage_merge_output (λ st _, Ok st) sample.env sample.st_failed ∅
  = Raise "没有可用的配音段落".
Proof.
  apply (create_dubbed_track_no_valid (λ st _, Ok st) sample.env
           sample.st_failed ∅).
  repeat constructor; left; discriminate.
Defined.

(** ** The parse stage: recovering the state of a previous run *)
Section recovery_facts.
Import pipeline.

Lemma old_segments_fold (d : gmap (float * text) Segment) (segs : list Segment)
    (k : float * text) (os : Segment) :
  foldl keep_success d segs !! k = Some os →
  d !! k = Some os ∨ (os ∈ segs ∧ status os = "success" ∧ seg_key os = k).
Proof.
  revert d. induction segs as [|s segs IH]; intros d H; [by left|].
  simpl in H. apply IH in H as [H|(Hin & Hs & Hk)].
  - unfold keep_success in H. destruct (String.eqb_spec (status s) "success").
    + destruct (decide (seg_key s = k)) as [<-|Hne].
      * rewrite lookup_insert_eq in H. injection H as <-.
        right. split; [by left|done].
      * rewrite lookup_insert_ne in H by done. by left.
    + by left.
  - right. split; [by right|done].
Qed.

Lemma old_segments_sound (segs : list Segment) (k : float * text) (os : Segment) :
  old_segments_of segs !! k = Some os →
  os ∈ segs ∧ status os = "success" ∧ seg_key os = k.
Proof.
  intros H. apply old_segments_fold in H as [H|H]; [|done].
  by rewrite lookup_empty in H.
Qed.

Lemma old_segments_keep (d : gmap (float * text) Segment) (segs : list Segment)
    (k : float * text) :
  is_Some (d !! k) → is_Some (foldl keep_success d segs !! k).
Proof.
  revert d. induction segs as [|s segs IH]; intros d H; [done|].
  simpl. apply IH. unfold keep_success.
  destruct (String.eqb (status s) "success"); [|done].
  destruct (decide (seg_key s = k)) as [<-|Hne].
  - rewrite lookup_insert_eq. by eexists.
  - by rewrite lookup_insert_ne.
Qed.

Lemma old_segments_complete (segs : list Segment) (os : Segment) :
  os ∈ segs → status os = "success" →
  is_Some (old_segments_of segs !! seg_key os).
Proof.
  unfold old_segments_of. generalize (∅ : gmap (float * text) Segment).
  induction segs as [|s segs IH]; intros d Hin Hs; [by apply elem_of_nil in Hin|].
  apply elem_of_cons in Hin as [<-|Hin]; [|by apply IH].
  simpl. apply old_segments_keep. unfold keep_success.
  apply String.eqb_eq in Hs. rewrite Hs, lookup_insert_eq. by eexists.
Qed.


Lemma load_loop_fresh (digit_val : N → option N) (start_time : float)
    (end_time : option float) (max_segments : option Z) (n : nat) :
  ∀ (subs : list subtitle_parser.SSAEvent) (segments : list Segment)
    (segment_id : Z),
    (length subs ≤ n)%nat → Forall subtitle_parser.fresh segments →
    Forall subtitle_parser.fresh
      (subtitle_parser.load_loop digit_val start_time end_time max_segments
         subs segments segment_id).
Proof.
  induction n as [|n IH]; intros subs segments segment_id Hlen Hall.
  { destruct subs; [done|simpl in Hlen; lia]. }
  destruct subs as [|line rest]; [done|].
  simpl in Hlen. cbn [subtitle_parser.load_loop].
  destruct (subtitle_parser.turn _ _ _ _ _) as [|two [[source target]|]]; [done|..].
  - assert (Hall' : Forall subtitle_parser.fresh
              (segments ++ [subtitle_parser.new_segment segment_id line source target])).
    { apply Forall_app. split; [done|]. by repeat constructor. }
    destruct (subtitle_parser.cap_reached _ _); [done|].
    destruct two, rest as [|x rest2]; try (apply IH; (done || lia)).
    apply IH; [simpl in Hlen; lia|done].
  - destruct two, rest as [|x rest2]; try (apply IH; (done || lia)).
    apply IH; [simpl in Hlen; lia|done].
Qed.

Lemma load_fresh (digit_val : N → option N) (subs : list subtitle_parser.SSAEvent)
    (start_time : float) (end_time : option float) (max_segments : option Z) :
  Forall subtitle_parser.fresh
    (subtitle_parser.load digit_val subs start_time end_time max_segments).
Proof. unfold subtitle_parser.load. by eapply load_loop_fresh. Qed.

End recovery_facts.

(** C5, as the parse stage implements it: a new segment takes status,
    reference path, output path and measured duration from a previous
    segment exactly when a previous segment with status "success" has its
    key [(start_time, target_text)]; any other new segment stays as it was
    extracted, and extraction leaves every segment pending with no path.
    When the stage succeeds the manifest holds the extracted segments
    treated so. *)
Theorem recover_spec (old : list Segment) (ns : Segment) :
  let ns' := pipeline.recover (pipeline.old_segments_of old) ns in
  (id ns' = id ns ∧ start_time ns' = start_time ns ∧ end_time ns' = end_time ns ∧
   duration ns' = duration ns ∧ source_text ns' = source_text ns ∧
   target_text ns' = target_text ns ∧ error_msg ns' = error_msg ns) ∧
  ((∃ os, os ∈ old ∧ status os = "success" ∧
          pipeline.seg_key os = pipeline.seg_key ns) →
   ∃ os, os ∈ old ∧ status os = "success" ∧
         pipeline.seg_key os = pipeline.seg_key ns ∧
         status ns' = status os ∧ ref_audio_path ns' = ref_audio_path os ∧
         output_audio_path ns' = output_audio_path os ∧
         actual_duration ns' = actual_duration os) ∧
  ((∀ os, os ∈ old → status os = "success" →
          pipeline.seg_key os ≠ pipeline.seg_key ns) → ns' = ns) ∧
  (∀ tools env st st',
     manifest.segments (pipeline.man st) = old →
     pipeline._stage_parse_subtitles tools env st = Ok st' →
     ∃ new_segments,
       Forall subtitle_parser.fresh new_segments ∧
       manifest.segments (pipeline.man st')
       = pipeline.recover (pipeline.old_segments_of old) <$> new_segments).
Proof.
  intros ns'. subst ns'. unfold pipeline.recover.
  split; [|split; [|split]].
  - by destruct (pipeline.old_segments_of old !! pipeline.seg_key ns).
  - intros (os & Hin & Hs & Hk).
    destruct (old_segments_complete old os Hin Hs) as [os' Hos'].
    rewrite Hk in Hos'. rewrite Hos'.
    apply old_segments_sound in Hos' as (Hin' & Hs' & Hk').
    exists os'. done.
  - intros Hnone.
    destruct (pipeline.old_segments_of old !! pipeline.seg_key ns)
      as [os|] eqn:E; [|done].
    apply old_segments_sound in E as (Hin & Hs & Hk). by destruct (Hnone os).
  - intros tools env st st' <- H. unfold pipeline._stage_parse_subtitles in H.
    destruct (pipeline.pysubs2_load _ _) as [subs|]; [|done].
    destruct (pipeline.demo_mode env).
    + destruct (subtitle_parser.get_video_clip_times _ _) as [a b].
      destruct (subtitle_parser.load _ _ _ _ _) as [|s l] eqn:El; [done|].
      injection H as <-. exists (s :: l).
      split; [rewrite <- El; apply load_fresh | reflexivity].
    + destruct (pipeline.get_duration _ _) as [full|]; [|done].
      destruct (subtitle_parser.load _ _ _ _ _) as [|s l] eqn:El; [done|].
      injection H as <-. exists (s :: l).
      split; [rewrite <- El; apply load_fresh | reflexivity].
Qed.

(** C5 as stated fails for a previous segment that is not "success": the
    line cut in a previous run, still pending, has the key of the line
    extracted again, and its reference path is not carried over. *)
Lemma recover_skips_pending :
  pipeline.seg_key sample.seg_cut = pipeline.seg_key sample.seg_again ∧
  ref_audio_path sample.seg_cut = Some "/dub/temp/segments/seg_0001.wav" ∧
  pipeline.recover (pipeline.old_segments_of [sample.seg_cut]) sample.seg_again
  = sample.seg_again ∧
  ref_audio_path sample.seg_again = None.
Proof.
  split; [|split; [done|split; [|done]]].
  - unfold pipeline.seg_key. f_equal. apply Qc_is_canon. reflexivity.
  - reflexivity.
Qed.

(** ** The synthesize stage: the speed that fits a clip to its slot *)
Section speed_facts.

Lemma fmin_cases (x y : float) :
  ((y < x)%Qc ∧ fmin x y = y) ∨ ((x ≤ y)%Qc ∧ fmin x y = x).
Proof.
  unfold fmin. destruct (decide (y < x)%Qc) as [H|H]; [by left|right].
  split; [by apply Qcnot_lt_le|done].
Qed.

Lemma fmax_cases (x y : float) :
  ((x < y)%Qc ∧ fmax x y = y) ∨ ((y ≤ x)%Qc ∧ fmax x y = x).
Proof.
  unfold fmax. destruct (decide (x < y)%Qc) as [H|H]; [by left|right].
  split; [by apply Qcnot_lt_le|done].
Qed.

Lemma clamp_bounds (lo hi r : float) :
  (lo ≤ hi)%Qc →
  (lo ≤ fmax lo (fmin hi r))%Qc ∧ (fmax lo (fmin hi r) ≤ hi)%Qc.
Proof.
  intros H.
  destruct (fmax_cases lo (fmin hi r)) as [[H1 ->]|[H1 ->]];
    [|split; [apply Qcle_refl|done]].
  split; [by apply Qclt_le_weak|].
  destruct (fmin_cases hi r) as [[H2 ->]|[H2 ->]];
    [by apply Qclt_le_weak|apply Qcle_refl].
Qed.

Lemma clamp_id (lo hi x : float) :
  (lo ≤ x)%Qc → (x ≤ hi)%Qc → fmax lo (fmin hi x) = x.
Proof.
  intros H1 H2.
  assert (E : fmin hi x = x).
  { destruct (fmin_cases hi x) as [[_ ->]|[H ->]]; [done|].
    by apply Qcle_antisym. }
  rewrite E. destruct (fmax_cases lo x) as [[_ ->]|[H ->]]; [done|].
  by apply Qcle_antisym.
Qed.

Lemma div_mul (x b : float) : b ≠ 0%Qc → (x / b * b)%Qc = x.
Proof. intros H. field. exact H. Qed.

Lemma lt_div (a x b : float) :
  (0 < b)%Qc → (a < x / b)%Qc ↔ (a * b < x)%Qc.
Proof.
  intros H. rewrite (Qcmult_lt_mono_pos_r a (x / b)%Qc b H).
  rewrite div_mul; [done|]. intros ->. by apply Qclt_not_eq in H.
Qed.

Lemma div_le (a x b : float) :
  (0 < b)%Qc → (x / b ≤ a)%Qc ↔ (x ≤ a * b)%Qc.
Proof.
  intros H. rewrite (Qcmult_le_mono_pos_r (x / b)%Qc a b H).
  rewrite div_mul; [done|]. intros ->. by apply Qclt_not_eq in H.
Qed.

End speed_facts.

(** C3, as the loop computes it.  For a clip whose ratio to its slot lies
    outside the tolerance band, with speed bounds configured within what
    the tempo filter accepts (0.5 to 2): a speed is chosen; it starts from
    the ratio clamped to the configured bounds and is kept when there is no
    later live segment, when that segment leaves no positive headroom, or
    when the clip at the clamped speed fits the headroom (next start minus
    own start minus 50 ms); otherwise it is the clip's length over the
    headroom, capped at 2, which is above the clamped speed.  The speed is
    never below the configured minimum nor above 2, and the stretched clip
    fits a positive headroom whenever the clip is at most twice as long as
    the headroom. *)
Theorem matching_speed_spec (c : config.Config) (segments : list Segment)
    (i : nat) (seg : Segment) (actual : float)
    (Hd : (0 < duration seg)%Qc)
    (Hlo : (mkfloat 1 2 ≤ config.speed_min_atempo c)%Qc)
    (Hle : (config.speed_min_atempo c ≤ config.speed_max_atempo c)%Qc)
    (Hhi : (config.speed_max_atempo c ≤ mkfloat 2 1)%Qc)
    (Hout : (actual / duration seg < 1 - config.speed_no_adjust_threshold c)%Qc ∨
            (1 + config.speed_no_adjust_threshold c < actual / duration seg)%Qc) :
  let clamped :=
    fmax (config.speed_min_atempo c)
      (fmin (config.speed_max_atempo c) (actual / duration seg)%Qc) in
  ∃ speed,
    pipeline.matching_speed c segments i seg actual = Ok (Some speed) ∧
    ((config.speed_min_atempo c ≤ clamped)%Qc ∧
     (clamped ≤ config.speed_max_atempo c)%Qc) ∧
    ((config.speed_min_atempo c ≤ speed)%Qc ∧ (clamped ≤ speed)%Qc ∧
     (speed ≤ mkfloat 2 1)%Qc) ∧
    match pipeline.next_live segments i with
    | None => speed = clamped
    | Some next =>
      let headroom := (start_time next - start_time seg - mkfloat 5 100)%Qc in
      (¬ ((0 < headroom)%Qc ∧ (headroom < actual / clamped)%Qc) →
       speed = clamped) ∧
      ((0 < headroom)%Qc → (headroom < actual / clamped)%Qc →
       speed = fmin (actual / headroom)%Qc (mkfloat 2 1) ∧
       (clamped < actual / headroom)%Qc) ∧
      ((0 < headroom)%Qc → (actual ≤ mkfloat 2 1 * headroom)%Qc →
       (audio_processor.stretched actual speed ≤ headroom)%Qc)
    end.
Proof.
  intros clamped.
  set (lo := config.speed_min_atempo c) in *.
  set (hi := config.speed_max_atempo c) in *.
  destruct (clamp_bounds lo hi (actual / duration seg)%Qc Hle) as [Hc1 Hc2].
  fold clamped in Hc1, Hc2.
  assert (Hhalf : (0 < mkfloat 1 2)%Qc) by (vm_compute; reflexivity).
  assert (Hpos : (0 < clamped)%Qc).
  { eapply Qclt_le_trans; [exact Hhalf|]. by eapply Qcle_trans. }
  assert (Hc2' : (clamped ≤ mkfloat 2 1)%Qc) by (by eapply Qcle_trans).
  assert (Hfit : ∀ s, (lo ≤ s)%Qc → (s ≤ mkfloat 2 1)%Qc →
                      audio_processor.atempo s = s).
  { intros s H1 H2. apply clamp_id; [by eapply Qcle_trans|done]. }
  unfold pipeline.matching_speed.
  rewrite bool_decide_eq_false_2 by (intros E; rewrite E in Hd; by vm_compute in Hd).
  assert (Hb : bool_decide (actual / duration seg
                            < 1 - config.speed_no_adjust_threshold c)%Qc
               || bool_decide (1 + config.speed_no_adjust_threshold c
                               < actual / duration seg)%Qc = true).
  { destruct Hout as [H|H]; rewrite (bool_decide_eq_true_2 _ H);
      [done|by rewrite orb_true_r]. }
  rewrite Hb. fold lo hi clamped.
  rewrite bool_decide_eq_false_2
    by (intros E; rewrite E in Hpos; by vm_compute in Hpos).
  destruct (pipeline.next_live segments i) as [next|]; [|by eexists].
  cbv zeta.
  set (h := (start_time next - start_time seg - mkfloat 5 100)%Qc).
  destruct (decide (h < actual / clamped)%Qc) as [Hov|Hov];
    [destruct (decide (0 < h)%Qc) as [Hh|Hh]|].
  - (* the clamped speed overlaps: recomputed from the headroom *)
    rewrite !bool_decide_eq_true_2 by done. cbn [andb].
    eexists. split; [done|].
    assert (Hlt : (clamped < actual / h)%Qc).
    { apply lt_div; [done|]. apply lt_div in Hov; [|done].
      by rewrite Qcmult_comm. }
    assert (Hs : (clamped ≤ fmin (actual / h)%Qc (mkfloat 2 1))%Qc).
    { destruct (fmin_cases (actual / h)%Qc (mkfloat 2 1)) as [[H ->]|[H ->]];
        [done|by apply Qclt_le_weak]. }
    assert (Hs2 : (fmin (actual / h)%Qc (mkfloat 2 1) ≤ mkfloat 2 1)%Qc).
    { destruct (fmin_cases (actual / h)%Qc (mkfloat 2 1)) as [[H ->]|[H ->]];
        [apply Qcle_refl|done]. }
    split; [done|]. split.
    { split; [|done]. by eapply Qcle_trans. }
    split; [intros H; by destruct H|]. split; [done|].
    intros _ Hlen. unfold audio_processor.stretched.
    rewrite Hfit; [|by eapply Qcle_trans|done].
    assert (E : fmin (actual / h)%Qc (mkfloat 2 1) = (actual / h)%Qc).
    { destruct (fmin_cases (actual / h)%Qc (mkfloat 2 1)) as [[H _]|[_ ->]];
        [|done].
      apply lt_div in H; [|done]. by apply Qclt_not_le in H. }
    rewrite E.
    assert (Ha : actual ≠ 0%Qc).
    { intros ->. apply lt_div in Hov; [|done].
      assert (H0 : (0 < h * clamped)%Qc) by (by apply Qcmult_pos_pos).
      apply (Qclt_not_le _ _ Hov). by apply Qclt_le_weak. }
    assert (Hh' : h ≠ 0%Qc) by (intros E0; rewrite E0 in Hh; by vm_compute in Hh).
    replace (actual / (actual / h))%Qc with h by (by field).
    apply Qcle_refl.
  - (* no positive headroom: the clamped speed is kept *)
    rewrite (bool_decide_eq_false_2 (0 < h)%Qc) by done. rewrite andb_false_r.
    eexists. split; [done|]. split; [done|].
    split; [split; [done|split; [apply Qcle_refl|done]]|].
    split; [done|]. split; [done|]. done.
  - (* the clip fits at the clamped speed *)
    rewrite (bool_decide_eq_false_2 (h < actual / clamped)%Qc) by done.
    cbn [andb].
    eexists. split; [done|]. split; [done|].
    split; [split; [done|split; [apply Qcle_refl|done]]|].
    split; [done|]. split; [done|].
    intros _ _. unfold audio_processor.stretched. rewrite Hfit by done.
    by apply Qcnot_lt_le.
Qed.

Lemma matching_speed_witness :
  ∃ speed,
    pipeline.matching_speed sample.cfg0 sample.two_lines 0 sample.line_a
      (mkfloat 26 10) = Ok (Some speed) ∧
    speed = mkfloat 125 100 ∧
    (audio_processor.stretched (mkfloat 26 10) speed ≤ mkfloat 225 100)%Qc.
Proof.
  destruct (matching_speed_spec sample.cfg0 sample.two_lines 0 sample.line_a
              (mkfloat 26 10))
    as (speed & Hs & _ & _ & Hn).
  - vm_compute; reflexivity.
  - vm_compute; discriminate.
  - vm_compute; discriminate.
  - vm_compute; discriminate.
  - right. vm_compute; reflexivity.
  - change (pipeline.next_live sample.two_lines 0) with (Some sample.line_b) in Hn.
    destruct Hn as (Hkeep & _ & Hfit).
    exists speed. split; [exact Hs|]. split.
    + rewrite Hkeep.
      * vm_compute; reflexivity.
      * intros [_ H]. vm_compute in H. discriminate H.
    + replace (mkfloat 225 100)
        with (start_time sample.line_b - start_time sample.line_a
              - mkfloat 5 100)%Qc
        by (apply Qc_is_canon; reflexivity).
      apply Hfit.
      * vm_compute; reflexivity.
      * vm_compute; discriminate.
Defined.

(** C3 as stated fails for a clip too long for its headroom: six seconds
    synthesized for the slot at second 10, the next line at 12.3.  The
    speed is recomputed from the headroom and capped at 2, above the
    configured maximum of 1.25, and the clip stretched to three seconds
    still runs past the headroom of 2.25 seconds. *)
Lemma matching_speed_beyond_bounds :
  (1 + config.speed_no_adjust_threshold sample.cfg0
   < mkfloat 6 1 / duration sample.line_a)%Qc ∧
  pipeline.next_live sample.two_lines 0 = Some sample.line_b ∧
  pipeline.matching_speed sample.cfg0 sample.two_lines 0 sample.line_a
    (mkfloat 6 1) = Ok (Some (mkfloat 2 1)) ∧
  (config.speed_max_atempo sample.cfg0 < mkfloat 2 1)%Qc ∧
  (start_time sample.line_b - start_time sample.line_a - mkfloat 5 100
   < audio_processor.stretched (mkfloat 6 1) (mkfloat 2 1))%Qc.
Proof.
  split; [vm_compute; reflexivity|]. split; [reflexivity|].
  split; [vm_compute; reflexivity|]. split; vm_compute; reflexivity.
Qed.

(** ** The stage loops: one turn for each segment *)
Section loop_facts.
Import pipeline.

Variables (tools : Tools) (env : Env).

Local Abbreviation segs st := (manifest.segments (man st)).

(** A loop whose turn at [i] leaves every other index alone. *)
Section turns.
Variable turn : State → nat → State.
Hypothesis turn_other :
  ∀ st (i k : nat), k ≠ i → segs (turn st i) !! k = segs st !! k.

Lemma loop_other (l : list nat) (st : State) (k : nat) :
  k ∉ l → segs (foldl turn st l) !! k = segs st !! k.
Proof.
  revert st. induction l as [|i l IH]; intros st Hk; [done|].
  apply not_elem_of_cons in Hk as [Hne Hk].
  simpl. rewrite IH by done. by apply turn_other.
Qed.

Lemma loop_before (st : State) (j : nat) :
  segs (foldl turn st (seq 0 j)) !! j = segs st !! j.
Proof. apply loop_other. rewrite elem_of_seq. lia. Qed.

Lemma loop_own (st : State) (n j : nat) :
  (j < n)%nat →
  segs (foldl turn st (seq 0 n)) !! j
  = segs (turn (foldl turn st (seq 0 j)) j) !! j.
Proof.
  intros Hlt. replace n with (j + S (n - S j))%nat by lia.
  rewrite seq_app, foldl_app. cbn [seq foldl].
  apply loop_other. rewrite elem_of_seq. lia.
Qed.

End turns.

Lemma process_turn_other (st : State) (i k : nat) :
  k ≠ i → segs (process_turn tools env st i) !! k = segs st !! k.
Proof.
  intros Hne. unfold process_turn.
  destruct (segs st !! i) as [seg|]; [|done].
  destruct (fs.exists_ _ _); [by apply list_lookup_insert_ne|].
  destruct (audio_processor.process_segment _ _ _ _);
    by apply list_lookup_insert_ne.
Qed.

Lemma process_turn_vocal (st : State) (i : nat) :
  manifest.vocal_track (man (process_turn tools env st i))
  = manifest.vocal_track (man st).
Proof.
  unfold process_turn. destruct (segs st !! i) as [seg|]; [|done].
  destruct (fs.exists_ _ _); [done|].
  by destruct (audio_processor.process_segment _ _ _ _).
Qed.

Lemma process_loop_vocal (l : list nat) (st : State) :
  manifest.vocal_track (man (foldl (process_turn tools env) st l))
  = manifest.vocal_track (man st).
Proof.
  revert st. induction l as [|i l IH]; intros st; [done|].
  simpl. by rewrite IH, process_turn_vocal.
Qed.

Lemma generate_turn_other (st : State) (i k : nat) :
  k ≠ i → segs (generate_turn tools env st i) !! k = segs st !! k.
Proof.
  intros Hne. unfold generate_turn.
  destruct (segs st !! i) as [seg|]; [|done].
  destruct (already_dubbed _ _); [done|].
  destruct (_ || _); [done|].
  destruct (tts_generate _ _ _).
  - cbn. by rewrite !list_lookup_insert_ne.
  - destruct (post_process _ _ _ _ _ _ _) as [seg' f'].
    cbn. by rewrite !list_lookup_insert_ne.
Qed.

Lemma generate_turn_done (st : State) (i : nat) :
  forallb (already_dubbed (files st)) (segs st) = true →
  generate_turn tools env st i = st.
Proof.
  intros Hall. unfold generate_turn.
  destruct (segs st !! i) as [seg|] eqn:E; [|done].
  rewrite List.forallb_forall in Hall.
  rewrite Hall; [done|].
  apply list_elem_of_In. by eapply list_elem_of_lookup_2.
Qed.

Lemma generate_loop_done (l : list nat) (st : State) :
  forallb (already_dubbed (files st)) (segs st) = true →
  foldl (generate_turn tools env) st l = st.
Proof.
  intros Hall. induction l as [|i l IH]; [done|].
  simpl. by rewrite generate_turn_done.
Qed.

Lemma stage_generate_segments (st : State) :
  segs (_stage_generate_dubbing tools env st)
  = segs (foldl (generate_turn tools env) st (seq 0 (length (segs st)))).
Proof.
  unfold _stage_generate_dubbing.
  destruct (forallb _ _) eqn:E; [|done].
  by rewrite generate_loop_done.
Qed.

End loop_facts.

Section composer_skips.
Import audio_merger.

Lemma create_dubbed_track_skips (c : config.Config) (disk : gmap string track)
    (l1 l2 : list Segment) (s : Segment) (total_duration : float)
    (output_path : string) (time_offset : float) :
  status s = "error" →
  create_dubbed_track c disk (l1 ++ s :: l2) total_duration output_path
    time_offset
  = create_dubbed_track c disk (l1 ++ l2) total_duration output_path
      time_offset.
Proof.
  intros Hs. unfold create_dubbed_track.
  rewrite !list.filter_app, list.filter_cons.
  rewrite decide_False; [done|].
  unfold is_valid. rewrite Hs. by cbn.
Qed.

End composer_skips.

(** C7.  Take any segment [seg], at index [j] of the manifest when a
    stage starts.  In the loop of the prepare-segments stage and in the
    loop of the synthesize stage, whatever happened to the segments before
    it, the loop reaches index [j] with [seg] as it was, the turn at [j]
    changes no other segment, and what the stage leaves at [j] is what that
    turn made of it; when the cut, or the synthesis, of [seg] raises [e] the
    stage leaves [seg] there with status "error" and [error_msg] set to
    [e].  The composer gives the same result with or without a segment
    whose status is "error". *)
Theorem stage_loops_continue (tools : pipeline.Tools) (env : pipeline.Env)
    (st : pipeline.State) (j : nat) (seg : Segment)
    (Hj : manifest.segments (pipeline.man st) !! j = Some seg) :
  (let turn := pipeline.process_turn tools env in
   let before := foldl turn st (seq 0 j) in
   let after := pipeline._stage_process_segments tools env st in
   manifest.segments (pipeline.man before) !! j = Some seg ∧
   (∀ k, k ≠ j →
      manifest.segments (pipeline.man (turn before j)) !! k
      = manifest.segments (pipeline.man before) !! k) ∧
   manifest.segments (pipeline.man after) !! j
   = manifest.segments (pipeline.man (turn before j)) !! j ∧
   (∀ e,
      fs.exists_ (pipeline.files before)
        (config.segments_dir (pipeline.cfg env) +:+ "/ref_"
           +:+ audio_processor.fmt04 (id seg) +:+ ".wav") = false →
      audio_processor.process_segment (pipeline.ffmpeg_cut tools)
        (manifest.vocal_track (pipeline.man st)) seg
        (config.segments_dir (pipeline.cfg env)) = Raise e →
      manifest.segments (pipeline.man after) !! j = Some (set_error e seg) ∧
      status (set_error e seg) = "error" ∧
      error_msg (set_error e seg) = Some e)) ∧
  (let turn := pipeline.generate_turn tools env in
   let before := foldl turn st (seq 0 j) in
   let after := pipeline._stage_generate_dubbing tools env st in
   manifest.segments (pipeline.man before) !! j = Some seg ∧
   (∀ k, k ≠ j →
      manifest.segments (pipeline.man (turn before j)) !! k
      = manifest.segments (pipeline.man before) !! k) ∧
   manifest.segments (pipeline.man after) !! j
   = manifest.segments (pipeline.man (turn before j)) !! j ∧
   (∀ e,
      pipeline.already_dubbed (pipeline.files before) seg = false →
      status seg ≠ "error" → truthy (ref_audio_path seg) = true →
      pipeline.tts_generate tools (set_status "processing" seg)
        (config.output_segments_dir (pipeline.cfg env) +:+ "/dub_"
           +:+ audio_processor.fmt04 (id seg) +:+ ".wav") = Some e →
      let failed := set_error e (set_status "processing" seg) in
      manifest.segments (pipeline.man after) !! j = Some failed ∧
      status failed = "error" ∧ error_msg failed = Some e)) ∧
  (∀ c disk l1 l2 (s : Segment) total_duration output_path time_offset,
     status s = "error" →
     audio_merger.create_dubbed_track c disk (l1 ++ s :: l2) total_duration
       output_path time_offset
     = audio_merger.create_dubbed_track c disk (l1 ++ l2) total_duration
         output_path time_offset).
Proof.
  assert (Hlt : (j < length (manifest.segments (pipeline.man st)))%nat)
    by (by eapply lookup_lt_Some).
  split; [|split].
  - intros turn before after.
    assert (Hb : manifest.segments (pipeline.man before) !! j = Some seg).
    { unfold before. rewrite loop_before; [done|].
      apply process_turn_other. }
    assert (Ha : manifest.segments (pipeline.man after) !! j
                 = manifest.segments (pipeline.man (turn before j)) !! j).
    { unfold after, pipeline._stage_process_segments. cbn.
      apply (loop_own turn (process_turn_other tools env)). exact Hlt. }
    split; [exact Hb|]. split; [intros k Hk; by apply process_turn_other|].
    split; [exact Ha|].
    intros e Hex Hcut. split; [|done]. rewrite Ha.
    unfold turn, pipeline.process_turn. rewrite Hb, Hex.
    unfold before, turn. rewrite process_loop_vocal, Hcut. cbn.
    apply list_lookup_insert_eq.
    by eapply lookup_lt_Some.
  - intros turn before after.
    assert (Hb : manifest.segments (pipeline.man before) !! j = Some seg).
    { unfold before. rewrite loop_before; [done|].
      apply generate_turn_other. }
    assert (Ha : manifest.segments (pipeline.man after) !! j
                 = manifest.segments (pipeline.man (turn before j)) !! j).
    { unfold after. rewrite stage_generate_segments.
      apply (loop_own turn (generate_turn_other tools env)). exact Hlt. }
    split; [exact Hb|]. split; [intros k Hk; by apply generate_turn_other|].
    split; [exact Ha|].
    intros e Hdub He Href Htts failed. split; [|done]. rewrite Ha.
    unfold turn, pipeline.generate_turn. rewrite Hb, Hdub.
    apply String.eqb_neq in He. rewrite He, Href. cbn [orb negb].
    cbn [id set_status] in Htts |- *. rewrite Htts. cbn.
    rewrite list_insert_insert_eq. apply list_lookup_insert_eq.
    by eapply lookup_lt_Some.
  - intros. by apply create_dubbed_track_skips.
Qed.

Lemma stage_loops_continue_witness :
  let after :=
    pipeline._stage_generate_dubbing sample.failing_tools sample.env
      sample.st_two in
  manifest.segments (pipeline.man after) !! 0%nat
  = Some (set_error "CUDA out of memory"
            (set_status "processing" sample.line_a)) ∧
  status <$> manifest.segments (pipeline.man after) !! 1%nat = Some "success".
Proof.
  intros after. split.
  - destruct (stage_loops_continue sample.failing_tools sample.env
                sample.st_two 0 sample.line_a) as (_ & (_ & _ & _ & H) & _);
      [reflexivity|].
    apply H.
    + vm_compute; reflexivity.
    + discriminate.
    + reflexivity.
    + reflexivity.
  - destruct (stage_loops_continue sample.failing_tools sample.env
                sample.st_two 1 sample.line_b) as (_ & (_ & _ & H & _) & _);
      [reflexivity|].
    unfold after. rewrite H. vm_compute; reflexivity.
Defined.

(** ** Extraction: what the loop of [load] keeps *)
Section extraction_facts.
Import subtitle_parser.

Variable digit_val : N → option N.
Variables (start_time : float) (end_time : option float).

(** An invariant of the segments collected and the cues still to read
    holds of what the loop returns, when dropping a cue and appending the
    segment of the cue at the head both keep it. *)
Lemma load_loop_invariant (I : list SSAEvent → list Segment → Z → Prop)
    (max_segments : option Z) :
  (∀ line rest segments segment_id,
     I (line :: rest) segments segment_id → I rest segments segment_id) →
  (∀ line rest segments segment_id two source target,
     I (line :: rest) segments segment_id →
     turn digit_val start_time end_time line (head rest)
     = Go two (Some (source, target)) →
     I rest (segments ++ [new_segment segment_id line source target])
       (segment_id + 1)) →
  ∀ subs segments segment_id,
    I subs segments segment_id →
    ∃ subs' segment_id',
      I subs'
        (load_loop digit_val start_time end_time max_segments subs segments
           segment_id) segment_id'.
Proof.
  intros Hdrop Hemit subs.
  remember (length subs) as n eqn:Hn.
  assert (Hlen : (length subs ≤ n)%nat) by lia. clear Hn.
  revert subs Hlen.
  induction n as [|n IH]; intros subs Hlen segments segment_id HI.
  { destruct subs; [by eexists _, _|simpl in Hlen; lia]. }
  destruct subs as [|line rest]; [by eexists _, _|].
  simpl in Hlen. cbn [load_loop].
  destruct (turn _ _ _ _ _) as [|two [[source target]|]] eqn:Hturn.
  - by eexists _, _.
  - pose proof (Hemit _ _ _ _ _ _ _ HI Hturn) as HI'.
    destruct (cap_reached _ _); [by eexists _, _|].
    destruct two, rest as [|x rest2]; try (apply IH; (done || lia)).
    apply IH; [simpl in Hlen; lia|by eapply Hdrop].
  - apply Hdrop in HI.
    destruct two, rest as [|x rest2]; try (apply IH; (done || lia)).
    apply IH; [simpl in Hlen; lia|by eapply Hdrop].
Qed.

(** A turn appends a segment only for a cue that starts inside the
    requested window. *)
Lemma turn_window (line : SSAEvent) (next : option SSAEvent) two source target :
  turn digit_val start_time end_time line next = Go two (Some (source, target)) →
  (start_time ≤ seconds (start line))%Qc ∧
  match end_time with
  | Some e => (seconds (start line) < e)%Qc
  | None => True
  end.
Proof.
  unfold turn. case_bool_decide as H1; [done|].
  destruct end_time as [e|].
  - case_bool_decide as H2; [done|]. intros _.
    split; [by apply Qcnot_lt_le|by apply Qcnot_le_lt].
  - intros _. split; [by apply Qcnot_lt_le|done].
Qed.

Lemma seconds_le (a b : Z) : (seconds a ≤ seconds b)%Qc ↔ a ≤ b.
Proof.
  unfold seconds, mkfloat, Qcle, Q2Qc. cbn [this].
  rewrite !Qred_correct. unfold Qle. simpl. lia.
Qed.

(** Sorting: the events come out ordered by start, then end. *)
Lemma insert_event_sorted (e : SSAEvent) (l : list SSAEvent) :
  StronglySorted (λ a b, event_lt b a = false) l →
  StronglySorted (λ a b, event_lt b a = false) (insert_event e l).
Proof.
  induction 1 as [|x l Hs IH Hx]; simpl.
  { repeat constructor. }
  destruct (event_lt x e) eqn:E.
  - constructor; [done|].
    apply List.Forall_forall. intros y Hy.
    apply list_elem_of_In, insert_event_elem in Hy as [->|Hy].
    + unfold event_lt in *.
      destruct (Z.ltb_spec (start x) (start e)), (Z.eqb_spec (start x) (start e)),
        (Z.ltb_spec (end_ x) (end_ e)), (Z.ltb_spec (start e) (start x)),
        (Z.eqb_spec (start e) (start x)), (Z.ltb_spec (end_ e) (end_ x));
        simpl in *; try done; lia.
    + rewrite List.Forall_forall in Hx. by apply Hx, list_elem_of_In.
  - constructor; [by constructor|].
    constructor; [done|].
    eapply List.Forall_impl; [|exact Hx]. intros y Hy. simpl in Hy.
    unfold event_lt in *.
    destruct (Z.ltb_spec (start x) (start e)), (Z.eqb_spec (start x) (start e)),
      (Z.ltb_spec (end_ x) (end_ e)), (Z.ltb_spec (start y) (start x)),
      (Z.eqb_spec (start y) (start x)), (Z.ltb_spec (end_ y) (end_ x)),
      (Z.ltb_spec (start y) (start e)),
      (Z.eqb_spec (start y) (start e)), (Z.ltb_spec (end_ y) (end_ e));
      simpl in *; try done; lia.
Qed.

Lemma sort_events_sorted (l : list SSAEvent) :
  StronglySorted (λ a b, event_lt b a = false) (sort_events l).
Proof.
  unfold sort_events. induction l as [|e l IH]; simpl; [constructor|].
  by apply insert_event_sorted.
Qed.

Lemma event_lt_start (a b : SSAEvent) :
  event_lt b a = false → start a ≤ start b.
Proof.
  unfold event_lt.
  destruct (Z.ltb_spec (start b) (start a)); [done|lia].
Qed.

End extraction_facts.

Lemma load_ids_seq (digit_val : N → option N)
    (subs : list subtitle_parser.SSAEvent) (start_time : float)
    (end_time : option float) (max_segments : option Z) :
  let r := subtitle_parser.load digit_val subs start_time end_time max_segments in
  segment.id <$> r = (λ k, Z.of_nat (S k)) <$> seq 0 (length r).
Proof.
  intros r.
  destruct (load_loop_invariant digit_val start_time end_time
              (λ _ segments segment_id,
                 segment_id = Z.of_nat (S (length segments)) ∧
                 segment.id <$> segments
                 = (λ k, Z.of_nat (S k)) <$> seq 0 (length segments))
              max_segments) with (subs := subtitle_parser.sort_events subs)
    (segments := @nil Segment) (segment_id := 1) as (? & ? & _ & H);
    [done| |done|exact H].
  intros line rest segments segment_id two source target [-> Hids] _.
  rewrite length_app, Nat.add_1_r. split; [lia|].
  rewrite seq_S, !fmap_app, Hids. done.
Qed.

(** X1.  Extraction numbers the segments it returns 1, 2, 3, ... in the
    order it returns them, whichever cues were skipped in between. *)
Theorem load_ids (digit_val : N → option N)
    (subs : list subtitle_parser.SSAEvent) (start_time : float)
    (end_time : option float) (max_segments : option Z) :
  let r := subtitle_parser.load digit_val subs start_time end_time max_segments in
  segment.id <$> r = (λ k, Z.of_nat (S k)) <$> seq 0 (length r).
Proof. apply load_ids_seq. Qed.

Lemma load_in_window (digit_val : N → option N)
    (subs : list subtitle_parser.SSAEvent) (start_time : float)
    (end_time : option float) (max_segments : option Z) :
  Forall (λ s,
    (start_time ≤ segment.start_time s)%Qc ∧
    match end_time with
    | Some e => (segment.start_time s < e)%Qc
    | None => True
    end ∧
    segment.duration s = (segment.end_time s - segment.start_time s)%Qc)
    (subtitle_parser.load digit_val subs start_time end_time max_segments).
Proof.
  destruct (load_loop_invariant digit_val start_time end_time
              (λ _ segments _,
                 Forall (λ s,
                   (start_time ≤ segment.start_time s)%Qc ∧
                   match end_time with
                   | Some e => (segment.start_time s < e)%Qc
                   | None => True
                   end ∧
                   segment.duration s
                   = (segment.end_time s - segment.start_time s)%Qc) segments)
              max_segments) with (subs := subtitle_parser.sort_events subs)
    (segments := @nil Segment) (segment_id := 1) as (? & ? & H);
    [done| |done|exact H].
  intros line rest segments segment_id two source target Hall Hturn.
  apply Forall_app. split; [done|]. constructor; [|done].
  destruct (turn_window _ _ _ _ _ _ _ _ Hturn) as [H1 H2]. done.
Qed.

(** X2.  Every segment extraction returns starts inside the requested
    window, at or after [start_time] and before [end_time], and its
    duration is its end minus its start. *)
Theorem load_window (digit_val : N → option N)
    (subs : list subtitle_parser.SSAEvent) (start_time : float)
    (end_time : option float) (max_segments : option Z) :
  Forall (λ s,
    (start_time ≤ segment.start_time s)%Qc ∧
    match end_time with
    | Some e => (segment.start_time s < e)%Qc
    | None => True
    end ∧
    segment.duration s = (segment.end_time s - segment.start_time s)%Qc)
    (subtitle_parser.load digit_val subs start_time end_time max_segments).
Proof. apply load_in_window. Qed.

Lemma load_starts_sorted (digit_val : N → option N)
    (subs : list subtitle_parser.SSAEvent) (start_time : float)
    (end_time : option float) (max_segments : option Z) :
  StronglySorted (λ a b, (segment.start_time a ≤ segment.start_time b)%Qc)
    (subtitle_parser.load digit_val subs start_time end_time max_segments).
Proof.
  destruct (load_loop_invariant digit_val start_time end_time
              (λ todo segments _,
                 StronglySorted (λ a b, subtitle_parser.event_lt b a = false) todo ∧
                 StronglySorted
                   (λ a b, (segment.start_time a ≤ segment.start_time b)%Qc)
                   segments ∧
                 Forall (λ s, Forall (λ e,
                   (segment.start_time s
                    ≤ subtitle_parser.seconds (subtitle_parser.start e))%Qc) todo)
                   segments)
              max_segments) with (subs := subtitle_parser.sort_events subs)
    (segments := @nil Segment) (segment_id := 1) as (? & ? & _ & H & _);
    [| | |exact H].
  - intros line rest segments _ (Hs & Hseg & Hall).
    split; [by inversion Hs|]. split; [done|].
    eapply List.Forall_impl; [|exact Hall]. intros s Hs'. by inversion Hs'.
  - intros line rest segments segment_id two source target (Hs & Hseg & Hall) _.
    inversion_clear Hs as [|? ? Hrest Hline].
    split; [done|]. split.
    + clear Hrest Hline. induction Hseg as [|s l Hl IH Hsl].
      * repeat constructor.
      * inversion_clear Hall as [|? ? Hs Hl']. simpl. constructor; [by apply IH|].
        apply Forall_app. split; [done|]. constructor; [|done].
        simpl. by inversion Hs.
    + apply Forall_app. split.
      * eapply List.Forall_impl; [|exact Hall]. intros s Hs'. by inversion Hs'.
      * constructor; [|done]. simpl.
        eapply List.Forall_impl; [|exact Hline]. intros e He. simpl in He.
        by apply seconds_le, event_lt_start.
  - split; [apply sort_events_sorted|]. split; constructor.
Qed.

(** X3.  Whatever the order of the cues in the file, the segments come
    out ordered by start time. *)
Theorem load_sorted (digit_val : N → option N)
    (subs : list subtitle_parser.SSAEvent) (start_time : float)
    (end_time : option float) (max_segments : option Z) :
  StronglySorted (λ a b, (segment.start_time a ≤ segment.start_time b)%Qc)
    (subtitle_parser.load digit_val subs start_time end_time max_segments).
Proof. apply load_starts_sorted. Qed.

(** X4.  A cap of zero is no cap: extraction with [max_segments = 0]
    returns what it returns without a cap. *)
Theorem load_cap_zero (digit_val : N → option N)
    (subs : list subtitle_parser.SSAEvent) (start_time : float)
    (end_time : option float) :
  subtitle_parser.load digit_val subs start_time end_time (Some 0)
  = subtitle_parser.load digit_val subs start_time end_time None.
Proof.
  unfold subtitle_parser.load.
  generalize (subtitle_parser.sort_events subs) (@nil Segment) 1.
  intros todo. remember (length todo) as n eqn:Hn.
  assert (Hlen : (length todo ≤ n)%nat) by lia. clear Hn. revert todo Hlen.
  induction n as [|n IH]; intros todo Hlen segments segment_id.
  { destruct todo; [done|simpl in Hlen; lia]. }
  destruct todo as [|line rest]; [done|].
  simpl in Hlen. cbn [subtitle_parser.load_loop].
  destruct (subtitle_parser.turn _ _ _ _ _) as [|two [[source target]|]]; [done|..].
  - cbn [subtitle_parser.cap_reached Z.eqb negb andb].
    destruct two, rest as [|x rest2]; try (apply IH; lia).
    apply IH. simpl in Hlen. lia.
  - destruct two, rest as [|x rest2]; try (apply IH; lia).
    apply IH. simpl in Hlen. lia.
Qed.

(** X5.  For a window that starts at or after zero and a padding that is
    not negative, the clip window computed from the extracted segments
    starts at or after zero and at or before the start of every extracted
    segment, and ends the padding after the end of the last one; without
    segments it is the first minute. *)
Theorem clip_window_start (digit_val : N → option N)
    (subs : list subtitle_parser.SSAEvent) (start_time : float)
    (end_time : option float) (max_segments : option Z) (padding : float)
    (Hstart : (0 ≤ start_time)%Qc) (Hpad : (0 ≤ padding)%Qc) :
  let r := subtitle_parser.load digit_val subs start_time end_time max_segments in
  let w := subtitle_parser.get_video_clip_times r padding in
  (0 ≤ w.1)%Qc ∧
  Forall (λ s, (w.1 ≤ segment.start_time s)%Qc) r ∧
  (r = [] → w = (0%Qc, mkfloat 60 1)) ∧
  (∀ final, list.last r = Some final → w.2 = (segment.end_time final + padding)%Qc).
Proof.
  intros r w. pose proof (load_starts_sorted digit_val subs start_time end_time
                            max_segments) as Hs.
  pose proof (load_in_window digit_val subs start_time end_time
                max_segments) as Hw.
  fold r in Hs, Hw. unfold w, subtitle_parser.get_video_clip_times. clear w.
  destruct r as [|first l]; [by repeat split|].
  destruct (list.last (first :: l)) as [final|] eqn:El;
    [|by apply last_None in El].
  cbn [fst snd].
  assert (H0 : (0 ≤ fmax 0%Qc (segment.start_time first - padding)%Qc)%Qc).
  { destruct (fmax_cases 0%Qc (segment.start_time first - padding)%Qc)
      as [[H ->]|[_ ->]]; [by apply Qclt_le_weak|apply Qcle_refl]. }
  assert (H1 : (fmax 0%Qc (segment.start_time first - padding)%Qc
                ≤ segment.start_time first)%Qc).
  { destruct (fmax_cases 0%Qc (segment.start_time first - padding)%Qc)
      as [[H ->]|[H ->]].
    - rewrite <- (Qcplus_0_r (segment.start_time first)) at 2.
      unfold Qcminus. apply Qcplus_le_compat; [apply Qcle_refl|].
      apply Qcopp_le_compat in Hpad. exact Hpad.
    - inversion_clear Hw as [|? ? [Hf _] _].
      exact (Qcle_trans _ _ _ Hstart Hf). }
  split; [exact H0|]. split; [|split; [done|by intros ? [= <-]]].
  inversion_clear Hs as [|? ? _ Hall].
  constructor; [exact H1|].
  eapply List.Forall_impl; [|exact Hall]. intros s Hle. simpl in Hle.
  by eapply Qcle_trans.
Qed.

Lemma clip_window_start_witness :
  let r := subtitle_parser.load sample.ascii_digit sample.cues (mkfloat 60 1)
             (Some (mkfloat 120 1)) (Some 5) in
  Forall (λ s, ((subtitle_parser.get_video_clip_times r (mkfloat 2 1)).1
                ≤ segment.start_time s)%Qc) r.
Proof.
  intros r.
  apply (clip_window_start sample.ascii_digit sample.cues (mkfloat 60 1)
           (Some (mkfloat 120 1)) (Some 5) (mkfloat 2 1)).
  - vm_compute; discriminate.
  - vm_compute; discriminate.
Defined.

(** ** Cleaning: what [_clean_text] leaves *)
Section cleaning_facts.
Import subtitle_parser.

Lemma lstrip_split (t : text) :
  ∃ w, t = w ++ lstrip t ∧ Forall (λ c, is_space c = true) w.
Proof.
  induction t as [|c r (w & E & Hw)]; [by exists []|].
  simpl. destruct (is_space c) eqn:Ec.
  - exists (c :: w). split; [by rewrite E at 1|by constructor].
  - by exists [].
Qed.

Lemma lstrip_head (t : text) (c : N) :
  head (lstrip t) = Some c → is_space c = false.
Proof.
  induction t as [|x r IH]; [done|]. simpl.
  destruct (is_space x) eqn:Ex; [done|]. by intros [= <-].
Qed.

Lemma lstrip_fixed (t : text) :
  (∀ c, head t = Some c → is_space c = false) → lstrip t = t.
Proof.
  destruct t as [|c r]; [done|]. intros H. simpl. by rewrite (H c).
Qed.

(** [strip t] is [t] without a run of spaces at either end. *)
Lemma strip_split (t : text) :
  ∃ w1 w2, t = w1 ++ strip t ++ w2 ∧
    Forall (λ c, is_space c = true) w1 ∧ Forall (λ c, is_space c = true) w2.
Proof.
  unfold strip. destruct (lstrip_split t) as (w1 & E1 & H1).
  destruct (lstrip_split (rev (lstrip t))) as (w2 & E2 & H2).
  exists w1, (rev w2). split; [|split; [done|]].
  - rewrite <- rev_app_distr, <- E2, rev_involutive. exact E1.
  - apply List.Forall_forall. intros c Hc. apply in_rev in Hc.
    rewrite List.Forall_forall in H2. by apply H2.
Qed.

Lemma strip_last (t : text) (c : N) :
  list.last (strip t) = Some c → is_space c = false.
Proof.
  unfold strip. intros H. apply (lstrip_head (rev (lstrip t))).
  destruct (lstrip (rev (lstrip t))) as [|x l]; [done|].
  simpl in H. rewrite last_snoc in H. done.
Qed.

Lemma strip_head (t : text) (c : N) :
  head (strip t) = Some c → is_space c = false.
Proof.
  unfold strip. intros H.
  destruct (lstrip_split (rev (lstrip t))) as (w & E & _).
  remember (lstrip (rev (lstrip t))) as b eqn:Hb.
  apply (f_equal (@rev N)) in E. rewrite rev_involutive, rev_app_distr in E.
  apply (lstrip_head t). rewrite E.
  destruct (rev b); [done|]. exact H.
Qed.

Lemma strip_fixed (t : text) :
  (∀ c, head t = Some c → is_space c = false) →
  (∀ c, list.last t = Some c → is_space c = false) → strip t = t.
Proof.
  intros Hh Hl. unfold strip. rewrite (lstrip_fixed t Hh).
  rewrite lstrip_fixed; [apply rev_involutive|].
  intros c Hc. apply Hl.
  destruct t as [|x l] using rev_ind; [done|].
  rewrite rev_app_distr in Hc. simpl in Hc. by rewrite last_snoc.
Qed.

Lemma find_close_suffix (stop : N → bool) (t rest : text) :
  find_close stop t = Some rest → ∃ k, t = k ++ rest ∧ (length rest < length t)%nat.
Proof.
  revert rest. induction t as [|c r IH]; intros rest; [done|]. simpl.
  destruct (stop c).
  - intros [= <-]. exists [c]. split; [done|simpl; lia].
  - destruct (c =? LF)%N; [done|]. intros H.
    destruct (IH _ H) as (k & -> & Hlen). exists (c :: k).
    split; [done|simpl; lia].
Qed.

Lemma drop_notes_suffix (t : text) :
  ∃ k, t = k ++ drop_notes t.
Proof.
  induction t as [|c r [k E]]; [by exists []|]. simpl.
  destruct (c =? NOTE)%N; [|by exists []].
  exists (c :: k). by rewrite E at 1.
Qed.

(** A match of the pattern is replaced by nothing, and what is scanned
    next is a proper suffix of the text. *)
Lemma bracket_match_suffix (t repl rest : text) :
  bracket_match t = Some (repl, rest) →
  repl = [] ∧ ∃ k, t = k ++ rest ∧ (length rest < length t)%nat.
Proof.
  destruct t as [|c r]; [done|]. simpl.
  destruct (is_open c).
  - destruct (find_close is_close r) as [x|] eqn:E; [|done].
    intros [= <- <-]. split; [done|].
    destruct (find_close_suffix _ _ _ E) as (k & -> & Hlen).
    exists (c :: k). split; [done|simpl; lia].
  - destruct (c =? NOTE)%N; [|done].
    destruct (find_close (N.eqb NOTE) r) as [x|] eqn:E.
    + intros [= <- <-]. split; [done|].
      destruct (find_close_suffix _ _ _ E) as (k & -> & Hlen).
      exists (c :: k). split; [done|simpl; lia].
    + intros [= <- <-]. split; [done|].
      destruct (drop_notes_suffix r) as [k E'].
      exists (c :: k). split; [simpl; by rewrite E' at 1|].
      rewrite E' at 2. simpl. rewrite length_app. lia.
Qed.

Lemma re_sub_bracket_sublist (fuel : nat) (t : text) :
  re_sub_fuel fuel bracket_match t `sublist_of` t.
Proof.
  revert t. induction fuel as [|f IH]; intros t; [done|].
  destruct t as [|c r]; [done|]. cbn [re_sub_fuel].
  destruct (bracket_match (c :: r)) as [[repl rest]|] eqn:E.
  - destruct (bracket_match_suffix _ _ _ E) as (-> & k & -> & _).
    simpl. by apply sublist_inserts_l.
  - by apply sublist_skip.
Qed.

Lemma note_facts :
  (NOTE =? LF)%N = false ∧ is_close NOTE = false ∧ is_open NOTE = false ∧
  is_open LF = false.
Proof. done. Qed.

(** Where the closing bracket of a line is missing, it is missing behind
    a note and behind a substitution too. *)
Lemma find_close_behind_note (t rest : text) :
  find_close is_close t = None →
  find_close (N.eqb NOTE) t = Some rest → find_close is_close rest = None.
Proof.
  revert rest. induction t as [|c r IH]; intros rest; [done|].
  cbn [find_close].
  destruct (is_close c); [done|].
  destruct (N.eqb_spec NOTE c) as [<-|Hne].
  - rewrite (proj1 note_facts). by intros H [= <-].
  - destruct (c =? LF)%N; [done|]. apply IH.
Qed.

Lemma find_close_drop_notes (t : text) :
  find_close is_close t = None → find_close is_close (drop_notes t) = None.
Proof.
  induction t as [|c r IH]; [done|]. simpl.
  destruct (N.eqb_spec c NOTE) as [->|Hne]; [|done].
  destruct note_facts as (-> & -> & _). apply IH.
Qed.

Lemma find_close_re_sub (fuel : nat) (t : text) :
  find_close is_close t = None →
  find_close is_close (re_sub_fuel fuel bracket_match t) = None.
Proof.
  revert t. induction fuel as [|f IH]; intros t; [done|].
  destruct t as [|c r]; [done|]. cbn [re_sub_fuel].
  intros H. simpl in H.
  destruct (is_close c) eqn:Ec; [done|].
  destruct (bracket_match (c :: r)) as [[repl rest]|] eqn:E.
  - simpl in E. destruct (is_open c) eqn:Eo.
    + destruct (N.eqb_spec c LF) as [->|_];
        [by rewrite (proj2 (proj2 (proj2 note_facts))) in Eo|].
      by rewrite H in E.
    + destruct (N.eqb_spec c NOTE) as [->|_]; [|done].
      rewrite (proj1 note_facts) in H.
      destruct (find_close (N.eqb NOTE) r) as [x|] eqn:En.
      * injection E as <- <-. simpl. apply IH.
        by eapply find_close_behind_note.
      * injection E as <- <-. simpl. apply IH.
        by apply find_close_drop_notes.
  - simpl. rewrite Ec. destruct (c =? LF)%N; [done|]. by apply IH.
Qed.

(** With fuel for the whole text, the pattern matches nowhere in what the
    substitution returns. *)
Lemma re_sub_bracket_quiet (fuel : nat) (t : text) :
  (length t ≤ fuel)%nat →
  ∀ k, bracket_match (drop k (re_sub_fuel fuel bracket_match t)) = None.
Proof.
  revert t. induction fuel as [|f IH]; intros t Hlen k.
  { destruct t; [by destruct k|simpl in Hlen; lia]. }
  destruct t as [|c r]; [by destruct k|]. cbn [re_sub_fuel].
  simpl in Hlen.
  destruct (bracket_match (c :: r)) as [[repl rest]|] eqn:E.
  - destruct (bracket_match_suffix _ _ _ E) as (-> & _ & _ & Hl).
    simpl in Hl. simpl. apply IH. lia.
  - destruct k as [|k]; [|simpl; apply IH; lia].
    simpl. simpl in E.
    destruct (is_open c).
    + destruct (find_close is_close r) eqn:Ef; [done|].
      by rewrite find_close_re_sub.
    + destruct (c =? NOTE)%N; [|done].
      by destruct (find_close (N.eqb NOTE) r).
Qed.

Lemma quiet_fixed (fuel : nat) (t : text) :
  (∀ k, bracket_match (drop k t) = None) → re_sub_fuel fuel bracket_match t = t.
Proof.
  revert t. induction fuel as [|f IH]; intros t H; [done|].
  destruct t as [|c r]; [done|]. cbn [re_sub_fuel].
  pose proof (H 0%nat) as H0. cbn [drop] in H0. rewrite H0.
  f_equal. apply IH. intros k. apply (H (S k)).
Qed.

Lemma find_close_app_None (stop : N → bool) (a b : text) :
  find_close stop (a ++ b) = None → find_close stop a = None.
Proof.
  induction a as [|c r IH]; [done|]. simpl.
  destruct (stop c); [done|]. destruct (c =? LF)%N; [done|]. exact IH.
Qed.

Lemma bracket_match_app_None (a b : text) :
  a ≠ [] → bracket_match (a ++ b) = None → bracket_match a = None.
Proof.
  destruct a as [|c r]; [done|]. intros _. simpl.
  destruct (is_open c).
  - destruct (find_close is_close (r ++ b)) eqn:E; [done|].
    by rewrite (find_close_app_None _ _ _ E).
  - destruct (c =? NOTE)%N; [|done].
    by destruct (find_close (N.eqb NOTE) (r ++ b)).
Qed.

Lemma quiet_middle (w1 u w2 : text) :
  (∀ k, bracket_match (drop k (w1 ++ u ++ w2)) = None) →
  ∀ k, bracket_match (drop k u) = None.
Proof.
  intros H k. destruct (decide (k < length u)%nat) as [Hk|Hk];
    [|by rewrite drop_ge by lia].
  specialize (H (length w1 + k)%nat).
  rewrite drop_app_add, drop_app_le in H by lia.
  apply bracket_match_app_None in H; [done|].
  intros E. apply (f_equal length) in E. rewrite length_drop in E.
  simpl in E. lia.
Qed.

Lemma quiet_no_note (t : text) :
  (∀ k, bracket_match (drop k t) = None) → NOTE ∉ t.
Proof.
  intros H [k Hk]%list_elem_of_lookup.
  specialize (H k). rewrite (drop_S _ _ _ Hk) in H. unfold bracket_match in H.
  rewrite (proj1 (proj2 (proj2 note_facts))), N.eqb_refl in H.
  by destruct (find_close (N.eqb NOTE) (drop (S k) t)).
Qed.

End cleaning_facts.

(** X6.  Cleaning only deletes: its result is what is left of the text
    after removing characters.  The bracket-and-note pattern matches nowhere
    in the result, so no note sign is left and no opening bracket with a
    closing one behind it on its line; the result neither starts nor ends
    with white space, and cleaning it again changes nothing. *)
Theorem clean_text_spec (t : text) :
  let r := subtitle_parser._clean_text t in
  (r `sublist_of` t) ∧
  (∀ k, subtitle_parser.bracket_match (drop k r) = None) ∧
  (subtitle_parser.NOTE ∉ r) ∧
  (∀ c, head r = Some c → subtitle_parser.is_space c = false) ∧
  (∀ c, list.last r = Some c → subtitle_parser.is_space c = false) ∧
  subtitle_parser._clean_text r = r.
Proof.
  intros r. unfold subtitle_parser._clean_text in r.
  destruct t as [|c0 t0].
  { subst r. split; [done|]. split; [by intros []|].
    split; [apply not_elem_of_nil|]. done. }
  set (t := c0 :: t0) in *.
  set (u := subtitle_parser.re_sub subtitle_parser.bracket_match t) in *.
  destruct (strip_split u) as (w1 & w2 & Eu & _ & _). fold r in Eu.
  assert (Hq : ∀ k, subtitle_parser.bracket_match (drop k r) = None).
  { apply (quiet_middle w1 r w2). rewrite <- Eu.
    by apply re_sub_bracket_quiet. }
  assert (Hh : ∀ c, head r = Some c → subtitle_parser.is_space c = false)
    by (intros c; apply strip_head).
  assert (Hl : ∀ c, list.last r = Some c → subtitle_parser.is_space c = false)
    by (intros c; apply strip_last).
  split.
  { transitivity u; [|apply re_sub_bracket_sublist].
    rewrite Eu. apply sublist_inserts_l, sublist_inserts_r. done. }
  split; [exact Hq|]. split; [by apply quiet_no_note|].
  split; [exact Hh|]. split; [exact Hl|].
  unfold subtitle_parser._clean_text. destruct r as [|c1 r1] eqn:Er; [done|].
  rewrite <- Er in *. unfold subtitle_parser.re_sub.
  rewrite quiet_fixed by done. by apply strip_fixed.
Qed.

(** ** Numbers: what the normalization leaves *)
Section normalization_facts.
Import subtitle_parser numeral.

Variable digit_val : N → option N.

Local Abbreviation is_digit := (is_digit digit_val).
Local Abbreviation digits := (Forall (λ c, is_digit c = true)).
Local Abbreviation plain := (Forall (λ c, is_digit c = false)).

Hypothesis digits_apart : ∀ c,
  is_digit c = true →
  is_chinese_char c = false ∧ c ≠ DOT ∧ c ≠ PERCENT.

Lemma span_app (p : N → bool) (t a b : text) :
  span p t = (a, b) → t = a ++ b.
Proof.
  revert a b. induction t as [|c r IH]; intros a b; simpl.
  - by intros [= <- <-].
  - destruct (p c); [|by intros [= <- <-]].
    destruct (span p r) as [a' b']. intros [= <- <-].
    simpl. f_equal. by apply IH.
Qed.

Lemma number_token_shorter (t group rest : text) :
  number_token digit_val t = Some (group, rest) →
  (length rest < length t)%nat.
Proof.
  unfold number_token. destruct (span is_digit t) as [d1 r1] eqn:E1.
  apply span_app in E1 as ->.
  destruct d1 as [|c d1]; [done|].
  destruct r1 as [|x r2].
  - intros [= _ <-]. rewrite length_app. simpl. lia.
  - destruct (x =? DOT)%N.
    + destruct (span is_digit r2) as [d2 r3] eqn:E2.
      apply span_app in E2 as ->. intros [= _ <-].
      rewrite !length_app. simpl. rewrite length_app. lia.
    + intros [= _ <-]. rewrite length_app. simpl. lia.
Qed.

Lemma number_token_digit (c : N) (r : text) :
  is_digit c = true → is_Some (number_token digit_val (c :: r)).
Proof.
  intros Hc. unfold number_token. simpl. rewrite Hc.
  destruct (span is_digit r) as [a b].
  destruct b as [|x r2]; [by eexists|].
  destruct (x =? DOT)%N; [|by eexists].
  destruct (span is_digit r2). by eexists.
Qed.

Lemma num_to_cn_plain (s : text) : plain (_num_to_cn digit_val s).
Proof.
  unfold _num_to_cn. destruct (split_dot s) as [[a b]|].
  - apply Forall_app. split.
    + apply (int_to_cn_plain digit_val digits_apart), int_of_nonneg.
    + constructor; [|apply (digits_to_cn_plain digit_val digits_apart)].
      destruct (is_digit DIAN) eqn:E; [|done].
      by apply digits_apart in E as [? _].
  - apply (int_to_cn_plain digit_val digits_apart), int_of_nonneg.
Qed.

(** The last rewriting leaves no digit. *)
Lemma number_rule_plain (fuel : nat) (t : text) :
  (length t ≤ fuel)%nat → plain (re_sub_fuel fuel (number_match digit_val) t).
Proof.
  revert t. induction fuel as [|f IH]; intros t Hlen.
  { destruct t; [constructor|simpl in Hlen; lia]. }
  destruct t as [|c r]; [constructor|]. cbn [re_sub_fuel]. simpl in Hlen.
  unfold number_match at 1.
  destruct (number_token digit_val (c :: r)) as [[group rest]|] eqn:E.
  - apply Forall_app. split; [apply num_to_cn_plain|].
    apply IH. apply number_token_shorter in E. simpl in E. lia.
  - constructor; [|apply IH; lia].
    destruct (is_digit c) eqn:Ec; [|done].
    destruct (number_token_digit c r Ec) as [x Hx]. congruence.
Qed.

Lemma convert_numbers_plain (t : text) : plain (_convert_numbers digit_val t).
Proof. unfold _convert_numbers. by apply number_rule_plain. Qed.

(** *** A decimal *)








End normalization_facts.

(** X7.  With digits that are no ideographs, dots or percent signs, the
    normalization leaves no digit in the text, leaves a text without
    digits as it is, and so changes nothing when applied again. *)
Theorem convert_numbers_no_digit (digit_val : N → option N)
    (Hd : ∀ c, subtitle_parser.is_digit digit_val c = true →
               subtitle_parser.is_chinese_char c = false ∧
               c ≠ subtitle_parser.DOT ∧ c ≠ subtitle_parser.PERCENT)
    (t : text) :
  let convert := subtitle_parser._convert_numbers digit_val in
  Forall (λ c, subtitle_parser.is_digit digit_val c = false) (convert t) ∧
  (Forall (λ c, subtitle_parser.is_digit digit_val c = false) t →
   convert t = t) ∧
  convert (convert t) = convert t.
Proof.
  intros convert.
  pose proof (convert_numbers_plain digit_val Hd t) as Hp.
  split; [exact Hp|]. split; [apply convert_plain|].
  by apply convert_plain.
Qed.

Lemma convert_numbers_no_digit_witness :
  Forall (λ c, subtitle_parser.is_digit sample.ascii_digit c = false)
    (subtitle_parser._convert_numbers sample.ascii_digit
       [0x7b2c; 0x33; 0x2e; 0x35; 0x96c6]%N).
Proof.
  apply (convert_numbers_no_digit sample.ascii_digit ascii_digits_apart).
Defined.



(** ** The gap vocal track: merging mute regions *)
Section region_facts.
Import audio_merger.

Lemma insert_region_elem (r x : region) (l : list region) :
  x ∈ insert_region r l ↔ x = r ∨ x ∈ l.
Proof.
  induction l as [|y l IH]; simpl.
  - rewrite list_elem_of_singleton, elem_of_nil. tauto.
  - destruct (decide (y.1 < r.1)%Qc).
    + rewrite !elem_of_cons, IH. tauto.
    + rewrite !elem_of_cons. tauto.
Qed.

Lemma sort_regions_elem (x : region) (l : list region) :
  x ∈ sort_regions l ↔ x ∈ l.
Proof.
  unfold sort_regions. induction l as [|y l IH]; simpl; [done|].
  rewrite insert_region_elem, elem_of_cons, IH. tauto.
Qed.

Lemma insert_region_length (r : region) (l : list region) :
  length (insert_region r l) = S (length l).
Proof.
  induction l as [|y l IH]; simpl; [done|].
  destruct (decide (y.1 < r.1)%Qc); simpl; by rewrite ?IH.
Qed.

Lemma sort_regions_length (l : list region) :
  length (sort_regions l) = length l.
Proof.
  unfold sort_regions. induction l as [|y l IH]; simpl; [done|].
  by rewrite insert_region_length, IH.
Qed.

Lemma insert_region_sorted (r : region) (l : list region) :
  StronglySorted (λ a b, (a.1 ≤ b.1)%Qc) l →
  StronglySorted (λ a b, (a.1 ≤ b.1)%Qc) (insert_region r l).
Proof.
  induction 1 as [|x l Hs IH Hx]; simpl; [repeat constructor|].
  case_decide as Hlt; [|rename Hlt into Hge].
  - constructor; [done|].
    apply List.Forall_forall. intros y Hy.
    apply list_elem_of_In, insert_region_elem in Hy as [->|Hy].
    + by apply Qclt_le_weak.
    + rewrite List.Forall_forall in Hx. by apply Hx, list_elem_of_In.
  - apply Qcnot_lt_le in Hge.
    constructor; [by constructor|]. constructor; [done|].
    eapply List.Forall_impl; [|exact Hx]. intros y Hy. simpl in Hy.
    by eapply Qcle_trans.
Qed.

Lemma sort_regions_sorted (l : list region) :
  StronglySorted (λ a b, (a.1 ≤ b.1)%Qc) (sort_regions l).
Proof.
  unfold sort_regions. induction l as [|r l IH]; simpl; [constructor|].
  by apply insert_region_sorted.
Qed.

(** A step of the merge on a list that ends with [(ps, pe)]. *)
Lemma merge_step_snoc (th : float) (done : list region) (ps pe : float)
    (r : region) :
  merge_step th (done ++ [(ps, pe)]) r
  = if decide (r.1 ≤ pe + th)%Qc
    then done ++ [(ps, fmax pe r.2)]
    else (done ++ [(ps, pe)]) ++ [r].
Proof.
  unfold merge_step. rewrite last_snoc.
  destruct (decide (r.1 ≤ pe + th)%Qc); [|done].
  rewrite length_app. simpl.
  replace (length done + 1 - 1)%nat with (length done) by lia.
  by rewrite take_app_length.
Qed.

(** An invariant of the regions merged so far, split into the finished
    ones and the one still growing, holds of the result of the loop when
    growing the last region and opening a new one both keep it. *)
Lemma merge_loop_invariant (th : float)
    (I : list region → region → list region → Prop) :
  (∀ done ps pe r rest,
     I done (ps, pe) (r :: rest) → (r.1 ≤ pe + th)%Qc →
     I done (ps, fmax pe r.2) rest) →
  (∀ done ps pe r rest,
     I done (ps, pe) (r :: rest) → ¬ (r.1 ≤ pe + th)%Qc →
     I (done ++ [(ps, pe)]) r rest) →
  ∀ rest done cur,
    I done cur rest →
    ∃ done' cur',
      foldl (merge_step th) (done ++ [cur]) rest = done' ++ [cur'] ∧
      I done' cur' [].
Proof.
  intros Hgrow Hopen rest.
  induction rest as [|r rest IH]; intros done [ps pe] HI; [by eexists _, _|].
  cbn [foldl]. rewrite merge_step_snoc.
  destruct (decide (r.1 ≤ pe + th)%Qc) as [Hle|Hgt].
  - apply IH. by apply Hgrow.
  - apply IH. by apply Hopen.
Qed.

Lemma adjacent_snoc {A} (P : A → A → Prop) (l : list A) (x : A) :
  (∀ i a b, l !! i = Some a → l !! S i = Some b → P a b) →
  (∀ a, list.last l = Some a → P a x) →
  ∀ i a b, (l ++ [x]) !! i = Some a → (l ++ [x]) !! S i = Some b → P a b.
Proof.
  intros Hl Hx i a b Ha Hb.
  destruct (decide (S i < length l)%nat) as [Hlt|Hge].
  - rewrite lookup_app_l in Ha, Hb by lia. by eapply Hl.
  - pose proof (lookup_lt_Some _ _ _ Hb) as Hlen.
    rewrite length_app in Hlen. simpl in Hlen.
    assert (Hi : S i = length l) by lia.
    rewrite lookup_app_l in Ha by lia.
    rewrite lookup_app_r, Hi, Nat.sub_diag in Hb by lia.
    injection Hb as <-. apply Hx. rewrite last_lookup.
    by replace (pred (length l)) with i by lia.
Qed.

Lemma adjacent_snoc_inv {A} (P : A → A → Prop) (l : list A) (x : A) :
  (∀ i a b, (l ++ [x]) !! i = Some a → (l ++ [x]) !! S i = Some b → P a b) →
  (∀ i a b, l !! i = Some a → l !! S i = Some b → P a b) ∧
  (∀ a, list.last l = Some a → P a x).
Proof.
  intros H. split.
  - intros i a b Ha Hb. apply (H i).
    + by apply lookup_app_l_Some.
    + by apply lookup_app_l_Some.
  - intros a Ha. rewrite last_lookup in Ha.
    pose proof (lookup_lt_Some _ _ _ Ha) as Hlt.
    apply (H (pred (length l))).
    + by apply lookup_app_l_Some.
    + replace (S (pred (length l))) with (length l) by lia.
      by rewrite lookup_app_r, Nat.sub_diag by lia.
Qed.

Lemma merge_loop_apart (th : float) (rest : list region) (first : region) :
  ∀ i a b,
    foldl (merge_step th) [first] rest !! i = Some a →
    foldl (merge_step th) [first] rest !! S i = Some b →
    (a.2 + th < b.1)%Qc.
Proof.
  destruct (merge_loop_invariant th
              (λ done cur _, ∀ i a b,
                 (done ++ [cur]) !! i = Some a →
                 (done ++ [cur]) !! S i = Some b → (a.2 + th < b.1)%Qc))
    with (rest := rest) (done := @nil region) (cur := first)
    as (done' & cur' & E & H).
  - intros done ps pe r rest' HI _.
    apply adjacent_snoc_inv in HI as [Hd Hl]. by apply adjacent_snoc.
  - intros done ps pe r rest' HI Hgt.
    apply adjacent_snoc; [exact HI|].
    intros a. rewrite last_snoc. intros [= <-]. by apply Qcnot_le_lt.
  - intros [|[|i]] a b; simpl; done.
  - change [first] with ([] ++ [first]). by rewrite E.
Qed.

Lemma fmax_either (x y : float) : fmax x y = x ∨ fmax x y = y.
Proof. unfold fmax. case_decide; [by right|by left]. Qed.

Lemma fmax_ge_l (x y : float) : (x ≤ fmax x y)%Qc.
Proof.
  destruct (fmax_cases x y) as [[H ->]|[_ ->]];
    [by apply Qclt_le_weak|apply Qcle_refl].
Qed.

Lemma fmax_ge_r (x y : float) : (y ≤ fmax x y)%Qc.
Proof.
  destruct (fmax_cases x y) as [[_ ->]|[H ->]]; [apply Qcle_refl|done].
Qed.

(** What the loop keeps of the regions it has read: each lies inside a
    merged region, and the bounds of a merged region are bounds of regions
    read. *)
Lemma merge_loop_covers (th : float) (all rest : list region) (first : region) :
  StronglySorted (λ a b, (a.1 ≤ b.1)%Qc) (first :: rest) →
  (∀ r, r ∈ all ↔ r ∈ first :: rest) →
  let out := foldl (merge_step th) [first] rest in
  Forall (λ r, Exists (λ m, (m.1 ≤ r.1)%Qc ∧ (r.2 ≤ m.2)%Qc) out) all ∧
  Forall (λ m, (∃ r, r ∈ all ∧ m.1 = r.1) ∧ (∃ r, r ∈ all ∧ m.2 = r.2)) out.
Proof.
  intros Hs Hall out.
  destruct (merge_loop_invariant th
              (λ done cur todo,
                 StronglySorted (λ a b, (a.1 ≤ b.1)%Qc) todo ∧
                 Forall (λ r, (cur.1 ≤ r.1)%Qc) todo ∧
                 (∀ r, r ∈ todo → r ∈ all) ∧
                 (∀ r, r ∈ all → r ∈ todo ∨
                    Exists (λ m, (m.1 ≤ r.1)%Qc ∧ (r.2 ≤ m.2)%Qc)
                      (done ++ [cur])) ∧
                 Forall (λ m, (∃ r, r ∈ all ∧ m.1 = r.1) ∧
                              (∃ r, r ∈ all ∧ m.2 = r.2)) (done ++ [cur])))
    with (rest := rest) (done := @nil region) (cur := first)
    as (done' & cur' & E & _ & _ & _ & Hc & Hb).
  - intros done ps pe r todo (Hst & Hle & Hin & Hcov & Hbd) _.
    inversion_clear Hst as [|? ? Hst' Hr]. inversion_clear Hle as [|? ? Hle1 Hle'].
    split; [done|]. split; [done|].
    split; [intros x Hx; apply Hin; by right|]. split.
    + intros x Hx. destruct (Hcov x Hx) as [[->|Hx']%elem_of_cons|Hex].
      * right. apply Exists_app. right. apply Exists_cons_hd.
        split; [done|apply fmax_ge_r].
      * by left.
      * right. apply Exists_app in Hex as [Hex|Hex]; apply Exists_app;
          [by left|right].
        apply Exists_cons in Hex as [[H1 H2]|Hex]; [|by inversion Hex].
        apply Exists_cons_hd. split; [done|].
        simpl in *. eapply Qcle_trans; [exact H2|apply fmax_ge_l].
    + apply Forall_app in Hbd as [Hbd1 Hbd2]. apply Forall_app.
      split; [done|]. inversion_clear Hbd2 as [|? ? [Hb1 Hb2] _].
      constructor; [|done]. split; [done|]. simpl.
      destruct (fmax_either pe r.2) as [->| ->]; [done|].
      exists r. split; [apply Hin; by left|done].
  - intros done ps pe r todo (Hst & Hle & Hin & Hcov & Hbd) _.
    inversion_clear Hst as [|? ? Hst' Hr].
    split; [done|]. split; [done|].
    split; [intros x Hx; apply Hin; by right|]. split.
    + intros x Hx. destruct (Hcov x Hx) as [[->|Hx']%elem_of_cons|Hex].
      * right. apply Exists_app. right. apply Exists_cons_hd.
        split; apply Qcle_refl.
      * by left.
      * right. apply Exists_app. by left.
    + apply Forall_app. split; [done|]. constructor; [|done].
      split; exists r; (split; [apply Hin; by left|done]).
  - inversion_clear Hs as [|? ? Hst Hf].
    split; [done|]. split; [done|].
    split; [intros r Hr; apply Hall; by right|]. split.
    + intros r [->|Hr]%Hall%elem_of_cons; [right|by left].
      apply Exists_cons_hd. split; apply Qcle_refl.
    + constructor; [|done].
      split; exists first; (split; [apply Hall; by left|done]).
  - unfold out. change [first] with ([] ++ [first]). rewrite E. split; [|done].
    apply List.Forall_forall. intros r Hr%list_elem_of_In.
    destruct (Hc r Hr) as [Hn|?]; [by apply elem_of_nil in Hn|done].
Qed.

(** The loop keeps any property of regions that merging two regions
    with it keeps. *)
Lemma merge_loop_forall (th : float) (Q : region → Prop) (rest : list region)
    (first : region) :
  (∀ ps pe r, Q (ps, pe) → Q r → Q (ps, fmax pe r.2)) →
  Forall Q (first :: rest) →
  Forall Q (foldl (merge_step th) [first] rest).
Proof.
  intros HQ Hall.
  destruct (merge_loop_invariant th
              (λ done cur todo, Forall Q (done ++ [cur]) ∧ Forall Q todo))
    with (rest := rest) (done := @nil region) (cur := first)
    as (done' & cur' & E & H & _).
  - intros done ps pe r todo [Hd Ht] _.
    inversion_clear Ht as [|? ? Hr Ht']. split; [|done].
    apply Forall_app in Hd as [Hd1 Hd2]. apply Forall_app. split; [done|].
    inversion_clear Hd2. constructor; [|done]. by apply HQ.
  - intros done ps pe r todo [Hd Ht] _.
    inversion_clear Ht as [|? ? Hr Ht']. split; [|done].
    apply Forall_app. split; [done|]. by constructor.
  - inversion_clear Hall. split; [by constructor|done].
  - change [first] with ([] ++ [first]). by rewrite E.
Qed.

End region_facts.

(** X9.  Two neighbouring regions in the result of the merge lie more
    than the threshold apart: the later one starts after the end of the
    earlier one plus the threshold. *)
Theorem merge_mute_regions_apart (regions : list audio_merger.region)
    (merge_threshold : float) (i : nat) (a b : audio_merger.region)
    (Ha : audio_merger._merge_mute_regions regions merge_threshold !! i = Some a)
    (Hb : audio_merger._merge_mute_regions regions merge_threshold !! S i
          = Some b) :
  (a.2 + merge_threshold < b.1)%Qc.
Proof.
  unfold audio_merger._merge_mute_regions in Ha, Hb.
  destruct (audio_merger.sort_regions regions) as [|first rest]; [done|].
  by eapply merge_loop_apart.
Qed.

Lemma merge_mute_regions_apart_witness :
  let out :=
    audio_merger._merge_mute_regions
      [(mkfloat 5 1, mkfloat 6 1); (mkfloat 0 1, mkfloat 1 1);
       (mkfloat 12 10, mkfloat 2 1)] (mkfloat 3 10) in
  out = [(mkfloat 0 1, mkfloat 2 1); (mkfloat 5 1, mkfloat 6 1)] ∧
  (mkfloat 2 1 + mkfloat 3 10 < mkfloat 5 1)%Qc.
Proof.
  intros out. split; [vm_compute; reflexivity|].
  apply (merge_mute_regions_apart
           [(mkfloat 5 1, mkfloat 6 1); (mkfloat 0 1, mkfloat 1 1);
            (mkfloat 12 10, mkfloat 2 1)] (mkfloat 3 10) 0
           (mkfloat 0 1, mkfloat 2 1) (mkfloat 5 1, mkfloat 6 1));
    vm_compute; reflexivity.
Defined.

(** X10.  The merge loses nothing and invents nothing: every region given
    lies inside a region of the result, the start of a region of the result
    is the start of a region given and its end the end of one, and the
    result has at most as many regions as were given. *)
Theorem merge_mute_regions_covers (regions : list audio_merger.region)
    (merge_threshold : float) :
  let out := audio_merger._merge_mute_regions regions merge_threshold in
  Forall (λ r, Exists (λ m, (m.1 ≤ r.1)%Qc ∧ (r.2 ≤ m.2)%Qc) out) regions ∧
  Forall (λ m, (∃ r, r ∈ regions ∧ m.1 = r.1) ∧
               (∃ r, r ∈ regions ∧ m.2 = r.2)) out ∧
  (regions = [] → out = []).
Proof.
  intros out. unfold out, audio_merger._merge_mute_regions.
  pose proof (sort_regions_sorted regions) as Hs.
  pose proof (λ r, sort_regions_elem r regions) as He.
  destruct (audio_merger.sort_regions regions) as [|first rest] eqn:E.
  - assert (regions = []) as ->.
    { destruct regions as [|r l]; [done|].
      apply (f_equal length) in E. rewrite sort_regions_length in E. done. }
    by repeat split.
  - destruct (merge_loop_covers merge_threshold regions rest first Hs) as [H1 H2].
    { intros r. symmetry. apply He. }
    split; [exact H1|]. split; [exact H2|]. by intros ->.
Qed.

(** X11.  Whenever the gap vocal track is not a plain copy of the vocal
    track, the envelope is built from regions that exist, start at or after
    zero, end at or before the total duration and are not empty; and
    without a segment that is valid the track is the copy. *)
Theorem create_gap_vocal_track_regions
    (envelope : list audio_merger.region → float → float →
                option audio_merger.track → result audio_merger.track)
    (cfg : config.Config) (disk : gmap string audio_merger.track)
    (vocal_path : string) (segments : list Segment) (total_duration : float)
    (output_path : string) (time_offset : float) :
  let gap :=
    audio_merger.create_gap_vocal_track envelope cfg disk vocal_path segments
      total_duration output_path time_offset in
  let copy :=
    match disk !! vocal_path with
    | Some t => Ok (<[output_path := t]> disk)
    | None =>
      Raise ("[Errno 2] No such file or directory: '" +:+ vocal_path +:+ "'")
    end in
  (gap = copy ∨
   ∃ regions,
     regions ≠ [] ∧
     Forall (λ m, (0 ≤ m.1)%Qc ∧ (m.1 < m.2)%Qc ∧ (m.2 ≤ total_duration)%Qc)
       regions ∧
     gap = match envelope regions (config.gap_fade_duration cfg)
                   total_duration (disk !! vocal_path) with
           | Ok t => Ok (<[output_path := t]> disk)
           | Raise stderr =>
             Raise ("生成间隙人声轨失败: " +:+ substring 0 300 stderr)
           end) ∧
  (Forall (λ seg, audio_merger.is_valid seg = false) segments → gap = copy).
Proof.
  intros gap copy. unfold gap, audio_merger.create_gap_vocal_track. fold copy.
  split.
  - destruct (filter _ segments) as [|v vs]; [by left|].
    destruct (audio_merger.raw_regions segments total_duration time_offset)
      as [|r0 raw] eqn:Er; [by left|].
    assert (Hraw : Forall (λ m, (0 ≤ m.1)%Qc ∧ (m.1 < m.2)%Qc ∧
                               (m.2 ≤ total_duration)%Qc) (r0 :: raw)).
    { rewrite <- Er. unfold audio_merger.raw_regions.
      apply List.Forall_forall. intros m Hm%list_elem_of_In.
      apply list_elem_of_omap in Hm as (seg & _ & Hm).
      unfold audio_merger.seg_region in Hm.
      case_bool_decide as Hlt; [|done]. injection Hm as <-. simpl.
      split; [apply fmax_ge_l|]. split; [done|].
      destruct (fmin_cases total_duration
                  (start_time seg - time_offset + audio_merger.spoken seg
                   + mkfloat 3 100)%Qc) as [[H ->]|[_ ->]];
        [by apply Qclt_le_weak|apply Qcle_refl]. }
    right. eexists. split; [|split; [|reflexivity]].
    + unfold audio_merger._merge_mute_regions.
      pose proof (sort_regions_length (r0 :: raw)) as Hlen.
      destruct (audio_merger.sort_regions (r0 :: raw)) as [|first rest];
        [done|].
      destruct (merge_loop_invariant (config.gap_merge_threshold cfg)
                  (λ _ _ _, True)) with (rest := rest) (done := @nil audio_merger.region)
        (cur := first) as (d' & c' & E & _); [done..|].
      change [first] with ([] ++ [first]). rewrite E. by destruct d'.
    + unfold audio_merger._merge_mute_regions.
      pose proof (λ r, sort_regions_elem r (r0 :: raw)) as He.
      destruct (audio_merger.sort_regions (r0 :: raw)) as [|first rest];
        [constructor|].
      apply merge_loop_forall.
      * intros ps pe r (H1 & H2 & H3) (H1' & H2' & H3'). simpl in *.
        split; [done|]. split.
        -- eapply Qclt_le_trans; [exact H2|apply fmax_ge_l].
        -- destruct (fmax_either pe r.2) as [->| ->]; done.
      * apply List.Forall_forall. intros m Hm%list_elem_of_In%He.
        rewrite List.Forall_forall in Hraw. by apply Hraw, list_elem_of_In.
  - intros Hnone.
    assert (E : filter (λ seg, audio_merger.is_valid seg = true) segments = []).
    { induction Hnone as [|seg l Hs _ IH]; [done|].
      rewrite list.filter_cons, Hs. by rewrite decide_False. }
    by rewrite E.
Qed.

(** ** The dub track, sample by sample *)
Section timeline_facts.
Import audio_merger.



End timeline_facts.



(** ** The stage loops: what a stage leaves of a segment *)
Section outcome_facts.
Import pipeline.

Variables (tools : Tools) (env : Env).

Local Abbreviation segs st := (manifest.segments (man st)).

(** The fields no stage writes. *)
Local Abbreviation same_line s s' :=
  (id s' = id s ∧ start_time s' = start_time s ∧ end_time s' = end_time s ∧
   duration s' = duration s ∧ source_text s' = source_text s ∧
   target_text s' = target_text s).

Lemma truthy_app (a b : string) : b ≠ "" → truthy (Some (a +:+ b)) = true.
Proof.
  intros Hb. unfold truthy. apply negb_true_iff, String.eqb_neq. intros E.
  apply (f_equal String.length) in E. rewrite string_app_length in E.
  destruct b; [done|]. simpl in E. lia.
Qed.

Lemma app_nonempty (a b : string) : b ≠ "" → a +:+ b ≠ "".
Proof.
  intros Hb E. apply (f_equal String.length) in E.
  rewrite string_app_length in E. destruct b; [done|]. simpl in E. lia.
Qed.

Lemma process_turn_at (st : State) (i : nat) (seg : Segment) :
  segs st !! i = Some seg →
  ∃ seg', segs (process_turn tools env st i) !! i = Some seg' ∧
    same_line seg seg' ∧
    output_audio_path seg' = output_audio_path seg ∧
    actual_duration seg' = actual_duration seg ∧
    (truthy (ref_audio_path seg') = true ∧ status seg' = status seg ∨
     status seg' = "error" ∧ is_Some (error_msg seg')).
Proof.
  intros Hi. pose proof (lookup_lt_Some _ _ _ Hi) as Hlt.
  unfold process_turn. rewrite Hi.
  destruct (fs.exists_ _ _).
  - eexists. split; [by apply list_lookup_insert_eq|].
    repeat split; try done. left. split; [|done]. by apply truthy_app.
  - unfold audio_processor.process_segment.
    destruct (manifest.vocal_track (man st)) as [v|].
    + destruct (ffmpeg_cut tools _) as [stderr|].
      * eexists. split; [by apply list_lookup_insert_eq|].
        repeat split; try done. right. by eauto.
      * eexists. split; [by apply list_lookup_insert_eq|].
        repeat split; try done. left. split; [|done]. by apply truthy_app.
    + eexists. split; [by apply list_lookup_insert_eq|].
      repeat split; try done. right. by eauto.
Qed.

Lemma process_turn_length (st : State) (i : nat) :
  length (segs (process_turn tools env st i)) = length (segs st).
Proof.
  unfold process_turn. destruct (segs st !! i) as [seg|]; [|done].
  destruct (fs.exists_ _ _); [by apply length_insert|].
  destruct (audio_processor.process_segment _ _ _ _); by apply length_insert.
Qed.

Lemma loop_length (turn : State → nat → State) (l : list nat) (st : State) :
  (∀ st i, length (segs (turn st i)) = length (segs st)) →
  length (segs (foldl turn st l)) = length (segs st).
Proof.
  intros H. revert st. induction l as [|i l IH]; intros st; [done|].
  simpl. by rewrite IH, H.
Qed.

(** *** Synthesis *)

Lemma already_dubbed_spec (f : gset string) (seg : Segment) :
  already_dubbed f seg = true ↔
  status seg = "success" ∧
  ∃ p, output_audio_path seg = Some p ∧ p ≠ "" ∧ p ∈ f.
Proof.
  unfold already_dubbed.
  by rewrite andb_true_iff, String.eqb_eq, present_spec.
Qed.

Lemma already_dubbed_mono (f f' : gset string) (seg : Segment) :
  f ⊆ f' → already_dubbed f seg = true → already_dubbed f' seg = true.
Proof.
  intros Hsub. rewrite !already_dubbed_spec.
  intros (Hs & p & Hp & Hne & Hin). split; [done|]. exists p. set_solver.
Qed.

(** Post-processing keeps the clip: whatever fails in it, the segment
    leaves it synthesized, with an output path that is on disk. *)
Lemma post_process_keeps (segments : list Segment) (i : nat)
    (output_path : string) (seg : Segment) (f : gset string) :
  already_dubbed f seg = true →
  let r := post_process tools env segments i output_path seg f in
  same_line seg r.1 ∧ ref_audio_path r.1 = ref_audio_path seg ∧
  error_msg r.1 = error_msg seg ∧
  already_dubbed r.2 r.1 = true ∧ f ⊆ r.2.
Proof.
  intros Hd r. unfold r, post_process. clear r.
  destruct (get_duration tools output_path) as [actual|]; [|done].
  destruct (matching_speed _ _ _ _ _) as [speed|]; [|done].
  destruct (post_process_audio tools _ _ _); [done|].
  assert (Hfin : ∀ s, status s = "success" →
    already_dubbed
      ({[config.output_segments_dir (cfg env) +:+ "/dub_"
           +:+ audio_processor.fmt04 (id seg) +:+ "_final.wav"]} ∪ f)
      (set_output
         (Some (config.output_segments_dir (cfg env) +:+ "/dub_"
                  +:+ audio_processor.fmt04 (id seg) +:+ "_final.wav")) s)
    = true).
  { intros s Hs. apply already_dubbed_spec. split; [done|].
    eexists. split; [done|]. split; [by apply app_nonempty|set_solver]. }
  apply already_dubbed_spec in Hd as [Hs _].
  destruct (get_duration tools _) as [final|].
  - repeat split; try done; [by apply (Hfin (set_actual _ seg))|set_solver].
  - repeat split; try done; [by apply (Hfin (set_actual _ seg))|set_solver].
Qed.

Lemma generate_turn_at (st : State) (i : nat) (seg : Segment) :
  segs st !! i = Some seg →
  let st' := generate_turn tools env st i in
  files st ⊆ files st' ∧
  ∃ seg', segs st' !! i = Some seg' ∧
    same_line seg seg' ∧ ref_audio_path seg' = ref_audio_path seg ∧
    (seg' = seg ∧
       (already_dubbed (files st) seg = true ∨ status seg = "error" ∨
        truthy (ref_audio_path seg) = false) ∨
     status seg' = "error" ∧ is_Some (error_msg seg') ∨
     already_dubbed (files st') seg' = true).
Proof.
  intros Hi st'. pose proof (lookup_lt_Some _ _ _ Hi) as Hlt.
  unfold st', generate_turn. clear st'. rewrite Hi.
  destruct (already_dubbed (files st) seg) eqn:Ed.
  { split; [done|]. exists seg. split; [done|]. repeat split; try done.
    left. by eauto. }
  destruct (String.eqb_spec (status seg) "error") as [He|He].
  { split; [done|]. exists seg. split; [done|]. repeat split; try done.
    left. by eauto. }
  destruct (truthy (ref_audio_path seg)) eqn:Et.
  2:{ split; [done|]. exists seg. split; [done|]. repeat split; try done.
      left. by eauto. }
  cbn [orb negb].
  destruct (tts_generate tools _ _) as [e|].
  - split; [done|]. eexists. split.
    + cbn. rewrite list_insert_insert_eq. by apply list_lookup_insert_eq.
    + repeat split; try done. right. left. by eauto.
  - set (out := config.output_segments_dir (cfg env) +:+ "/dub_"
                +:+ audio_processor.fmt04 (id (set_status "processing" seg))
                +:+ ".wav").
    set (seg1 := set_status "success"
                   (set_output (Some out) (set_status "processing" seg))).
    assert (Hd1 : already_dubbed ({[out]} ∪ files st) seg1 = true).
    { apply already_dubbed_spec. split; [done|]. exists out.
      split; [done|]. split; [by apply app_nonempty|set_solver]. }
    pose proof (post_process_keeps
                  (<[i := seg1]> (segs (save_manifest env
                     (with_seg i (set_status "processing" seg) st))))
                  i out seg1 _ Hd1) as Hp.
    cbv zeta in Hp. fold out. fold seg1.
    destruct (post_process _ _ _ _ _ _ _) as [seg2 f2].
    destruct Hp as (Hline & Href & Herr & Hd2 & Hsub). cbn [fst snd] in *.
    split; [cbn; set_solver|]. exists seg2. split.
    + cbn. rewrite list_insert_insert_eq. by apply list_lookup_insert_eq.
    + split; [exact Hline|]. split; [exact Href|]. right. right. exact Hd2.
Qed.

Lemma generate_turn_length (st : State) (i : nat) :
  length (segs (generate_turn tools env st i)) = length (segs st).
Proof.
  unfold generate_turn. destruct (segs st !! i) as [seg|]; [|done].
  destruct (already_dubbed _ _); [done|]. destruct (_ || _); [done|].
  destruct (tts_generate _ _ _).
  - cbn. by rewrite !length_insert.
  - destruct (post_process _ _ _ _ _ _ _) as [seg' f']. cbn.
    by rewrite !length_insert.
Qed.

Lemma generate_turn_files (st : State) (i : nat) :
  files st ⊆ files (generate_turn tools env st i).
Proof.
  destruct (segs st !! i) as [seg|] eqn:E.
  - by destruct (generate_turn_at st i seg E) as [? _].
  - unfold generate_turn. by rewrite E.
Qed.

Lemma generate_loop_files (l : list nat) (st : State) :
  files st ⊆ files (foldl (generate_turn tools env) st l).
Proof.
  revert st. induction l as [|i l IH]; intros st; [done|].
  simpl. etrans; [apply generate_turn_files|apply IH].
Qed.

End outcome_facts.

(** X13.  The prepare-segments stage keeps the number of segments and, of
    each segment, its id, times, texts, output path and measured duration;
    it leaves each segment with a reference path set and its status as it
    was, or with status "error" and an error message.  It ends with the
    stage marked completed and the manifest saved. *)
Theorem process_stage_outcome (tools : pipeline.Tools) (env : pipeline.Env)
    (st : pipeline.State) :
  let after := pipeline._stage_process_segments tools env st in
  length (manifest.segments (pipeline.man after))
  = length (manifest.segments (pipeline.man st)) ∧
  manifest.stages_status (pipeline.man after) !! "process"
  = Some (manifest.StageStr "completed") ∧
  pipeline.saved after = Some (pipeline.man after) ∧
  ∀ j seg,
    manifest.segments (pipeline.man st) !! j = Some seg →
    ∃ seg',
      manifest.segments (pipeline.man after) !! j = Some seg' ∧
      (id seg' = id seg ∧ start_time seg' = start_time seg ∧
       end_time seg' = end_time seg ∧ duration seg' = duration seg ∧
       source_text seg' = source_text seg ∧
       target_text seg' = target_text seg) ∧
      output_audio_path seg' = output_audio_path seg ∧
      actual_duration seg' = actual_duration seg ∧
      (truthy (ref_audio_path seg') = true ∧ status seg' = status seg ∨
       status seg' = "error" ∧ is_Some (error_msg seg')).
Proof.
  intros after. split; [|split; [|split]].
  - unfold after, pipeline._stage_process_segments. cbn.
    apply loop_length. apply process_turn_length.
  - unfold after, pipeline._stage_process_segments. cbn.
    apply lookup_insert_eq.
  - done.
  - intros j seg Hj.
    pose proof (lookup_lt_Some _ _ _ Hj) as Hlt.
    assert (Ha : manifest.segments (pipeline.man after) !! j
                 = manifest.segments
                     (pipeline.man
                        (pipeline.process_turn tools env
                           (foldl (pipeline.process_turn tools env) st
                              (seq 0 j)) j)) !! j).
    { unfold after, pipeline._stage_process_segments. cbn.
      apply (loop_own _ (process_turn_other tools env)). exact Hlt. }
    rewrite Ha. apply process_turn_at.
    rewrite loop_before; [done|]. apply process_turn_other.
Qed.

Lemma stage_generate_unfold (tools : pipeline.Tools) (env : pipeline.Env)
    (st : pipeline.State) :
  pipeline._stage_generate_dubbing tools env st
  = let st1 := foldl (pipeline.generate_turn tools env) st
                 (seq 0 (length (manifest.segments (pipeline.man st)))) in
    pipeline.save_manifest env
      (pipeline.with_man
         (manifest.set_stage "generate" "completed" (pipeline.man st1)) st1).
Proof.
  unfold pipeline._stage_generate_dubbing.
  destruct (forallb _ _) eqn:E; [|done].
  by rewrite generate_loop_done.
Qed.

(** X14.  The synthesize stage deletes no file and keeps the number of
    segments and, of each segment, its id, times, texts and reference path.
    Each segment comes out unchanged (it was already dubbed, had failed, or
    has no reference clip), or with status "error" and an error message, or
    with status "success" and an output path that is on disk, whatever
    failed in its post-processing. *)
Theorem generate_stage_outcome (tools : pipeline.Tools) (env : pipeline.Env)
    (st : pipeline.State) :
  let after := pipeline._stage_generate_dubbing tools env st in
  pipeline.files st ⊆ pipeline.files after ∧
  length (manifest.segments (pipeline.man after))
  = length (manifest.segments (pipeline.man st)) ∧
  ∀ j seg,
    manifest.segments (pipeline.man st) !! j = Some seg →
    ∃ seg',
      manifest.segments (pipeline.man after) !! j = Some seg' ∧
      (id seg' = id seg ∧ start_time seg' = start_time seg ∧
       end_time seg' = end_time seg ∧ duration seg' = duration seg ∧
       source_text seg' = source_text seg ∧
       target_text seg' = target_text seg) ∧
      ref_audio_path seg' = ref_audio_path seg ∧
      (seg' = seg ∧
         (status seg = "success" ∨ status seg = "error" ∨
          truthy (ref_audio_path seg) = false) ∨
       status seg' = "error" ∧ is_Some (error_msg seg') ∨
       status seg' = "success" ∧
         fs.present (pipeline.files after) (output_audio_path seg') = true).
Proof.
  intros after. unfold after. rewrite stage_generate_unfold. cbv zeta. cbn.
  set (turn := pipeline.generate_turn tools env).
  set (n := length (manifest.segments (pipeline.man st))).
  split; [apply generate_loop_files|]. split.
  { apply loop_length. apply generate_turn_length. }
  intros j seg Hj.
  pose proof (lookup_lt_Some _ _ _ Hj) as Hlt. fold n in Hlt.
  set (before := foldl turn st (seq 0 j)).
  assert (Hb : manifest.segments (pipeline.man before) !! j = Some seg).
  { unfold before. rewrite loop_before; [done|]. apply generate_turn_other. }
  destruct (generate_turn_at tools env before j seg Hb)
    as (_ & seg' & Hseg' & Hline & Href & Hcase).
  assert (Hsplit : foldl turn st (seq 0 n)
                   = foldl turn (turn before j) (seq (S j) (n - S j))).
  { replace n with (j + S (n - S j))%nat at 1 by lia.
    by rewrite seq_app, foldl_app. }
  exists seg'. split.
  { rewrite (loop_own turn (generate_turn_other tools env) st n j Hlt).
    exact Hseg'. }
  split; [exact Hline|]. split; [exact Href|].
  destruct Hcase as [[-> Hwhy]|[Herr|Hd]].
  - left. split; [done|].
    destruct Hwhy as [Hd|[?|?]]; [left|by right; left|by right; right].
    by apply already_dubbed_spec in Hd as [? _].
  - right. by left.
  - right. right.
    assert (Hd' : pipeline.already_dubbed
                    (pipeline.files (foldl turn st (seq 0 n))) seg' = true).
    { rewrite Hsplit. eapply already_dubbed_mono; [|exact Hd].
      apply generate_loop_files. }
    unfold pipeline.already_dubbed in Hd'.
    apply andb_true_iff in Hd' as [Hs Hp]. by apply String.eqb_eq in Hs.
Qed.

(** ** The manifest file: writing it and reading it back *)
Section manifest_facts.

Lemma segment_read_back (s : Segment) :
  segment.from_dict (segment.to_dict s) = Some s.
Proof.
  unfold segment.from_dict.
  rewrite bool_decide_eq_true_2 by apply to_dict_dom.
  unfold segment.to_dict. simplify_map_eq. simpl.
  rewrite !as_opt_str_of, as_opt_float_of. simpl.
  by destruct s.
Qed.

Lemma segments_read_back (l : list Segment) :
  mapM segment.from_dict (segment.to_dict <$> l) = Some l.
Proof.
  apply mapM_Some. induction l as [|s l IH]; [constructor|].
  constructor; [apply segment_read_back|exact IH].
Qed.

Lemma manifest_dict_dom (m : manifest.ProjectManifest) :
  dom (manifest.to_dict m) ⊆ (list_to_set manifest.init_names : gset string).
Proof.
  unfold manifest.to_dict. rewrite !dom_insert_L, dom_empty_L. set_solver.
Qed.

Lemma as_opt_of (o : option string) :
  manifest.as_opt (manifest.of_opt o) = Some o.
Proof. by destruct o. Qed.

Lemma migrate_word (v : option manifest.stage_val) :
  pipeline.stage_word (manifest.migrate <$> v) = pipeline.stage_word v.
Proof. by destruct v as [[s|inner]|]. Qed.

End manifest_facts.

(** X15.  Reading back the dictionary written for a manifest gives the
    manifest again, all fields and all segments, with every stage entry of
    the older schema replaced by its status word ("pending" when it has
    none).  The replacement changes no stage's status word, so no stage's
    completion check, and changes nothing in a manifest whose entries are
    all status words. *)
Theorem manifest_load_to_dict (m : manifest.ProjectManifest) :
  manifest.load (manifest.to_dict m) = Some (manifest.migrated m) ∧
  (∀ stage_name,
     pipeline.stage_word
       (manifest.stages_status (manifest.migrated m) !! stage_name)
     = pipeline.stage_word (manifest.stages_status m !! stage_name)) ∧
  (∀ st stage_name,
     pipeline.man st = m →
     pipeline._is_stage_completed
       (pipeline.with_man (manifest.migrated m) st) stage_name
     = pipeline._is_stage_completed st stage_name) ∧
  ((∀ k v, manifest.stages_status m !! k = Some v →
           ∃ s, v = manifest.StageStr s) →
   manifest.migrated m = m).
Proof.
  split; [|split; [|split]].
  - unfold manifest.load.
    rewrite bool_decide_eq_true_2 by apply manifest_dict_dom.
    unfold manifest.to_dict. simplify_map_eq. simpl.
    rewrite segments_read_back. simpl.
    rewrite !as_opt_of. simpl. done.
  - intros stage_name. simpl. rewrite lookup_fmap. apply migrate_word.
  - intros st stage_name <-. unfold pipeline._is_stage_completed. simpl.
    by rewrite lookup_fmap, migrate_word.
  - intros Hall. destruct m as [? ? ? ? ? ? ? ? ? stages ? ? ? ?].
    unfold manifest.migrated. simpl in *. f_equal.
    apply map_eq. intros k. rewrite lookup_fmap.
    destruct (stages !! k) as [v|] eqn:E; [|done]. simpl.
    by destruct (Hall k v E) as [s ->].
Qed.

(** ** Stages 2 and 3, and the forced rerun *)
Section media_facts.
Import pipeline.

Lemma present_here (f : gset string) (a b : string) :
  b ≠ "" → a +:+ b ∈ f → fs.present f (Some (a +:+ b)) = true.
Proof.
  intros Hb Hin. apply present_spec. exists (a +:+ b).
  split; [done|]. split; [by apply app_nonempty|done].
Qed.

Lemma glob_outside (dir pre suf p : string) :
  String.prefix (dir +:+ "/") p = false → fs.glob dir pre suf p = false.
Proof. intros H. unfold fs.glob, fs.file_name. by rewrite H. Qed.

Lemma unlink_glob_elem (dir pre suf p : string) (f : gset string) :
  p ∈ fs.unlink_glob dir pre suf f ↔ p ∈ f ∧ fs.glob dir pre suf p = false.
Proof. unfold fs.unlink_glob. rewrite elem_of_filter. tauto. Qed.

End media_facts.

(** X16.  The clip stage that returns has the clip's path recorded in the
    manifest, the clip on disk and the manifest saved, and touches no
    segment.  When the clip was there already nothing is cut and no stage
    entry changes; otherwise the video tool has cut it and the stage passes
    the completion check.  The stage raises only when the clip is missing
    and the tool fails, with the tool's error output. *)
Theorem stage_clip_video_spec (media : pipeline.Media) (env : pipeline.Env)
    (st : pipeline.State) :
  let path :=
    config.intermediate_dir (pipeline.cfg env) +:+ "/"
      +:+ pipeline.project_name env +:+ "_clip.mp4" in
  match pipeline._stage_clip_video media env st with
  | Ok st' =>
    manifest.clipped_video (pipeline.man st') = Some path ∧
    (path ∈ pipeline.files st') ∧
    pipeline.saved st' = Some (pipeline.man st') ∧
    manifest.segments (pipeline.man st')
    = manifest.segments (pipeline.man st) ∧
    (path ∈ pipeline.files st →
     pipeline.files st' = pipeline.files st ∧
     manifest.stages_status (pipeline.man st')
     = manifest.stages_status (pipeline.man st)) ∧
    (path ∉ pipeline.files st →
     pipeline.files st' = {[path]} ∪ pipeline.files st ∧
     pipeline._is_stage_completed st' "clip" = true)
  | Raise e =>
    (path ∉ pipeline.files st) ∧
    ∃ stderr,
      pipeline.clip_video media (pipeline.video_path env) path
        (manifest.clip_start (pipeline.man st))
        (manifest.clip_end (pipeline.man st)
         - manifest.clip_start (pipeline.man st))%Qc = Some stderr ∧
      e = "裁剪视频失败: " +:+ stderr
  end.
Proof.
  intros path. unfold pipeline._stage_clip_video. fold path.
  unfold fs.exists_. case_bool_decide as Hex.
  - repeat split; try done.
  - destruct (pipeline.clip_video media _ _ _ _) as [stderr|] eqn:E.
    + split; [done|]. by exists stderr.
    + cbn. repeat split; try done; [set_solver|].
      unfold pipeline._is_stage_completed. cbn.
      rewrite lookup_insert_eq. cbn.
      apply present_here; [done|set_solver].
Qed.

(** X17.  The extract stage raises only when the full audio is missing
    and cannot be extracted.  A separation that fails does not fail the
    stage: the full audio is recorded as the vocal track, no background
    track is recorded and no stage entry changes.  A separation that
    succeeds records both tracks and marks the stage completed; when both
    tracks were on disk already they are recorded and nothing else
    changes.  The stage deletes no file and keeps the segments. *)
Theorem stage_extract_audio_spec (media : pipeline.Media) (env : pipeline.Env)
    (st : pipeline.State) :
  let dir := config.intermediate_dir (pipeline.cfg env) in
  let full := dir +:+ "/" +:+ pipeline.project_name env +:+ "_full.wav" in
  let vocals := dir +:+ "/" +:+ pipeline.project_name env +:+ "_full_vocals.wav" in
  let bgm := dir +:+ "/" +:+ pipeline.project_name env +:+ "_full_bgm.wav" in
  let m := pipeline.man st in
  match pipeline._stage_extract_audio media env st with
  | Ok st' =>
    let m' := pipeline.man st' in
    pipeline.saved st' = Some m' ∧
    (pipeline.files st ⊆ pipeline.files st') ∧
    manifest.segments m' = manifest.segments m ∧
    manifest.clipped_video m' = manifest.clipped_video m ∧
    (vocals ∈ pipeline.files st ∧ bgm ∈ pipeline.files st →
     manifest.vocal_track m' = Some vocals ∧
     manifest.bgm_track m' = Some bgm ∧
     manifest.stages_status m' = manifest.stages_status m ∧
     pipeline.files st' = pipeline.files st) ∧
    (¬ (vocals ∈ pipeline.files st ∧ bgm ∈ pipeline.files st) →
     (full ∈ pipeline.files st') ∧
     match pipeline.separate_audio media full dir with
     | Ok (v_path, b_path) =>
       manifest.vocal_track m' = Some v_path ∧
       manifest.bgm_track m' = Some b_path ∧
       manifest.stages_status m' !! "extract"
       = Some (manifest.StageStr "completed")
     | Raise _ =>
       manifest.vocal_track m' = Some full ∧
       manifest.bgm_track m' = None ∧
       manifest.stages_status m' = manifest.stages_status m
     end)
  | Raise e =>
    ¬ (vocals ∈ pipeline.files st ∧ bgm ∈ pipeline.files st) ∧
    (full ∉ pipeline.files st) ∧
    match manifest.clipped_video m with
    | Some video =>
      ∃ stderr, pipeline.extract_audio media video full = Some stderr ∧
                e = "提取音频失败: " +:+ stderr
    | None => True
    end
  end.
Proof.
  intros dir full vocals bgm m. unfold pipeline._stage_extract_audio.
  fold dir. fold full. fold vocals. fold bgm. fold m.
  unfold fs.exists_.
  assert (Hboth : bool_decide (vocals ∈ pipeline.files st)
                  && bool_decide (bgm ∈ pipeline.files st) = true
                  ↔ vocals ∈ pipeline.files st ∧ bgm ∈ pipeline.files st).
  { by rewrite andb_true_iff, !bool_decide_eq_true. }
  destruct (decide (vocals ∈ pipeline.files st ∧ bgm ∈ pipeline.files st))
    as [Hyes|Hnot].
  { rewrite (proj2 Hboth Hyes). cbn.
    split; [done|]. split; [done|]. split; [done|]. split; [done|].
    split; [done|]. intros Hn. by destruct Hn. }
  rewrite (proj1 (not_true_iff_false _) (λ H, Hnot (proj1 Hboth H))).
  assert (Hleaf : ∀ f, pipeline.files st ⊆ f → full ∈ f →
    match
      match pipeline.separate_audio media full dir with
      | Ok (v_path, b_path) =>
        Ok (pipeline.save_manifest env
              (pipeline.with_files ({[v_path; b_path]} ∪ f)
                 (pipeline.with_man
                    (manifest.set_stage "extract" "completed"
                       (manifest.set_tracks (manifest.clipped_video m)
                          (Some v_path) (Some b_path) m)) st)))
      | Raise _ =>
        Ok (pipeline.save_manifest env
              (pipeline.with_files f
                 (pipeline.with_man
                    (manifest.set_tracks (manifest.clipped_video m)
                       (Some full) None m) st)))
      end
    with
    | Ok st' =>
      let m' := pipeline.man st' in
      pipeline.saved st' = Some m' ∧
      (pipeline.files st ⊆ pipeline.files st') ∧
      manifest.segments m' = manifest.segments m ∧
      manifest.clipped_video m' = manifest.clipped_video m ∧
      (vocals ∈ pipeline.files st ∧ bgm ∈ pipeline.files st →
       manifest.vocal_track m' = Some vocals ∧
       manifest.bgm_track m' = Some bgm ∧
       manifest.stages_status m' = manifest.stages_status m ∧
       pipeline.files st' = pipeline.files st) ∧
      (¬ (vocals ∈ pipeline.files st ∧ bgm ∈ pipeline.files st) →
       (full ∈ pipeline.files st') ∧
       match pipeline.separate_audio media full dir with
       | Ok (v_path, b_path) =>
         manifest.vocal_track m' = Some v_path ∧
         manifest.bgm_track m' = Some b_path ∧
         manifest.stages_status m' !! "extract"
         = Some (manifest.StageStr "completed")
       | Raise _ =>
         manifest.vocal_track m' = Some full ∧
         manifest.bgm_track m' = None ∧
         manifest.stages_status m' = manifest.stages_status m
       end)
    | Raise e =>
      ¬ (vocals ∈ pipeline.files st ∧ bgm ∈ pipeline.files st) ∧
      (full ∉ pipeline.files st) ∧
      match manifest.clipped_video m with
      | Some video =>
        ∃ stderr, pipeline.extract_audio media video full = Some stderr ∧
                  e = "提取音频失败: " +:+ stderr
      | None => True
      end
    end).
  { intros f Hsub Hfull.
    destruct (pipeline.separate_audio media full dir) as [[v b]|e]; cbn.
    - split; [done|]. split; [set_solver|]. split; [done|]. split; [done|].
      split; [by intros ?|]. intros _. split; [set_solver|].
      split; [done|]. split; [done|]. apply lookup_insert_eq.
    - split; [done|]. split; [done|]. split; [done|]. split; [done|].
      split; [by intros ?|]. intros _. done. }
  clear Hboth. case_bool_decide as Hf.
  - by apply Hleaf.
  - destruct (manifest.clipped_video m) as [video|] eqn:Ec.
    + destruct (pipeline.extract_audio media video full) as [stderr|] eqn:Ee.
      * split; [done|]. split; [done|]. by exists stderr.
      * apply Hleaf; set_solver.
    + done.
Qed.

(** X18.  For a project name without wildcard characters, the cleaning
    of a forced rerun removes the manifest file and only removes media
    files: what is left is what was there and matches none of its patterns,
    and a file that lies in none of the four working directories is never
    removed. *)
Theorem clean_intermediate_files_spec (env : pipeline.Env) (f : gset string)
    (Hname : fs.literal (pipeline.project_name env) = true) :
  let c := pipeline.cfg env in
  let name := pipeline.project_name env +:+ "_" in
  let r := pipeline._clean_intermediate_files env f in
  r.2 = None ∧
  (r.1 ⊆ f) ∧
  (∀ p, p ∈ r.1 ↔
     p ∈ f ∧
     fs.glob (config.temp_dir c) name ".wav" p = false ∧
     fs.glob (config.temp_dir c) name ".mp4" p = false ∧
     fs.glob (config.intermediate_dir c) name "" p = false ∧
     fs.glob (config.segments_dir c) "seg_" ".wav" p = false ∧
     fs.glob (config.segments_dir c) "ref_" ".wav" p = false ∧
     fs.glob (config.output_segments_dir c) "dub_" ".wav" p = false ∧
     fs.glob (config.output_segments_dir c) "dub_" "_adj.wav" p = false) ∧
  (∀ p, p ∈ f →
     String.prefix (config.temp_dir c +:+ "/") p = false →
     String.prefix (config.intermediate_dir c +:+ "/") p = false →
     String.prefix (config.segments_dir c +:+ "/") p = false →
     String.prefix (config.output_segments_dir c +:+ "/") p = false →
     p ∈ r.1).
Proof.
  intros c name r.
  assert (Hiff : ∀ p, p ∈ r.1 ↔
     p ∈ f ∧
     fs.glob (config.temp_dir c) name ".wav" p = false ∧
     fs.glob (config.temp_dir c) name ".mp4" p = false ∧
     fs.glob (config.intermediate_dir c) name "" p = false ∧
     fs.glob (config.segments_dir c) "seg_" ".wav" p = false ∧
     fs.glob (config.segments_dir c) "ref_" ".wav" p = false ∧
     fs.glob (config.output_segments_dir c) "dub_" ".wav" p = false ∧
     fs.glob (config.output_segments_dir c) "dub_" "_adj.wav" p = false).
  { intros p. unfold r, pipeline._clean_intermediate_files. cbn [fst].
    fold c. fold name. rewrite !unlink_glob_elem. tauto. }
  split; [done|]. split; [|split; [exact Hiff|]].
  - intros p Hp. by apply Hiff in Hp as [? _].
  - intros p Hp H1 H2 H3 H4. apply Hiff.
    split; [done|]. repeat split; by apply glob_outside.
Qed.

Lemma clean_intermediate_files_witness :
  (pipeline._clean_intermediate_files sample.env (pipeline.files sample.st0)).2
  = None ∧
  ((pipeline._clean_intermediate_files sample.env (pipeline.files sample.st0)).1
   ⊆ pipeline.files sample.st0).
Proof.
  destruct (clean_intermediate_files_spec sample.env
              (pipeline.files sample.st0)) as (H1 & H2 & _).
  - reflexivity.
  - split; [exact H1|exact H2].
Defined.

(** ** Extraction: the cap *)
Section cap_facts.
Import subtitle_parser.

Variable digit_val : N → option N.
Variables (start_time : float) (end_time : option float).

Lemma load_loop_extends (max_segments : option Z) (n : nat) :
  ∀ (subs : list SSAEvent) (segments : list Segment) (segment_id : Z),
    (length subs ≤ n)%nat →
    segments `prefix_of`
      load_loop digit_val start_time end_time max_segments subs segments
        segment_id.
Proof.
  induction n as [|n IH]; intros subs segments segment_id Hlen.
  { destruct subs; [done|simpl in Hlen; lia]. }
  destruct subs as [|line rest]; [done|].
  simpl in Hlen. cbn [load_loop].
  destruct (turn _ _ _ _ _) as [|two [[source target]|]]; [done|..].
  - destruct (cap_reached _ _); [by apply prefix_app_r|].
    destruct two, rest as [|x rest2];
      try (etrans; [|apply IH; lia]; by apply prefix_app_r).
    etrans; [|apply IH; simpl in Hlen; lia]. by apply prefix_app_r.
  - destruct two, rest as [|x rest2]; try (apply IH; lia).
    apply IH. simpl in Hlen. lia.
Qed.

Lemma load_loop_cap (cap : Z) (n : nat) :
  ∀ (subs : list SSAEvent) (segments : list Segment) (segment_id : Z),
    (length subs ≤ n)%nat → Z.of_nat (length segments) < cap →
    load_loop digit_val start_time end_time (Some cap) subs segments segment_id
    = take (Z.to_nat cap)
        (load_loop digit_val start_time end_time None subs segments segment_id).
Proof.
  induction n as [|n IH]; intros subs segments segment_id Hlen Hcap.
  { destruct subs; [|simpl in Hlen; lia]. simpl. by rewrite take_ge by lia. }
  destruct subs as [|line rest]; [simpl; by rewrite take_ge by lia|].
  simpl in Hlen. cbn [load_loop].
  destruct (turn _ _ _ _ _) as [|two [[source target]|]].
  - by rewrite take_ge by lia.
  - set (segments' := segments ++ [new_segment segment_id line source target]).
    assert (Hlen' : Z.of_nat (length segments') = Z.of_nat (length segments) + 1).
    { unfold segments'. rewrite length_app. simpl. lia. }
    cbn [cap_reached].
    destruct (Z.leb_spec cap (Z.of_nat (length segments'))) as [Hge|Hlt].
    + destruct (Z.eqb_spec cap 0); [lia|]. cbn [negb andb].
      assert (Hc : Z.to_nat cap = length segments') by lia.
      assert (Hpre : ∀ l, segments' `prefix_of` l →
                          segments' = take (Z.to_nat cap) l).
      { intros l [k ->]. by rewrite Hc, take_app_length. }
      destruct two, rest as [|x rest2];
        apply Hpre; by eapply load_loop_extends.
    + rewrite andb_false_r.
      destruct two, rest as [|x rest2]; try (apply IH; lia).
      apply IH; [simpl in Hlen; lia|lia].
  - destruct two, rest as [|x rest2]; try (apply IH; lia).
    apply IH; [simpl in Hlen; lia|lia].
Qed.

End cap_facts.

(** X19.  A positive cap only cuts the result short: extraction with
    [max_segments = cap] returns the first [cap] segments of what it
    returns without a cap. *)
Theorem load_cap_take (digit_val : N → option N)
    (subs : list subtitle_parser.SSAEvent) (start_time : float)
    (end_time : option float) (cap : Z) (Hcap : 0 < cap) :
  subtitle_parser.load digit_val subs start_time end_time (Some cap)
  = take (Z.to_nat cap)
      (subtitle_parser.load digit_val subs start_time end_time None).
Proof.
  unfold subtitle_parser.load. eapply load_loop_cap; [done|simpl; lia].
Qed.

Lemma load_cap_take_witness :
  subtitle_parser.load sample.ascii_digit sample.cues (mkfloat 60 1)
    (Some (mkfloat 120 1)) (Some 1)
  = take 1
      (subtitle_parser.load sample.ascii_digit sample.cues (mkfloat 60 1)
         (Some (mkfloat 120 1)) None).
Proof.
  apply (load_cap_take sample.ascii_digit sample.cues (mkfloat 60 1)
           (Some (mkfloat 120 1)) 1).
  lia.
Defined.

(** ** The prepare-segments stage: the file it looks for *)
Section reference_facts.
Import pipeline.

Variables (tools : Tools) (env : Env).

Lemma string_app_inv_head (a x y : string) : a +:+ x = a +:+ y → x = y.
Proof.
  induction a as [|c a IH]; [done|]. rewrite !string_app_cons.
  intros [= H]. by apply IH.
Qed.

Lemma process_turn_files (st : State) (i : nat) (p : string) :
  p ∈ files (process_turn tools env st i) ↔
  p ∈ files st ∨
  ∃ seg, manifest.segments (man st) !! i = Some seg ∧
    fs.exists_ (files st)
      (config.segments_dir (cfg env) +:+ "/ref_"
         +:+ audio_processor.fmt04 (id seg) +:+ ".wav") = false ∧
    audio_processor.process_segment (ffmpeg_cut tools)
      (manifest.vocal_track (man st)) seg (config.segments_dir (cfg env))
    = Ok p.
Proof.
  unfold process_turn.
  destruct (manifest.segments (man st) !! i) as [seg|].
  2:{ split; [by left|]. by intros [?|(s & ? & _)]. }
  destruct (fs.exists_ _ _) eqn:Ex.
  { cbn. split; [by left|].
    intros [?|(s & [= <-] & Hf & _)]; [done|congruence]. }
  destruct (audio_processor.process_segment _ _ _ _) as [out|e] eqn:Ep; cbn.
  - rewrite elem_of_union, elem_of_singleton. split.
    + intros [->|?]; [right|by left]. by exists seg.
    + intros [?|(s & [= <-] & _ & Hp)]; [by right|left]. congruence.
  - split; [by left|].
    intros [?|(s & [= <-] & _ & Hp)]; [done|congruence].
Qed.

Lemma process_segment_name (ffmpeg_cut : string → option string)
    (vocal : option string) (seg seg0 : Segment) (dir out : string) :
  audio_processor.process_segment ffmpeg_cut vocal seg dir = Ok out →
  out ≠ dir +:+ "/ref_" +:+ audio_processor.fmt04 (id seg0) +:+ ".wav".
Proof.
  unfold audio_processor.process_segment, audio_processor.segment_file.
  destruct vocal; [|done]. destruct (ffmpeg_cut _); [done|].
  intros [= <-] E. apply string_app_inv_head in E.
  rewrite !string_app_cons in E. by injection E.
Qed.

Lemma process_loop_files (l : list nat) (st : State) (seg0 : Segment) :
  let expected_ref :=
    config.segments_dir (cfg env) +:+ "/ref_"
      +:+ audio_processor.fmt04 (id seg0) +:+ ".wav" in
  expected_ref ∈ files (foldl (process_turn tools env) st l) ↔
  expected_ref ∈ files st.
Proof.
  intros expected_ref. revert st.
  induction l as [|i l IH]; intros st; [done|].
  cbn [foldl]. rewrite IH, process_turn_files. split; [|by left].
  intros [?|(seg & _ & _ & Hp)]; [done|].
  by apply process_segment_name with (seg0 := seg0) in Hp.
Qed.

End reference_facts.

(** X20.  The prepare-segments stage never writes the file whose
    presence lets it skip a segment: the reference file of a segment,
    [ref_] and the id, is on disk after the stage exactly when it was
    before.  What the stage writes are the [seg_] files, so a rerun cuts
    again every segment it had cut. *)
Theorem process_stage_reference_files (tools : pipeline.Tools)
    (env : pipeline.Env) (st : pipeline.State) (seg0 : Segment) :
  let expected_ref :=
    config.segments_dir (pipeline.cfg env) +:+ "/ref_"
      +:+ audio_processor.fmt04 (id seg0) +:+ ".wav" in
  (expected_ref ∈ pipeline.files (pipeline._stage_process_segments tools env st) ↔
   expected_ref ∈ pipeline.files st) ∧
  (∀ out,
     audio_processor.process_segment (pipeline.ffmpeg_cut tools)
       (manifest.vocal_track (pipeline.man st)) seg0
       (config.segments_dir (pipeline.cfg env)) = Ok out →
     out = config.segments_dir (pipeline.cfg env) +:+ "/seg_"
             +:+ audio_processor.fmt04 (id seg0) +:+ ".wav" ∧
     out ≠ expected_ref).
Proof.
  intros expected_ref. split.
  - unfold pipeline._stage_process_segments. cbn. apply process_loop_files.
  - intros out H. split; [|by eapply process_segment_name].
    unfold audio_processor.process_segment in H.
    destruct (manifest.vocal_track _); [|done].
    destruct (pipeline.ffmpeg_cut tools _); [done|]. by injection H as <-.
Qed.

(** ** Invalidation, applied again *)
Section invalidation_facts.
Import pipeline.

Lemma invalidate_cases (get_duration : string → result float) (env : Env)
    (st : State) :
  let st' := _invalidate_on_range_change get_duration env st in
  st' = st ∨ manifest.clipped_video (man st') = None.
Proof.
  intros st'. unfold st', _invalidate_on_range_change. clear st'.
  destruct (manifest.clipped_video (man st)) as [clip|]; [|by left].
  destruct (negb _); [by left|].
  destruct (get_duration clip) as [actual|]; [|by left].
  case_bool_decide; [by left|]. by right.
Qed.

End invalidation_facts.

(** X21.  Checking for a changed range twice is checking once: after an
    invalidation no clip is recorded, so a second check finds nothing to
    compare and leaves the state as the first left it. *)
Theorem invalidate_on_range_change_again
    (get_duration : string → result float) (env : pipeline.Env)
    (st : pipeline.State) :
  let once := pipeline._invalidate_on_range_change get_duration env st in
  pipeline._invalidate_on_range_change get_duration env once = once ∧
  (once = st ∨
   manifest.clipped_video (pipeline.man once) = None ∧
   pipeline._is_stage_completed once "clip" = false).
Proof.
  intros once.
  destruct (invalidate_cases get_duration env st) as [E|E]; fold once in E.
  - split; [|by left]. by rewrite E.
  - split.
    + unfold pipeline._invalidate_on_range_change at 1. by rewrite E.
    + right. split; [done|]. unfold pipeline._is_stage_completed.
      rewrite E. cbn. by destruct (negb _).
Qed.

(** ** The parse stage *)
Section parse_facts.
Import pipeline.




End parse_facts.


(** ** The run *)

(** X23.  However a run ends, the manifest it leaves is saved, and its
    status is not left at "processing": a run that returns leaves the
    status "completed" and returns the recorded final video; a run that
    raises leaves the status "error" with the message of the exception, the
    one it raises again.  When the parse stage raises, nothing else has
    run: no file has changed, and the manifest differs from the one the run
    started with in its status and error message only.  Stage 6 with the
    state it leaves agrees with the stage as a result. *)
Theorem run_spec (tools : pipeline.Tools) (media : pipeline.Media)
    (export : pipeline.State → gmap string audio_merger.track →
              pipeline.outcome)
    (audio : pipeline.State → gmap string audio_merger.track)
    (env : pipeline.Env) (st : pipeline.State) :
  let r := pipeline.run tools media export audio env st in
  let started :=
    pipeline.save_manifest env
      (pipeline.with_man
         (manifest.set_status "processing" (pipeline.man st)) st) in
  pipeline.saved r.2 = Some (pipeline.man r.2) ∧
  match r.1 with
  | Ok v =>
    manifest.status (pipeline.man r.2) = "completed" ∧
    v = manifest.final_video (pipeline.man r.2)
  | Raise e =>
    manifest.status (pipeline.man r.2) = "error" ∧
    manifest.error_msg (pipeline.man r.2) = Some e
  end ∧
  (∀ e, pipeline._stage_parse_subtitles tools env started = Raise e →
        r.1 = Raise e ∧
        pipeline.files r.2 = pipeline.files st ∧
        pipeline.man r.2 = manifest.set_failure e (pipeline.man st)) ∧
  (∀ st6 disk,
     pipeline.result_of (pipeline.merge_outcome export env st6 disk)
     = pipeline._stage_merge_output
         (λ s d, pipeline.result_of (export s d)) env st6 disk).
Proof.
  intros r started. split; [|split; [|split]].
  - unfold r, pipeline.run. cbv zeta.
    match goal with
    | |- context [snd (match ?o with
                       | pipeline.Done _ => _
                       | pipeline.Failed _ _ => _
                       end)] => by destruct o
    end.
  - unfold r, pipeline.run. cbv zeta.
    match goal with
    | |- context [snd (match ?o with
                       | pipeline.Done _ => _
                       | pipeline.Failed _ _ => _
                       end)] => by destruct o
    end.
  - intros e He. unfold r, pipeline.run. fold started. rewrite He. by cbn.
  - intros st6 disk. unfold pipeline.merge_outcome, pipeline._stage_merge_output.
    by destruct (audio_merger.create_dubbed_track _ _ _ _ _ _).
Qed.
